(** * PP-OCRv5 C++ baseline: the batch benchmarking driver (src/Benchmark.cpp)

    A shallow embedding of the driver's image discovery, timed repetition
    loop, character counting, accuracy-scoring call, per-image record and
    batch summary, followed by the properties of the driver that the
    repository's specification states.

    Conventions of the embedding.
    - [std::string] is [string] (a list of 8-bit [ascii]); [npos] is [None].
    - [double] is the kernel's binary64 [float]; [int] counters are [Z]
      (signed overflow is undefined behaviour in C++ and is not modelled).
    - The file system, the OCR engine, the scoring subprocess, [getenv] and
      [std::stod] are the environment: a record [World] of oracles.  The
      number of calls made to the engine and to [popen] is part of the
      driver's state, so that an oracle may answer each call differently.
    - [std::cout] keeps the PER_IMAGE_RESULT lines and the progress lines,
      in their order; the numbers of a record are the [double] values
      handed to the stream, before [std::setprecision] formats them.  The
      other lines of [std::cout] are not in it; the numbers of the summary
      and of the TIMING_INFO lines that end it are the fields of
      [BatchSummary].
    - [std::cerr] is a list of diagnostics, one constructor per message.
    - Exceptions are those derived from [std::exception], the only ones the
      driver catches.  The constructor of the engine is called outside the
      [try] block: an exception it throws ends the process.
    - The outputs of the first run are dereferenced without a test when
      they are printed and saved (line 327); where one of them is a null
      pointer the behaviour is undefined, and the model ends the process
      there.  A process ended in one of these two ways returns no exit
      code.  On a result that is not null, [Print], [SaveToImg] and
      [SaveToJson] are taken to return. *)

From Stdlib Require Import ZArith List String Ascii Bool Lia Floats.
Import ListNotations.

Open Scope string_scope.

(** ** [std::string] operations used by the driver *)

Module Str.

(** [s.find(c)] from the beginning. *)
Fixpoint find_char0 (c : ascii) (s : string) : option nat :=
  match s with
  | EmptyString => None
  | String a r => if Ascii.eqb a c then Some 0 else option_map S (find_char0 c r)
  end.

(** [s.find(c, pos)]: [npos] when [pos] is past the end. *)
Fixpoint find_char (c : ascii) (s : string) (pos : nat) {struct pos} : option nat :=
  match pos, s with
  | O, _ => find_char0 c s
  | S _, EmptyString => None
  | S p, String _ r => option_map S (find_char c r p)
  end.

(** [s.find(needle, pos)] on substrings. *)
Definition find (needle s : string) (pos : nat) : option nat :=
  String.index pos needle s.

(** [s.find_last_of(c)]. *)
Fixpoint find_last_of (c : ascii) (s : string) : option nat :=
  match s with
  | EmptyString => None
  | String a r =>
      match find_last_of c r with
      | Some i => Some (S i)
      | None => if Ascii.eqb a c then Some 0 else None
      end
  end.

Fixpoint mem (c : ascii) (set : string) : bool :=
  match set with
  | EmptyString => false
  | String a r => Ascii.eqb a c || mem c r
  end.

Fixpoint find_first_of0 (set s : string) : option nat :=
  match s with
  | EmptyString => None
  | String a r => if mem a set then Some 0 else option_map S (find_first_of0 set r)
  end.

(** [s.find_first_of(set, pos)]. *)
Fixpoint find_first_of (set s : string) (pos : nat) {struct pos} : option nat :=
  match pos, s with
  | O, _ => find_first_of0 set s
  | S _, EmptyString => None
  | S p, String _ r => option_map S (find_first_of set r p)
  end.

(** [s.substr(pos)].  The driver only calls it with [pos <= s.size()]
    (otherwise C++ throws [std::out_of_range]). *)
Fixpoint substr_from (s : string) (pos : nat) {struct pos} : string :=
  match pos, s with
  | O, _ => s
  | S _, EmptyString => EmptyString
  | S p, String _ r => substr_from r p
  end.

(** [s.substr(pos, n)], clipped at the end of [s]; the driver never calls
    it with [pos] past the end. *)
Definition substr (s : string) (pos n : nat) : string := String.substring pos n s.

(** [::tolower] in the "C" locale (the driver never calls [setlocale]). *)
Definition tolower (c : ascii) : ascii :=
  let n := nat_of_ascii c in
  if (65 <=? n)%nat && (n <=? 90)%nat then ascii_of_nat (n + 32) else c.

Fixpoint transform_tolower (s : string) : string :=
  match s with
  | EmptyString => EmptyString
  | String a r => String (tolower a) (transform_tolower r)
  end.

(** [::isspace] in the "C" locale: space, \t, \n, \v, \f, \r. *)
Definition isspace (c : ascii) : bool :=
  let n := nat_of_ascii c in
  (n =? 32)%nat || ((9 <=? n)%nat && (n <=? 13)%nat).

(** The erase/remove_if idiom with [::isspace]. *)
Fixpoint remove_spaces (s : string) : string :=
  match s with
  | EmptyString => EmptyString
  | String a r => if isspace a then remove_spaces r else String a (remove_spaces r)
  end.

End Str.

(** ** Image discovery (Benchmark.cpp, lines 38-104) *)

(** [isImageFile]: the extension is everything from the last dot of the
    path, lower-cased, compared with the five accepted extensions. *)
Definition isImageFile (filepath : string) : bool :=
  match Str.find_last_of "."%char filepath with
  | None => false
  | Some dot_pos =>
      let ext := Str.transform_tolower (Str.substr_from filepath dot_pos) in
      String.eqb ext ".jpg" || String.eqb ext ".jpeg" || String.eqb ext ".png"
      || String.eqb ext ".bmp" || String.eqb ext ".tiff"
  end.

(** What [stat] and [opendir]/[readdir] report for a path.  A directory
    whose [opendir] fails has listing [None]; a listing is the sequence of
    [readdir] entries (it may contain "." and ".."), each with the node that
    [stat] reports for <dir>/<name>.  [Other] stands for a failing [stat]
    and for anything that is neither a regular file nor a directory.  The
    tree is finite: symbolic-link cycles are outside the model. *)
#[warnings="-register-all"]
Inductive fsnode : Type :=
| Regular
| Directory (listing : option (list (string * fsnode)))
| Other.

Definition isDirectory (n : fsnode) : bool :=
  match n with Directory _ => true | _ => false end.

Definition isFile (n : fsnode) : bool :=
  match n with Regular => true | _ => false end.

Definition is_dot_entry (name : string) : bool :=
  String.eqb name "." || String.eqb name "..".

(** [collectImagesFromDirectory(dirPath, imagePaths)], with the node that
    [dirPath] names.  It writes nothing to any stream. *)
Fixpoint collectImagesFromDirectory (dirPath : string) (dir : fsnode)
    (imagePaths : list string) {struct dir} : list string :=
  match dir with
  | Directory (Some entries) =>
      (fix readdir_loop (es : list (string * fsnode)) (acc : list string)
         {struct es} : list string :=
         match es with
         | [] => acc
         | (name, child) :: rest =>
             if is_dot_entry name then readdir_loop rest acc
             else
               let fullPath := dirPath ++ "/" ++ name in
               if isDirectory child then
                 readdir_loop rest (collectImagesFromDirectory fullPath child acc)
               else if isFile child && isImageFile fullPath then
                 readdir_loop rest (acc ++ [fullPath])%list
               else readdir_loop rest acc
         end) entries imagePaths
  | _ => imagePaths
  end.

(** Diagnostics written to [std::cerr]. *)
Inductive diag : Type :=
| Usage (argv0 : string)
| WarnSkippingInvalidPath (path : string)
| ErrNoValidImages
| ErrPopenFailed
| ErrAccuracyExecFailed (filename result_str : string)
| ErrNoSingleAccPrefix (filename result_str : string)
| ErrFailedToProcess (image_path what : string)
| ErrNoSuccessfulInferences.

(** [collectImagePaths(argc, argv)]: [args] is argv[1..argc-1]; the result
    is the vector of paths and what was written to [std::cerr]. *)
Fixpoint collectImagePaths_loop (stat : string -> fsnode) (args : list string)
    (imagePaths : list string) (cerr : list diag) : list string * list diag :=
  match args with
  | [] => (imagePaths, cerr)
  | path :: rest =>
      if isDirectory (stat path) then
        collectImagePaths_loop stat rest
          (collectImagesFromDirectory path (stat path) imagePaths) cerr
      else if isFile (stat path) && isImageFile path then
        collectImagePaths_loop stat rest (imagePaths ++ [path])%list cerr
      else
        collectImagePaths_loop stat rest imagePaths
          (cerr ++ [WarnSkippingInvalidPath path])%list
  end.

Definition collectImagePaths (stat : string -> fsnode) (args : list string)
    : list string * list diag :=
  collectImagePaths_loop stat args [] [].

(** ** Numbers *)

(** Conversion of a signed integer to [double] (round to nearest, as the
    C++ conversion does): [int], [size_t] below 2^63 and the [int64_t]
    nanosecond count of [std::chrono]. *)
Definition double_of_Z (z : Z) : float :=
  if (z =? -9223372036854775808)%Z then (-9223372036854775808)%float
  else if (z <? 0)%Z then (- (PrimFloat.of_uint63 (Uint63.of_Z (- z))))%float
  else PrimFloat.of_uint63 (Uint63.of_Z z).

Definition double_of_size (n : nat) : float := double_of_Z (Z.of_nat n).

(** [std::min(a, b)] and [std::max(a, b)] on [double]. *)
Definition std_min (a b : float) : float := if (b <? a)%float then b else a.
Definition std_max (a b : float) : float := if (a <? b)%float then b else a.

(** The place of a [double] in the order of the comparable values: [None]
    for a NaN, otherwise a triple compared lexicographically (the two zeros
    share a place). *)
Definition order_key (x : spec_float) : option (Z * Z * Z) :=
  match x with
  | S754_nan => None
  | S754_infinity true => Some (-2, 0, 0)%Z
  | S754_finite true m e => Some (-1, - e, - Zpos m)%Z
  | S754_zero _ => Some (0, 0, 0)%Z
  | S754_finite false m e => Some (1, e, Zpos m)%Z
  | S754_infinity false => Some (2, 0, 0)%Z
  end.

Definition key_lt (a b : Z * Z * Z) : Prop :=
  let '(a1, a2, a3) := a in
  let '(b1, b2, b3) := b in
  (a1 < b1 \/ (a1 = b1 /\ (a2 < b2 \/ (a2 = b2 /\ a3 < b3))))%Z.

Definition float_lt (a b : float) : Prop :=
  exists ka kb, order_key (Prim2SF a) = Some ka /\ order_key (Prim2SF b) = Some kb
                /\ key_lt ka kb.

Definition unordered (a : float) : Prop := order_key (Prim2SF a) = None.

(** ** Character counting (Benchmark.cpp, lines 257-300) *)

Definition dquote : ascii := "034"%char.
Definition backslash : ascii := "092"%char.

(** The text searched for in the printed result: the key rec_texts in
    double quotes, a colon, a space and an opening bracket. *)
Definition rec_texts_key : string :=
  String dquote ("rec_texts" ++ String dquote ": [").

(** [for (char c : text) if (c != backslash) total_chars++]. *)
Fixpoint count_text (text : string) (total_chars : Z) : Z :=
  match text with
  | EmptyString => total_chars
  | String c r =>
      count_text r (if Ascii.eqb c backslash then total_chars else (total_chars + 1)%Z)
  end.

(** The [while] loop over the quoted strings of [rec_texts_content].  Every
    iteration moves [pos] forward by at least two, so [fuel] larger than the
    length of the content never runs out (lemmas [quoted_loop_fuel] and
    [count_quoted_any_fuel]). *)
Fixpoint quoted_loop (fuel : nat) (rec_texts_content : string) (pos : nat)
    (total_chars : Z) : Z :=
  match fuel with
  | O => total_chars
  | S fuel' =>
      match Str.find_char dquote rec_texts_content pos with
      | None => total_chars
      | Some p =>
          match Str.find_char dquote rec_texts_content (p + 1) with
          | Some end_quote =>
              let text := Str.substr rec_texts_content (p + 1) (end_quote - p - 1) in
              quoted_loop fuel' rec_texts_content (end_quote + 1)
                (count_text text total_chars)
          | None => total_chars
          end
      end
  end.

Definition count_quoted (rec_texts_content : string) (total_chars : Z) : Z :=
  quoted_loop (S (String.length rec_texts_content)) rec_texts_content 0 total_chars.

(** The body of [if (output)] for one printed result. *)
Definition count_output (json_output : string) (total_chars : Z) : Z :=
  match Str.find rec_texts_key json_output 0 with
  | None => total_chars
  | Some rec_texts_pos =>
      match Str.find_char "["%char json_output rec_texts_pos with
      | None => total_chars
      | Some array_start =>
          match Str.find_char "]"%char json_output array_start with
          | None => total_chars
          | Some array_end =>
              count_quoted
                (Str.substr json_output (array_start + 1) (array_end - array_start - 1))
                total_chars
          end
      end
  end.

(** An element of [std::vector<std::unique_ptr<BaseCVResult>>]: [None] is a
    null pointer, [Some json] a result whose [Print()] writes [json]. *)
Definition cv_result : Type := option string.

Fixpoint count_outputs (final_outputs : list cv_result) (total_chars : Z) : Z :=
  match final_outputs with
  | [] => total_chars
  | None :: rest => count_outputs rest total_chars
  | Some json_output :: rest => count_outputs rest (count_output json_output total_chars)
  end.

(** ** The environment *)

(** One call of [infer.Predict(image_path)] together with the clock read
    before and after it: it returns its outputs after [elapsed_ns]
    nanoseconds, or throws an exception derived from [std::exception]. *)
Inductive predict_outcome : Type :=
| PredictReturns (elapsed_ns : Z) (outputs : list cv_result)
| PredictThrows (what : string).

(** [popen] of the scoring command, the text read from the pipe, and the
    status [pclose] returns. *)
Inductive popen_outcome : Type :=
| PopenFails
| PopenRuns (output : string) (exit_code : Z).

Record World : Type := mkWorldOf {
  (** the constructor of the engine (line 221): [None] when it returns,
      the exception's message when it throws *)
  PaddleOCR_throws : option string;
  stat : string -> fsnode;
  getenv_PWD : option string;
  (** the answer of the k-th call of [Predict] of the process *)
  Predict : nat -> string -> predict_outcome;
  (** the answer of the k-th call of [popen] of the process *)
  popen : nat -> string -> popen_outcome;
  (** [std::stod]; [None] when it throws *)
  stod : string -> option float
}.

(** A world in which the constructor of the engine returns. *)
Definition mkWorld (stat : string -> fsnode) (getenv_PWD : option string)
    (Predict : nat -> string -> predict_outcome)
    (popen : nat -> string -> popen_outcome) (stod : string -> option float) : World :=
  mkWorldOf None stat getenv_PWD Predict popen stod.

(** ** The driver's state and output *)

Inductive accuracy_field : Type :=
| AccLiteralZero              (** the text 0.0 of line 362 *)
| AccFixed4 (acc : float).    (** [acc] with four decimals, line 392 *)

Record PerImageRecord : Type := mkRecord {
  filename : string;
  inference_ms : float;
  fps : float;
  chars_per_second : float;
  total_chars : Z;
  accuracy : accuracy_field
}.

Inductive cout_line : Type :=
| PER_IMAGE_RESULT (r : PerImageRecord)
| PROGRESS (processed total : nat) (success failed : Z).

Record State : Type := mkState {
  predict_calls : nat;
  popen_calls : nat;
  inference_times : list float;
  successful_count : Z;
  failed_count : Z;
  cout : list cout_line;
  cerr : list diag
}.

Definition initial_state (cerr0 : list diag) : State :=
  mkState 0 0 [] 0 0 [] cerr0.

Definition write_cout (l : cout_line) (st : State) : State :=
  mkState (predict_calls st) (popen_calls st) (inference_times st)
    (successful_count st) (failed_count st) (cout st ++ [l]) (cerr st).

Definition write_cerr (d : diag) (st : State) : State :=
  mkState (predict_calls st) (popen_calls st) (inference_times st)
    (successful_count st) (failed_count st) (cout st) (cerr st ++ [d]).

Definition push_inference_time (t : float) (st : State) : State :=
  mkState (predict_calls st) (popen_calls st) (inference_times st ++ [t])
    (successful_count st) (failed_count st) (cout st) (cerr st).

Definition incr_successful (st : State) : State :=
  mkState (predict_calls st) (popen_calls st) (inference_times st)
    (successful_count st + 1) (failed_count st) (cout st) (cerr st).

Definition incr_failed (st : State) : State :=
  mkState (predict_calls st) (popen_calls st) (inference_times st)
    (successful_count st) (failed_count st + 1) (cout st) (cerr st).

Definition tick_predict (st : State) : State :=
  mkState (S (predict_calls st)) (popen_calls st) (inference_times st)
    (successful_count st) (failed_count st) (cout st) (cerr st).

Definition tick_popen (st : State) : State :=
  mkState (predict_calls st) (S (popen_calls st)) (inference_times st)
    (successful_count st) (failed_count st) (cout st) (cerr st).

(** The PER_IMAGE_RESULT lines of a [std::cout] log, in order. *)
Fixpoint records (out : list cout_line) : list PerImageRecord :=
  match out with
  | [] => []
  | PER_IMAGE_RESULT r :: rest => r :: records rest
  | PROGRESS _ _ _ _ :: rest => records rest
  end.

(** ** The timed repetition loop (Benchmark.cpp, lines 239-311) *)

(** The locals of the [try] block that the repetition loop fills. *)
Record RunLocals : Type := mkLocals {
  run_times : list float;
  final_outputs : list cv_result;
  loc_total_chars : Z
}.

Definition initial_locals : RunLocals := mkLocals [] [] 0.

(** [inference_duration_ns.count() / 1e6]. *)
Definition inference_ms_of_ns (elapsed_ns : Z) : float :=
  (double_of_Z elapsed_ns / 1e6)%float.

(** [for (int run = 0; run < 3; run++)], with [remaining = 3 - run]
    iterations to go.  The result is the state and either the locals at the
    end of the loop or the message of the exception that left it. *)
Fixpoint repetition_loop (w : World) (image_path : string) (remaining run : nat)
    (st : State) (loc : RunLocals) : State * (RunLocals + string) :=
  match remaining with
  | O => (st, inl loc)
  | S remaining' =>
      match Predict w (predict_calls st) image_path with
      | PredictThrows what => (tick_predict st, inr what)
      | PredictReturns elapsed_ns outputs =>
          let times := (run_times loc ++ [inference_ms_of_ns elapsed_ns])%list in
          let loc' :=
            if (run =? 0)%nat then
              mkLocals times outputs (count_outputs outputs (loc_total_chars loc))
            else mkLocals times (final_outputs loc) (loc_total_chars loc) in
          repetition_loop w image_path remaining' (S run) (tick_predict st) loc'
      end
  end.

(** Lines 307-311: the sum of the samples, from 0.0, divided by their number. *)
Definition average_ms (times : list float) : float :=
  (fold_left PrimFloat.add times 0 / double_of_size (List.length times))%float.

(** Lines 313-314. *)
Definition derive_fps (avg_inference_ms : float) : float :=
  if (0 <? avg_inference_ms)%float then (1000 / avg_inference_ms)%float else 0%float.

Definition derive_chars_per_second (chars : Z) (avg_inference_ms : float) : float :=
  if (0 <? avg_inference_ms)%float
  then (double_of_Z chars * 1000 / avg_inference_ms)%float
  else 0%float.

(** ** Accuracy scoring (Benchmark.cpp, lines 14-36 and 334-397) *)

Definition get_root_path (w : World) : string :=
  match getenv_PWD w with
  | Some root_path_env => root_path_env
  | None => "."
  end.

(** Lines 340-344: the path with everything up to the last slash erased. *)
Definition basename (image_path : string) : string :=
  match Str.find_last_of "/"%char image_path with
  | Some last_slash_pos => Str.substr_from image_path (last_slash_pos + 1)
  | None => image_path
  end.

Definition quoted (s : string) : string := String dquote (s ++ String dquote "").

(** Lines 347-350. *)
Definition scoring_command (rootPath file : string) : string :=
  let ground_truth_path := rootPath ++ "/images/labels.json" in
  ("python " ++ rootPath ++ "/scripts/calculate_acc.py")
    ++ (" --ground_truth " ++ quoted ground_truth_path)
    ++ (" --output_dir " ++ quoted (rootPath ++ "/output"))
    ++ (" --image_name " ++ quoted file).

(** [ExecuteCommand(command, &result)] on an empty [result]: the state, the
    returned flag and the captured text. *)
Definition ExecuteCommand (w : World) (command : string) (st : State)
    : State * bool * string :=
  match popen w (popen_calls st) command with
  | PopenFails => (write_cerr ErrPopenFailed (tick_popen st), false, "")
  | PopenRuns output exit_code => (tick_popen st, (exit_code =? 0)%Z, output)
  end.

Definition single_acc_prefix : string := "SINGLE_ACC: ".

Definition character_accuracy_key : string :=
  String dquote ("character_accuracy" ++ String dquote ":").

(** Lines 373-384: [Some acc], or [None] when [std::stod] throws.
    [find(":", acc_pos) + 1] is computed in [size_t], where [npos + 1] is 0. *)
Definition parse_accuracy (w : World) (json_output : string) : option float :=
  match Str.find character_accuracy_key json_output 0 with
  | None => Some 0%float
  | Some acc_pos =>
      let value_start :=
        match Str.find ":" json_output acc_pos with
        | Some colon => colon + 1
        | None => 0
        end in
      match Str.find_first_of ",}" json_output value_start with
      | None => Some 0%float
      | Some value_end =>
          let acc_str := Str.substr json_output value_start (value_end - value_start) in
          stod w (Str.remove_spaces acc_str)
      end
  end.

(** ** One image (Benchmark.cpp, lines 233-415) *)

(** How control leaves the [try] block: at its end, through [continue],
    through an exception derived from [std::exception], or not at all,
    the process having ended inside it. *)
Inductive flow : Type :=
| Completed (st : State)
| Continued (st : State)
| Threw (st : State) (what : string)
| Crashed (st : State).

(** Lines 325-332: every output of the first run is printed and saved
    through [final_outputs[j]->], without the test of line 259.  [false]
    when the loop reaches a null pointer. *)
Fixpoint save_outputs (final_outputs : list cv_result) : bool :=
  match final_outputs with
  | [] => true
  | None :: _ => false
  | Some _ :: rest => save_outputs rest
  end.

(** The [try] block. *)
Definition try_block (w : World) (image_path : string) (st : State) : flow :=
  match repetition_loop w image_path 3 0 st initial_locals with
  | (st1, inr what) => Threw st1 what
  | (st1, inl loc) =>
      let avg_inference_ms := average_ms (run_times loc) in
      let avg_fps := derive_fps avg_inference_ms in
      let cps := derive_chars_per_second (loc_total_chars loc) avg_inference_ms in
      let st2 := push_inference_time avg_inference_ms st1 in
      if negb (save_outputs (final_outputs loc)) then Crashed st2 else
      let file := basename image_path in
      let command := scoring_command (get_root_path w) file in
      match ExecuteCommand w command st2 with
      | (st3, false, result_str) =>
          Continued
            (write_cout
               (PER_IMAGE_RESULT
                  (mkRecord file avg_inference_ms avg_fps cps (loc_total_chars loc)
                     AccLiteralZero))
               (write_cerr (ErrAccuracyExecFailed file result_str) st3))
      | (st3, true, result_str) =>
          match Str.find single_acc_prefix result_str 0 with
          | Some json_start =>
              let json_output :=
                Str.substr_from result_str (json_start + String.length single_acc_prefix) in
              match parse_accuracy w json_output with
              | None => Threw st3 "stod"
              | Some acc =>
                  Completed
                    (incr_successful
                       (write_cout
                          (PER_IMAGE_RESULT
                             (mkRecord file avg_inference_ms avg_fps cps
                                (loc_total_chars loc) (AccFixed4 acc)))
                          st3))
              end
          | None =>
              Completed
                (incr_successful (write_cerr (ErrNoSingleAccPrefix file result_str) st3))
          end
      end
  end.

(** Lines 408-414. *)
Definition progress_update (i size : nat) (st : State) : State :=
  if ((S i) mod 10 =? 0)%nat || (S i =? size)%nat
  then write_cout (PROGRESS (S i) size (successful_count st) (failed_count st)) st
  else st.

(** Lines 402-406. *)
Definition catch_handler (image_path what : string) (st : State) : State :=
  write_cerr (ErrFailedToProcess image_path what) (incr_failed st).

(** The body of the [for] loop over the images; [continue] skips the
    progress update.  Where the process ends inside the [try] block, the
    result is the state in which it ended. *)
Definition loop_body (w : World) (size i : nat) (image_path : string) (st : State)
    : State :=
  match try_block w image_path st with
  | Completed st' => progress_update i size st'
  | Continued st' => st'
  | Threw st' what => progress_update i size (catch_handler image_path what st')
  | Crashed st' => st'
  end.

(** An iteration in which the process ends: an image path with the state
    in which its iteration starts. *)
Definition crashes (w : World) (it : string * State) : bool :=
  match try_block w (fst it) (snd it) with
  | Crashed _ => true
  | _ => false
  end.

(** The [for] loop over the images; no iteration follows one in which the
    process ends. *)
Fixpoint batch_loop (w : World) (size i : nat) (paths : list string) (st : State)
    : State :=
  match paths with
  | [] => st
  | image_path :: rest =>
      if crashes w (image_path, st) then loop_body w size i image_path st
      else batch_loop w size (S i) rest (loop_body w size i image_path st)
  end.

(** Whether the process ends inside the loop. *)
Fixpoint batch_killed (w : World) (size i : nat) (paths : list string) (st : State)
    : bool :=
  match paths with
  | [] => false
  | image_path :: rest =>
      crashes w (image_path, st)
      || batch_killed w size (S i) rest (loop_body w size i image_path st)
  end.

(** ** Batch statistics and [main] (Benchmark.cpp, lines 163-182, 417-481) *)

Record BatchSummary : Type := mkSummary {
  total_images : nat;
  sum_successful : Z;
  sum_failed : Z;
  success_rate : float;
  total_inference_time : float;
  avg_inference_time : float;
  min_time : float;
  max_time : float;
  avg_fps_per_image : float;
  total_fps : float
}.

(** Lines 424-449; [None] is the branch that reports that there is nothing
    to summarise. *)
Definition summarize (size : nat) (st : State) : option BatchSummary :=
  match inference_times st with
  | [] => None
  | first :: _ =>
      let times := inference_times st in
      let total := fold_left PrimFloat.add times 0%float in
      let avg := (total / double_of_size (List.length times))%float in
      Some (mkSummary size (successful_count st) (failed_count st)
              (100 * double_of_Z (successful_count st) / double_of_size size)%float
              total avg
              (fold_left std_min times first)
              (fold_left std_max times first)
              (1000 / avg)%float
              (double_of_Z (successful_count st) * 1000 / total)%float)
  end.

(** A run of the process: the value [main] returns, [None] where the
    process ends without returning from [main]; the state in which it ends;
    the summary, where one is printed. *)
Record Run : Type := mkRun {
  exit_code : option Z;
  final : State;
  summary : option BatchSummary
}.

(** [main(argc, argv)]; [argv] has [argc] elements, the first of which is
    the program's name. *)
Definition main (w : World) (argv : list string) : Run :=
  match argv with
  | _ :: arg1 :: more =>
      let '(imagePaths, warnings) := collectImagePaths (stat w) (arg1 :: more) in
      match imagePaths with
      | [] => mkRun (Some 1%Z) (initial_state (warnings ++ [ErrNoValidImages])%list) None
      | _ :: _ =>
          match PaddleOCR_throws w with
          | Some _ => mkRun None (initial_state warnings) None
          | None =>
              let size := List.length imagePaths in
              let st := batch_loop w size 0 imagePaths (initial_state warnings) in
              if batch_killed w size 0 imagePaths (initial_state warnings)
              then mkRun None st None
              else
                let sm := summarize size st in
                let st' :=
                  match sm with
                  | Some _ => st
                  | None => write_cerr ErrNoSuccessfulInferences st
                  end in
                mkRun (Some (if (failed_count st >? 0)%Z then 1%Z else 0%Z)) st' sm
          end
      end
  | _ => mkRun (Some 1%Z) (initial_state [Usage (hd "" argv)]) None
  end.

(** ** The branches of the [try] block, as a relation *)

(** The loop touches the call counter of the engine and nothing else. *)
Definition same_but_predict_calls (st st1 : State) : Prop :=
  popen_calls st1 = popen_calls st
  /\ inference_times st1 = inference_times st
  /\ successful_count st1 = successful_count st
  /\ failed_count st1 = failed_count st
  /\ cout st1 = cout st
  /\ cerr st1 = cerr st.

Definition image_record (loc : RunLocals) (image_path : string) (acc : accuracy_field)
    : PerImageRecord :=
  let avg := average_ms (run_times loc) in
  mkRecord (basename image_path) avg (derive_fps avg)
    (derive_chars_per_second (loc_total_chars loc) avg) (loc_total_chars loc) acc.

Definition after_runs (loc : RunLocals) (st1 : State) : State :=
  push_inference_time (average_ms (run_times loc)) st1.

Definition command_of (w : World) (image_path : string) : string :=
  scoring_command (get_root_path w) (basename image_path).

(** The six ways through the [try] block. *)
Inductive try_outcome (w : World) (image_path : string) (st : State) : flow -> Prop :=
| outcome_predict_throws (st1 : State) (what : string) :
    repetition_loop w image_path 3 0 st initial_locals = (st1, inr what) ->
    try_outcome w image_path st (Threw st1 what)
| outcome_null_output (st1 : State) (loc : RunLocals) :
    repetition_loop w image_path 3 0 st initial_locals = (st1, inl loc) ->
    save_outputs (final_outputs loc) = false ->
    try_outcome w image_path st (Crashed (after_runs loc st1))
| outcome_scorer_failed (st1 st3 : State) (loc : RunLocals) (result_str : string) :
    repetition_loop w image_path 3 0 st initial_locals = (st1, inl loc) ->
    save_outputs (final_outputs loc) = true ->
    ExecuteCommand w (command_of w image_path) (after_runs loc st1)
      = (st3, false, result_str) ->
    try_outcome w image_path st
      (Continued
         (write_cout (PER_IMAGE_RESULT (image_record loc image_path AccLiteralZero))
            (write_cerr (ErrAccuracyExecFailed (basename image_path) result_str) st3)))
| outcome_no_marker (st1 st3 : State) (loc : RunLocals) (result_str : string) :
    repetition_loop w image_path 3 0 st initial_locals = (st1, inl loc) ->
    save_outputs (final_outputs loc) = true ->
    ExecuteCommand w (command_of w image_path) (after_runs loc st1)
      = (st3, true, result_str) ->
    Str.find single_acc_prefix result_str 0 = None ->
    try_outcome w image_path st
      (Completed
         (incr_successful
            (write_cerr (ErrNoSingleAccPrefix (basename image_path) result_str) st3)))
| outcome_scored (st1 st3 : State) (loc : RunLocals) (result_str : string)
    (json_start : nat) (acc : float) :
    repetition_loop w image_path 3 0 st initial_locals = (st1, inl loc) ->
    save_outputs (final_outputs loc) = true ->
    ExecuteCommand w (command_of w image_path) (after_runs loc st1)
      = (st3, true, result_str) ->
    Str.find single_acc_prefix result_str 0 = Some json_start ->
    parse_accuracy w
      (Str.substr_from result_str (json_start + String.length single_acc_prefix))
      = Some acc ->
    try_outcome w image_path st
      (Completed
         (incr_successful
            (write_cout (PER_IMAGE_RESULT (image_record loc image_path (AccFixed4 acc)))
               st3)))
| outcome_stod_throws (st1 st3 : State) (loc : RunLocals) (result_str : string)
    (json_start : nat) :
    repetition_loop w image_path 3 0 st initial_locals = (st1, inl loc) ->
    save_outputs (final_outputs loc) = true ->
    ExecuteCommand w (command_of w image_path) (after_runs loc st1)
      = (st3, true, result_str) ->
    Str.find single_acc_prefix result_str 0 = Some json_start ->
    parse_accuracy w
      (Str.substr_from result_str (json_start + String.length single_acc_prefix))
      = None ->
    try_outcome w image_path st (Threw st3 "stod").

(** ** Observing a batch *)

(** The iterations of the batch loop that the process starts: each image
    path with the state in which its iteration starts. *)
Fixpoint iterations (w : World) (size i : nat) (paths : list string) (st : State)
    : list (string * State) :=
  match paths with
  | [] => []
  | image_path :: rest =>
      (image_path, st)
        :: (if crashes w (image_path, st) then []
            else iterations w size (S i) rest (loop_body w size i image_path st))
  end.

(** The image paths that [main] discovers. *)
Definition main_images (w : World) (argv : list string) : list string :=
  fst (collectImagePaths (stat w) (tl argv)).

(** The iterations of a whole run of [main]. *)
Definition main_iterations (w : World) (argv : list string) : list (string * State) :=
  match argv with
  | _ :: arg1 :: more =>
      let '(imagePaths, warnings) := collectImagePaths (stat w) (arg1 :: more) in
      match PaddleOCR_throws w with
      | Some _ => []
      | None => iterations w (List.length imagePaths) 0 imagePaths (initial_state warnings)
      end
  | _ => []
  end.

(** A run that starts no iteration: too few arguments, no image, or an
    exception of the engine's constructor. *)
Definition no_batch (w : World) (argv : list string) : Prop :=
  (List.length argv < 2)%nat
  \/ fst (collectImagePaths (stat w) (tl argv)) = []
  \/ PaddleOCR_throws w <> None.

(** The average latency of an iteration whose three runs all returned. *)
Definition completed_latency (w : World) (it : string * State) : list float :=
  match repetition_loop w (fst it) 3 0 (snd it) initial_locals with
  | (_, inl loc) => [average_ms (run_times loc)]
  | (_, inr _) => []
  end.

(** An iteration that the [catch] handler ended. *)
Definition raised (w : World) (it : string * State) : bool :=
  match try_block w (fst it) (snd it) with
  | Threw _ _ => true
  | _ => false
  end.

(** An iteration that left through [continue]. *)
Definition continued (w : World) (it : string * State) : bool :=
  match try_block w (fst it) (snd it) with
  | Continued _ => true
  | _ => false
  end.

(** [sub] keeps some elements of a list, in their order. *)
Inductive subseq {A : Type} : list A -> list A -> Prop :=
| subseq_nil : subseq [] []
| subseq_skip x sub l : subseq sub l -> subseq sub (x :: l)
| subseq_keep x sub l : subseq sub l -> subseq (x :: sub) (x :: l).

(** ** The specification's wording, for comparison with the code *)

(** Discovery, in the specification's words: the accepted extensions, and
    the regular files below a directory that carry one of them. *)
Definition extension_whitelist : list string := ["jpg"; "jpeg"; "png"; "bmp"; "tiff"].

(** A capital letter of the ASCII alphabet and its small letter. *)
Definition letter_pair (capital small : ascii) : Prop :=
  exists k : nat,
    (k < 26)%nat /\ capital = ascii_of_nat (65 + k) /\ small = ascii_of_nat (97 + k).

Definition same_char_ignoring_case (a b : ascii) : Prop :=
  a = b \/ letter_pair a b \/ letter_pair b a.

Fixpoint equal_ignoring_case (s t : string) : Prop :=
  match s, t with
  | EmptyString, EmptyString => True
  | String a s', String b t' => same_char_ignoring_case a b /\ equal_ignoring_case s' t'
  | _, _ => False
  end.

(** The text after the last dot of the path is, up to the case of its
    letters, one of the accepted extensions. *)
Definition has_image_extension (path : string) : Prop :=
  exists stem ext accepted : string,
    path = stem ++ "." ++ ext
    /\ ~ In "."%char (list_ascii_of_string ext)
    /\ In accepted extension_whitelist
    /\ equal_ignoring_case ext accepted.

Inductive image_under : string -> fsnode -> string -> Prop :=
| image_here (dirPath name : string) (entries : list (string * fsnode)) :
    In (name, Regular) entries ->
    name <> "." -> name <> ".." ->
    has_image_extension (dirPath ++ "/" ++ name) ->
    image_under dirPath (Directory (Some entries)) (dirPath ++ "/" ++ name)
| image_below (dirPath name path : string) (entries : list (string * fsnode))
    (listing : option (list (string * fsnode))) :
    In (name, Directory listing) entries ->
    name <> "." -> name <> ".." ->
    image_under (dirPath ++ "/" ++ name) (Directory listing) path ->
    image_under dirPath (Directory (Some entries)) path.

(** What one command-line argument contributes. *)
Definition discovered_from (stat : string -> fsnode) (arg path : string) : Prop :=
  (exists listing, stat arg = Directory listing /\ image_under arg (Directory listing) path)
  \/ (stat arg = Regular /\ has_image_extension arg /\ path = arg).

(** An argument that is a directory, or a regular file with an accepted
    extension. *)
Definition valid_argument (stat : string -> fsnode) (arg : string) : Prop :=
  (exists listing, stat arg = Directory listing)
  \/ (stat arg = Regular /\ has_image_extension arg).

(** The warnings of the discovery: one for every argument that is not
    valid, in the order of the arguments. *)
Inductive warnings_for (stat : string -> fsnode) : list string -> list diag -> Prop :=
| warnings_done : warnings_for stat [] []
| warnings_valid (arg : string) (rest : list string) (ws : list diag) :
    valid_argument stat arg ->
    warnings_for stat rest ws ->
    warnings_for stat (arg :: rest) ws
| warnings_skipped (arg : string) (rest : list string) (ws : list diag) :
    ~ valid_argument stat arg ->
    warnings_for stat rest ws ->
    warnings_for stat (arg :: rest) (WarnSkippingInvalidPath arg :: ws).

(** The arguments for which the code writes a warning. *)
Definition invalid_argument (stat : string -> fsnode) (arg : string) : bool :=
  negb (isDirectory (stat arg)) && negb (isFile (stat arg) && isImageFile arg).

(** The summary, in the specification's words: its statistics range over
    the successful images, those that [successful_count] counts. *)
Definition counted_successful (w : World) (it : string * State) : bool :=
  match try_block w (fst it) (snd it) with
  | Completed _ => true
  | _ => false
  end.

Definition successful_latencies (w : World) (its : list (string * State)) : list float :=
  flat_map (fun it => if counted_successful w it then completed_latency w it else []) its.

(** Character counting, in the specification's words: a backslash and the
    character it escapes have no width, every other character has width 1. *)
Fixpoint spec_text_width (text : string) : Z :=
  match text with
  | EmptyString => 0
  | String c r =>
      if Ascii.eqb c backslash then
        match r with
        | EmptyString => 0
        | String _ r' => spec_text_width r'
        end
      else (1 + spec_text_width r)%Z
  end.

(** The same wording read on the serialized bytes alone: the backslash
    is a character of the field and has width 1, the character it escapes
    has none. *)
Fixpoint spec_text_width_serialized (text : string) : Z :=
  match text with
  | EmptyString => 0
  | String c r =>
      if Ascii.eqb c backslash then
        match r with
        | EmptyString => 1
        | String _ r' => (1 + spec_text_width_serialized r')%Z
        end
      else (1 + spec_text_width_serialized r)%Z
  end.

(** The number of bytes of a text other than the backslash. *)
Definition non_backslash_bytes (text : string) : Z :=
  Z.of_nat
    (List.length
       (filter (fun c => negb (Ascii.eqb c backslash)) (list_ascii_of_string text))).

(** A printed result with its rec_texts array: the text before the key,
    what follows the bracket, the serialized transcripts each with the
    separator after its closing quote, and the text after the closing
    bracket. *)
Record Printed : Type := mkPrinted {
  before_key : string;
  array_lead : string;
  transcripts : list (string * string);
  after_array : string
}.

Fixpoint render_transcripts (ts : list (string * string)) : string :=
  match ts with
  | [] => ""
  | (text, sep) :: rest => quoted text ++ sep ++ render_transcripts rest
  end.

Definition render (p : Printed) : string :=
  before_key p ++ rec_texts_key ++ array_lead p
    ++ render_transcripts (transcripts p) ++ "]" ++ after_array p.

Definition free_of (c : ascii) (s : string) : Prop := Str.find_char0 c s = None.

(** The printed result is unambiguous for the scanner: the key first occurs
    where it was written, and no text of the array holds a double quote or
    a closing bracket. *)
Definition well_printed (p : Printed) : Prop :=
  Str.find rec_texts_key (render p) 0 = Some (String.length (before_key p))
  /\ free_of dquote (array_lead p) /\ free_of "]"%char (array_lead p)
  /\ Forall (fun ts => free_of dquote (fst ts) /\ free_of "]"%char (fst ts)
                       /\ free_of dquote (snd ts) /\ free_of "]"%char (snd ts))
       (transcripts p).

Fixpoint sum_widths (width : string -> Z) (ts : list (string * string)) : Z :=
  match ts with
  | [] => 0
  | (text, _) :: rest => (width text + sum_widths width rest)%Z
  end.

Fixpoint sum_printed (width : string -> Z) (ps : list Printed) : Z :=
  match ps with
  | [] => 0
  | p :: rest => (sum_widths width (transcripts p) + sum_printed width rest)%Z
  end.

(** ** Concrete environments for the examples *)

Definition digit_of (c : ascii) : option Z :=
  let n := nat_of_ascii c in
  if (48 <=? n)%nat && (n <=? 57)%nat then Some (Z.of_nat (n - 48)) else None.

Fixpoint read_digits (s : string) (num : Z) (count : nat) : Z * nat * string :=
  match s with
  | EmptyString => (num, count, s)
  | String c r =>
      match digit_of c with
      | Some d => read_digits r (10 * num + d)%Z (S count)
      | None => (num, count, s)
      end
  end.

Fixpoint skip_spaces (s : string) : string :=
  match s with
  | EmptyString => EmptyString
  | String c r => if Str.isspace c then skip_spaces r else s
  end.

(** The [double] nearest to the quotient of two integers (ties to even). *)
Definition nearest_double (negative : bool) (num den : Z) : float :=
  match num, den with
  | Zpos n, Zpos d =>
      SF2Prim (SFdiv prec emax (S754_finite negative n 0) (S754_finite false d 0))
  | _, _ => if negative then (-0)%float else 0%float
  end.

(** The exponent part of a decimal: the letter e, an optional sign and at
    least one digit; 0 where the text does not begin with one. *)
Definition read_exponent (s : string) : Z :=
  match s with
  | String c r =>
      if Ascii.eqb c "e"%char || Ascii.eqb c "E"%char then
        let '(negative, digits) :=
          match r with
          | String sign r' =>
              if Ascii.eqb sign "-"%char then (true, r')
              else if Ascii.eqb sign "+"%char then (false, r')
              else (false, r)
          | EmptyString => (false, r)
          end in
        let '(e, n, _) := read_digits digits 0 0 in
        if (n =? 0)%nat then 0%Z else if negative then (- e)%Z else e
      else 0%Z
  | EmptyString => 0%Z
  end.

(** A stand-in for [std::stod] in the examples: the decimal forms of
    [strtod].  Leading white space is skipped; then come an optional sign,
    digits with an optional point, and an optional exponent; the text
    after the number is ignored; the value is the nearest [double].
    [std::stod] throws on a text with no digit there, and where [strtod]
    reports a range error: the nearest [double] is infinite, or the value
    is not zero and lies below the normal range.  The hexadecimal, infinity
    and NaN forms of [strtod] are outside the stand-in, and so are the
    texts that name a subnormal [double] exactly; the examples give it
    plain decimals between 0 and 1, the word null and the empty text. *)
Definition stod_decimal (s : string) : option float :=
  let s0 := skip_spaces s in
  let '(negative, s1) :=
    match s0 with
    | String c r =>
        if Ascii.eqb c "-"%char then (true, r)
        else if Ascii.eqb c "+"%char then (false, r)
        else (false, s0)
    | EmptyString => (false, s0)
    end in
  let '(int_part, n1, rest) := read_digits s1 0 0 in
  let '(num, n2, rest') :=
    match rest with
    | String c r => if Ascii.eqb c "."%char then read_digits r int_part 0
                    else (int_part, 0%nat, rest)
    | EmptyString => (int_part, 0%nat, rest)
    end in
  if (n1 + n2 =? 0)%nat then None
  else
    let e := (read_exponent rest' - Z.of_nat n2)%Z in
    let value :=
      if (0 <=? e)%Z then nearest_double negative (num * 10 ^ e) 1
      else nearest_double negative num (10 ^ (- e)) in
    match PrimFloat.classify value with
    | PInf | NInf | PSubn | NSubn => None
    | PZero | NZero => if (num =? 0)%Z then Some value else None
    | _ => Some value
    end.

(** A printed result with the transcripts hello and ab: 7 characters. *)
Definition sample_printed : Printed :=
  mkPrinted "{" "" [("hello", ", "); ("ab", "")] "}".

(** A printed result with one transcript of six bytes: a, a backslash, n,
    b and two backslashes (the serialized form of a, a line feed, b and a
    backslash). *)
Definition escaped_printed : Printed :=
  mkPrinted "{" ""
    [(String "a" (String backslash ("nb" ++ String backslash (String backslash ""))), "")]
    "}".

(** Every call of [Predict] returns after 500 ms. *)
Definition steady_predict (k : nat) (image_path : string) : predict_outcome :=
  PredictReturns 500000000 [Some (render sample_printed)].

(** Every command-line path is a regular file. *)
Definition files_only (path : string) : fsnode := Regular.

(** The scorer's answer with accuracy 0.95. *)
Definition scorer_output : string :=
  "loading labels" ++ String "010"%char
    ("SINGLE_ACC: {" ++ quoted "character_accuracy" ++ ": 0.95}").

Definition scorer_ok (k : nat) (command : string) : popen_outcome :=
  PopenRuns scorer_output 0.

(** The scorer exits with status 0 and prints no SINGLE_ACC line. *)
Definition world_no_marker : World :=
  mkWorld files_only (Some "/work") steady_predict
    (fun _ _ => PopenRuns "labels.json: no entry for this image" 0) stod_decimal.

(** The scorer exits with status 1 for b.png only. *)
Definition world_scorer_exit1 : World :=
  mkWorld files_only (Some "/work") steady_predict
    (fun _ command =>
       match Str.find "b.png" command 0 with
       | Some _ => PopenRuns "FileNotFoundError" 1
       | None => scorer_ok 0 command
       end)
    stod_decimal.

(** [Predict] throws on img3.png and returns on every other image. *)
Definition world_img3_throws : World :=
  mkWorld files_only (Some "/work")
    (fun k image_path =>
       if String.eqb image_path "img3.png" then PredictThrows "cannot read image"
       else steady_predict k image_path)
    scorer_ok stod_decimal.

Definition five_images : list string :=
  ["Benchmark"; "img1.png"; "img2.png"; "img3.png"; "img4.png"; "img5.png"].

(** Image k takes 100 ms, 400 ms, ... by the number of the call. *)
Definition world_uneven : World :=
  mkWorld files_only (Some "/work")
    (fun k image_path =>
       PredictReturns (if (k <? 3)%nat then 100000000 else 400000000)
         [Some (render sample_printed)])
    scorer_ok stod_decimal.

(** The first image takes 400 ms and is scored; the second takes 100 ms and
    the scorer prints null for its accuracy, on which [std::stod] throws. *)
Definition world_null_accuracy : World :=
  mkWorld files_only (Some "/work")
    (fun k image_path =>
       PredictReturns (if (k <? 3)%nat then 400000000 else 100000000)
         [Some (render sample_printed)])
    (fun _ command =>
       match Str.find "b.png" command 0 with
       | Some _ =>
           PopenRuns ("SINGLE_ACC: {" ++ quoted "character_accuracy" ++ ": null}") 0
       | None => scorer_ok 0 command
       end)
    stod_decimal.

(** The engine returns a null pointer as the second output of b.png. *)
Definition world_null_output : World :=
  mkWorld files_only (Some "/work")
    (fun k image_path =>
       if String.eqb image_path "b.png"
       then PredictReturns 500000000 [Some (render sample_printed); None]
       else steady_predict k image_path)
    scorer_ok stod_decimal.

(** The constructor of the engine throws. *)
Definition world_no_engine : World :=
  mkWorldOf (Some "model not found") files_only (Some "/work") steady_predict scorer_ok
    stod_decimal.

(** A directory tree: photos/ holds a.JPG, notes.txt, a directory that
    cannot be opened and a directory scans/ with b.tiff and c.png.bak. *)
Definition photos_tree : fsnode :=
  Directory (Some
    [ ("."%string, Directory None);
      (".."%string, Directory None);
      ("a.JPG"%string, Regular);
      ("notes.txt"%string, Regular);
      ("locked"%string, Directory None);
      ("scans"%string, Directory (Some
         [ ("b.tiff"%string, Regular); ("c.png.bak"%string, Regular);
           ("fifo.png"%string, Other) ])) ]).

Definition photos_stat (path : string) : fsnode :=
  if String.eqb path "photos" then photos_tree
  else if String.eqb path "x.bmp" then Regular
  else if String.eqb path "README.md" then Regular
  else Other.

Definition world_photos : World :=
  mkWorld photos_stat (Some "/work") steady_predict scorer_ok stod_decimal.

(** ** The stand-alone accuracy helper (Benchmark.cpp, lines 106-161) *)

Definition newline : ascii := "010"%char.

(** The characters of the set given to [find_first_not_of] on line 151:
    space, tab, carriage return, line feed. *)
Definition blank_set : string :=
  String " " (String "009" (String "013" (String newline ""))).

(** [s.find_first_not_of(set)]. *)
Fixpoint find_first_not_of (set s : string) : option nat :=
  match s with
  | EmptyString => None
  | String a r =>
      if Str.mem a set then option_map S (find_first_not_of set r) else Some 0
  end.

(** The lines that successive calls of [std::getline] deliver: [getline_from]
    reads the current line and the lines after it; a line feed ends a line,
    and nothing is delivered once the input is exhausted. *)
Fixpoint getline_from (s : string) : string * list string :=
  match s with
  | EmptyString => (EmptyString, [])
  | String c r =>
      let '(line, more) := getline_from r in
      if Ascii.eqb c newline then
        (EmptyString, match r with EmptyString => [] | String _ _ => line :: more end)
      else (String c line, more)
  end.

Definition getlines (s : string) : list string :=
  match s with
  | EmptyString => []
  | String _ _ => let '(line, more) := getline_from s in line :: more
  end.

(** Lines 109-118: the name without what follows its last dot, then without
    what precedes the last slash of the remainder. *)
Definition accuracy_base_name (image_name : string) : string :=
  let base_name :=
    match Str.find_last_of "."%char image_name with
    | Some dot_pos => Str.substr image_name 0 dot_pos
    | None => image_name
    end in
  match Str.find_last_of "/"%char base_name with
  | Some slash_pos => Str.substr_from base_name (slash_pos + 1)
  | None => base_name
  end.

(** Lines 122-125. *)
Definition accuracy_command (ground_truth_path base_name : string) : string :=
  "python scripts/calculate_acc.py --ground_truth " ++ quoted ground_truth_path
    ++ " --output_dir " ++ quoted "./output"
    ++ " --image_name " ++ quoted base_name ++ " 2>&1".

Definition single_acc_marker : string := "SINGLE_ACC:".

(** Lines 144-158: the first line that starts with the marker gives the
    answer: what follows its first colon, without leading blanks if anything
    else is left. *)
Fixpoint scan_lines (lines : list string) : option string :=
  match lines with
  | [] => None
  | line :: rest =>
      match Str.find single_acc_marker line 0 with
      | Some O =>
          match Str.find_char ":"%char line 0 with
          | Some colon_pos =>
              let json_data := Str.substr_from line (colon_pos + 1) in
              Some match find_first_not_of blank_set json_data with
                   | Some start => Str.substr_from json_data start
                   | None => json_data
                   end
          | None => scan_lines rest
          end
      | _ => scan_lines rest
      end
  end.

Definition accuracy_popen_error : string :=
  "ERROR: Failed to execute accuracy calculation".

(** The text of line 160: an object with the key error and the value
    No accuracy data found. *)
Definition accuracy_no_data : string :=
  "{" ++ quoted "error" ++ ": " ++ quoted "No accuracy data found" ++ "}".

(** [calculateImageAccuracy(image_name, ground_truth_path)]; the status
    that [pclose] returns is not looked at. *)
Definition calculateImageAccuracy (w : World) (image_name ground_truth_path : string)
    (st : State) : State * string :=
  let python_cmd := accuracy_command ground_truth_path (accuracy_base_name image_name) in
  match popen w (popen_calls st) python_cmd with
  | PopenFails => (tick_popen st, accuracy_popen_error)
  | PopenRuns output _ =>
      (tick_popen st,
       match scan_lines (getlines output) with
       | Some json_data => json_data
       | None => accuracy_no_data
       end)
  end.

(** Lines joined as a producer writes them, each ended by a line feed. *)
Fixpoint unlines (lines : list string) : string :=
  match lines with
  | [] => EmptyString
  | line :: rest => line ++ String newline (unlines rest)
  end.

(** The PROGRESS lines of a [std::cout] log are sound for a batch of
    [size] images when each reports that size, a number of processed images
    between 1 and the size, and counters that are not negative and add up to
    at most the number of processed images. *)
Definition progress_sound (size : nat) (l : cout_line) : Prop :=
  match l with
  | PER_IMAGE_RESULT _ => True
  | PROGRESS processed total success failed =>
      total = size /\ (1 <= processed <= size)%nat
      /\ (0 <= success)%Z /\ (0 <= failed)%Z
      /\ (success + failed <= Z.of_nat processed)%Z
  end.

(** The number of bytes that the outputs of a run print. *)
Fixpoint printed_bytes (outputs : list cv_result) : nat :=
  match outputs with
  | [] => 0
  | None :: rest => printed_bytes rest
  | Some json_output :: rest => String.length json_output + printed_bytes rest
  end.

(** The diagnostics written by the [catch] handler (line 404). *)
Definition is_failed_to_process (d : diag) : bool :=
  match d with
  | ErrFailedToProcess _ _ => true
  | _ => false
  end.

(** * Properties *)

(** ** Comparisons of [double] *)

Lemma leb_zero_not_ltb (a : float) : (a <=? 0)%float = true -> (0 <? a)%float = false.
Proof.
  rewrite leb_spec, ltb_spec.
  destruct (Prim2SF a) as [[]|[]| |[] m e]; cbn; try discriminate; reflexivity.
Qed.

(** The guard of lines 313-314, for every average and character count. *)
Lemma derive_metrics_guard (avg : float) (chars : Z) :
  ((0 <? avg)%float = true ->
     derive_fps avg = (1000 / avg)%float
     /\ derive_chars_per_second chars avg = (double_of_Z chars * 1000 / avg)%float)
  /\ ((avg <=? 0)%float = true ->
     derive_fps avg = 0%float /\ derive_chars_per_second chars avg = 0%float).
Proof.
  unfold derive_fps, derive_chars_per_second. split; intros H.
  - rewrite H. split; reflexivity.
  - rewrite (leb_zero_not_ltb _ H). split; reflexivity.
Qed.

(** [<] on [double] is the lexicographic order of the keys. *)
Lemma SFltb_key (x y : spec_float) :
  SFltb x y = true <->
  exists kx ky, order_key x = Some kx /\ order_key y = Some ky /\ key_lt kx ky.
Proof.
  unfold SFltb.
  destruct x as [[]|[]| |[] mx ex], y as [[]|[]| |[] my ey];
    cbn -[Z.compare Pos.compare_cont];
    try (split; [discriminate|intros (kx & ky & Hx & Hy & H); try discriminate;
                 injection Hx as <-; injection Hy as <-; cbn in H; lia]);
    try (split; [intros _; do 2 eexists; repeat split; cbn; lia|reflexivity]).
  - change (Pos.compare_cont Eq mx my) with (Pos.compare mx my).
    destruct (Z.compare_spec ex ey) as [He|He|He];
      [destruct (Pos.compare_spec mx my) as [Hm|Hm|Hm]| |]; cbn;
      (split; [try discriminate; intros _; do 2 eexists; repeat split; cbn; lia
              |intros (kx & ky & Hx & Hy & H);
               injection Hx as <-; injection Hy as <-; cbn in H; try reflexivity; lia]).
  - change (Pos.compare_cont Eq mx my) with (Pos.compare mx my).
    destruct (Z.compare_spec ex ey) as [He|He|He];
      [destruct (Pos.compare_spec mx my) as [Hm|Hm|Hm]| |]; cbn;
      (split; [try discriminate; intros _; do 2 eexists; repeat split; cbn; lia
              |intros (kx & ky & Hx & Hy & H);
               injection Hx as <-; injection Hy as <-; cbn in H; try reflexivity; lia]).
Qed.

Lemma ltb_float_lt (a b : float) : (a <? b)%float = true <-> float_lt a b.
Proof. rewrite ltb_spec. apply SFltb_key. Qed.

Lemma ltb_trans (a b c : float) :
  (a <? b)%float = true -> (b <? c)%float = true -> (a <? c)%float = true.
Proof.
  rewrite !ltb_float_lt.
  intros (ka & kb & Ha & Hb & Hab) (kb' & kc & Hb' & Hc & Hbc).
  rewrite Hb in Hb'. injection Hb' as <-.
  exists ka, kc. repeat split; try assumption.
  destruct ka as [[a1 a2] a3], kb as [[b1 b2] b3], kc as [[c1 c2] c3].
  cbn in *. lia.
Qed.

(** In a total order, [a < c] and not [a < b] give [b < c]; a NaN is the
    one value that escapes. *)
Lemma ltb_cotrans (a b c : float) :
  (a <? c)%float = true -> (a <? b)%float = false ->
  (b <? c)%float = true \/ unordered b.
Proof.
  intros Hac Hab. unfold unordered.
  destruct (order_key (Prim2SF b)) as [kb|] eqn:Hb; [left|right; reflexivity].
  apply ltb_float_lt in Hac. destruct Hac as (ka & kc & Ha & Hc & Hlt).
  apply ltb_float_lt. exists kb, kc. repeat split; try assumption.
  assert (Hn : ~ key_lt ka kb).
  { intros H. assert (Ht : (a <? b)%float = true).
    { apply ltb_float_lt. exists ka, kb. auto. }
    congruence. }
  destruct ka as [[a1 a2] a3], kb as [[b1 b2] b3], kc as [[c1 c2] c3].
  cbn in *. lia.
Qed.

Lemma unordered_ltb (b x : float) :
  unordered b -> (x <? b)%float = false /\ (b <? x)%float = false.
Proof.
  intros Hb. unfold unordered in Hb.
  split; apply not_true_is_false; rewrite ltb_float_lt;
    intros (k1 & k2 & H1 & H2 & _); congruence.
Qed.

(** ** Minimum and maximum of the collected latencies *)

Lemma fold_std_min_unordered (times : list float) (m0 : float) :
  unordered m0 -> fold_left std_min times m0 = m0.
Proof.
  intros Hm. induction times as [|t ts IH]; [reflexivity|].
  simpl. unfold std_min at 2.
  rewrite (proj1 (unordered_ltb m0 t Hm)). exact IH.
Qed.

Lemma fold_std_max_unordered (times : list float) (m0 : float) :
  unordered m0 -> fold_left std_max times m0 = m0.
Proof.
  intros Hm. induction times as [|t ts IH]; [reflexivity|].
  simpl. unfold std_max at 2.
  rewrite (proj2 (unordered_ltb m0 t Hm)). exact IH.
Qed.

(** The folded minimum is the start value or a sample, and no sample and
    not the start value is below it. *)
Lemma fold_std_min_spec (times : list float) :
  forall m0,
    (fold_left std_min times m0 = m0 \/ In (fold_left std_min times m0) times)
    /\ (m0 <? fold_left std_min times m0)%float = false
    /\ (forall t, In t times -> (t <? fold_left std_min times m0)%float = false).
Proof.
  induction times as [|t ts IH]; intros m0.
  - simpl. repeat split; [left; reflexivity| |intros t []].
    apply not_true_is_false. rewrite ltb_float_lt.
    intros (ka & kb & Ha & Hb & Hlt). rewrite Ha in Hb. injection Hb as <-.
    destruct ka as [[a1 a2] a3]. cbn in Hlt. lia.
  - simpl fold_left. destruct (IH (std_min m0 t)) as (Hin & Hstart & Hall).
    remember (std_min m0 t) as m1 eqn:Hm1. unfold std_min in Hm1.
    destruct (t <? m0)%float eqn:Htm; subst m1.
    + repeat split.
      * right. destruct Hin as [->|Hin]; [left; reflexivity|right; exact Hin].
      * apply not_true_is_false. intros Hc.
        pose proof (ltb_trans _ _ _ Htm Hc). congruence.
      * intros x [<-|Hx]; [exact Hstart|apply Hall, Hx].
    + repeat split.
      * destruct Hin as [->|Hin]; [left; reflexivity|right; right; exact Hin].
      * exact Hstart.
      * intros x [<-|Hx]; [|apply Hall, Hx].
        apply not_true_is_false. intros Hc.
        destruct (ltb_cotrans _ _ _ Hc Htm) as [H|H]; [congruence|].
        rewrite (fold_std_min_unordered ts m0 H) in Hc. congruence.
Qed.

Lemma fold_std_max_spec (times : list float) :
  forall m0,
    (fold_left std_max times m0 = m0 \/ In (fold_left std_max times m0) times)
    /\ (fold_left std_max times m0 <? m0)%float = false
    /\ (forall t, In t times -> (fold_left std_max times m0 <? t)%float = false).
Proof.
  induction times as [|t ts IH]; intros m0.
  - simpl. repeat split; [left; reflexivity| |intros t []].
    apply not_true_is_false. rewrite ltb_float_lt.
    intros (ka & kb & Ha & Hb & Hlt). rewrite Ha in Hb. injection Hb as <-.
    destruct ka as [[a1 a2] a3]. cbn in Hlt. lia.
  - simpl fold_left. destruct (IH (std_max m0 t)) as (Hin & Hstart & Hall).
    remember (std_max m0 t) as m1 eqn:Hm1. unfold std_max in Hm1.
    destruct (m0 <? t)%float eqn:Htm; subst m1.
    + repeat split.
      * right. destruct Hin as [->|Hin]; [left; reflexivity|right; exact Hin].
      * apply not_true_is_false. intros Hc.
        pose proof (ltb_trans _ _ _ Hc Htm). congruence.
      * intros x [<-|Hx]; [exact Hstart|apply Hall, Hx].
    + repeat split.
      * destruct Hin as [->|Hin]; [left; reflexivity|right; right; exact Hin].
      * exact Hstart.
      * intros x [<-|Hx]; [|apply Hall, Hx].
        apply not_true_is_false. intros Hc.
        destruct (ltb_cotrans _ _ _ Hc Hstart) as [H|H]; [congruence|].
        rewrite (fold_std_max_unordered ts m0 H) in Hc. congruence.
Qed.

(** ** The repetition loop *)

Lemma repetition_loop_frame (w : World) (image_path : string) (remaining : nat) :
  forall run st loc st1 res,
    repetition_loop w image_path remaining run st loc = (st1, res) ->
    same_but_predict_calls st st1.
Proof.
  induction remaining as [|n IH]; intros run st loc st1 res H; simpl in H.
  - inversion H; subst. repeat split.
  - destruct (Predict w (predict_calls st) image_path) as [ns outs|what].
    + apply IH in H. exact H.
    + inversion H; subst. repeat split.
Qed.

(** The loop ends normally exactly when three consecutive calls of
    [Predict] return; its locals are then the three samples, the outputs of
    the first call and the characters counted in them. *)
Lemma repetition_loop_completes (w : World) (image_path : string) (st st1 : State)
    (loc : RunLocals) :
  repetition_loop w image_path 3 0 st initial_locals = (st1, inl loc) <->
  exists ns0 o0 ns1 o1 ns2 o2,
    Predict w (predict_calls st) image_path = PredictReturns ns0 o0
    /\ Predict w (S (predict_calls st)) image_path = PredictReturns ns1 o1
    /\ Predict w (S (S (predict_calls st))) image_path = PredictReturns ns2 o2
    /\ st1 = tick_predict (tick_predict (tick_predict st))
    /\ loc = mkLocals
               [inference_ms_of_ns ns0; inference_ms_of_ns ns1; inference_ms_of_ns ns2]
               o0 (count_outputs o0 0).
Proof.
  split.
  - cbn. destruct (Predict w (predict_calls st) image_path) as [ns0 o0|] eqn:E0;
      [|discriminate].
    cbn. destruct (Predict w (S (predict_calls st)) image_path) as [ns1 o1|] eqn:E1;
      [|discriminate].
    cbn. destruct (Predict w (S (S (predict_calls st))) image_path) as [ns2 o2|] eqn:E2;
      [|discriminate].
    cbn. intros H. inversion H; subst.
    exists ns0, o0, ns1, o1, ns2, o2. repeat split; reflexivity.
  - intros (ns0 & o0 & ns1 & o1 & ns2 & o2 & E0 & E1 & E2 & -> & ->).
    cbn. rewrite E0. cbn. rewrite E1. cbn. rewrite E2. reflexivity.
Qed.

(** The mean of three samples, as the code computes it. *)
Lemma average_ms_three (t0 t1 t2 : float) :
  average_ms [t0; t1; t2] = ((0 + t0 + t1 + t2) / 3)%float.
Proof. reflexivity. Qed.

(** ** The [try] block, branch by branch *)

(** An exception in the repetition loop leaves the block at once. *)
Lemma try_block_predict_throws (w : World) (image_path : string) (st st1 : State)
    (what : string) :
  repetition_loop w image_path 3 0 st initial_locals = (st1, inr what) ->
  try_block w image_path st = Threw st1 what.
Proof. intros H. unfold try_block. rewrite H. reflexivity. Qed.

(** A null pointer among the outputs of the first run: the process ends
    where line 327 dereferences it, after the latency has been collected
    and before the scorer is called. *)
Lemma try_block_null_output (w : World) (image_path : string) (st st1 : State)
    (loc : RunLocals) :
  repetition_loop w image_path 3 0 st initial_locals = (st1, inl loc) ->
  save_outputs (final_outputs loc) = false ->
  try_block w image_path st = Crashed (after_runs loc st1).
Proof.
  intros H1 Hs. unfold try_block. rewrite H1. cbv zeta. rewrite Hs. reflexivity.
Qed.

(** [ExecuteCommand] returns false: the record with the literal accuracy
    is written and the block is left through [continue]. *)
Lemma try_block_scorer_failed (w : World) (image_path : string) (st st1 st3 : State)
    (loc : RunLocals) (result_str : string) :
  repetition_loop w image_path 3 0 st initial_locals = (st1, inl loc) ->
  save_outputs (final_outputs loc) = true ->
  ExecuteCommand w (command_of w image_path) (after_runs loc st1)
    = (st3, false, result_str) ->
  try_block w image_path st =
    Continued
      (write_cout (PER_IMAGE_RESULT (image_record loc image_path AccLiteralZero))
         (write_cerr (ErrAccuracyExecFailed (basename image_path) result_str) st3)).
Proof.
  intros H1 Hs H2. unfold try_block. rewrite H1.
  unfold command_of, after_runs in H2. cbv zeta. rewrite Hs. cbn [negb]. rewrite H2. reflexivity.
Qed.

(** [ExecuteCommand] returns true and the marker is absent: an error is
    logged, nothing is written to [std::cout], the image counts as a success. *)
Lemma try_block_no_marker (w : World) (image_path : string) (st st1 st3 : State)
    (loc : RunLocals) (result_str : string) :
  repetition_loop w image_path 3 0 st initial_locals = (st1, inl loc) ->
  save_outputs (final_outputs loc) = true ->
  ExecuteCommand w (command_of w image_path) (after_runs loc st1)
    = (st3, true, result_str) ->
  Str.find single_acc_prefix result_str 0 = None ->
  try_block w image_path st =
    Completed
      (incr_successful
         (write_cerr (ErrNoSingleAccPrefix (basename image_path) result_str) st3)).
Proof.
  intros H1 Hs H2 H3. unfold try_block. rewrite H1.
  unfold command_of, after_runs in H2. cbv zeta. rewrite Hs. cbn [negb]. rewrite H2, H3. reflexivity.
Qed.

(** The marker is present and the accuracy parses. *)
Lemma try_block_scored (w : World) (image_path : string) (st st1 st3 : State)
    (loc : RunLocals) (result_str : string) (json_start : nat) (acc : float) :
  repetition_loop w image_path 3 0 st initial_locals = (st1, inl loc) ->
  save_outputs (final_outputs loc) = true ->
  ExecuteCommand w (command_of w image_path) (after_runs loc st1)
    = (st3, true, result_str) ->
  Str.find single_acc_prefix result_str 0 = Some json_start ->
  parse_accuracy w
    (Str.substr_from result_str (json_start + String.length single_acc_prefix))
    = Some acc ->
  try_block w image_path st =
    Completed
      (incr_successful
         (write_cout (PER_IMAGE_RESULT (image_record loc image_path (AccFixed4 acc)))
            st3)).
Proof.
  intros H1 Hs H2 H3 H4. unfold try_block. rewrite H1.
  unfold command_of, after_runs in H2. cbv zeta. rewrite Hs. cbn [negb]. rewrite H2, H3, H4. reflexivity.
Qed.

(** The marker is present and [std::stod] throws. *)
Lemma try_block_stod_throws (w : World) (image_path : string) (st st1 st3 : State)
    (loc : RunLocals) (result_str : string) (json_start : nat) :
  repetition_loop w image_path 3 0 st initial_locals = (st1, inl loc) ->
  save_outputs (final_outputs loc) = true ->
  ExecuteCommand w (command_of w image_path) (after_runs loc st1)
    = (st3, true, result_str) ->
  Str.find single_acc_prefix result_str 0 = Some json_start ->
  parse_accuracy w
    (Str.substr_from result_str (json_start + String.length single_acc_prefix))
    = None ->
  try_block w image_path st = Threw st3 "stod".
Proof.
  intros H1 Hs H2 H3 H4. unfold try_block. rewrite H1.
  unfold command_of, after_runs in H2. cbv zeta. rewrite Hs. cbn [negb]. rewrite H2, H3, H4. reflexivity.
Qed.

(** [ExecuteCommand] advances the [popen] counter and may log that [popen]
    failed; it keeps everything else. *)
Lemma ExecuteCommand_frame (w : World) (command : string) (st st3 : State) (ok : bool)
    (result_str : string) :
  ExecuteCommand w command st = (st3, ok, result_str) ->
  predict_calls st3 = predict_calls st
  /\ popen_calls st3 = S (popen_calls st)
  /\ inference_times st3 = inference_times st
  /\ successful_count st3 = successful_count st
  /\ failed_count st3 = failed_count st
  /\ cout st3 = cout st
  /\ (cerr st3 = cerr st \/ cerr st3 = (cerr st ++ [ErrPopenFailed])%list).
Proof.
  unfold ExecuteCommand.
  destruct (popen w (popen_calls st) command); intros H; inversion H; subst; cbn;
    repeat split; auto.
Qed.

(** Every run of the [try] block takes one of the six branches. *)
Lemma try_block_outcome (w : World) (image_path : string) (st : State) :
  try_outcome w image_path st (try_block w image_path st).
Proof.
  destruct (repetition_loop w image_path 3 0 st initial_locals) as [st1 [loc|what]] eqn:E1.
  - destruct (save_outputs (final_outputs loc)) eqn:Es.
    + destruct (ExecuteCommand w (command_of w image_path) (after_runs loc st1))
        as [[st3 [|]] result_str] eqn:E2.
      * destruct (Str.find single_acc_prefix result_str 0) as [json_start|] eqn:E3.
        -- destruct (parse_accuracy w
                       (Str.substr_from result_str
                          (json_start + String.length single_acc_prefix)))
             as [acc|] eqn:E4.
           ++ rewrite (try_block_scored _ _ _ _ _ _ _ _ _ E1 Es E2 E3 E4).
              eapply outcome_scored; eassumption.
           ++ rewrite (try_block_stod_throws _ _ _ _ _ _ _ _ E1 Es E2 E3 E4).
              eapply outcome_stod_throws; eassumption.
        -- rewrite (try_block_no_marker _ _ _ _ _ _ _ E1 Es E2 E3).
           eapply outcome_no_marker; eassumption.
      * rewrite (try_block_scorer_failed _ _ _ _ _ _ _ E1 Es E2).
        eapply outcome_scorer_failed; eassumption.
    + rewrite (try_block_null_output _ _ _ _ _ E1 Es).
      eapply outcome_null_output; eassumption.
  - rewrite (try_block_predict_throws _ _ _ _ _ E1).
    apply outcome_predict_throws; assumption.
Qed.

(** ** The body of the batch loop *)

Lemma records_app (l1 l2 : list cout_line) :
  records (l1 ++ l2) = (records l1 ++ records l2)%list.
Proof.
  induction l1 as [|[r|a b c d] l1 IH]; simpl; [reflexivity| |exact IH].
  rewrite IH. reflexivity.
Qed.

(** The progress line changes [std::cout] only, and adds no record. *)
Lemma progress_update_frame (i size : nat) (st : State) :
  predict_calls (progress_update i size st) = predict_calls st
  /\ popen_calls (progress_update i size st) = popen_calls st
  /\ inference_times (progress_update i size st) = inference_times st
  /\ successful_count (progress_update i size st) = successful_count st
  /\ failed_count (progress_update i size st) = failed_count st
  /\ records (cout (progress_update i size st)) = records (cout st)
  /\ cerr (progress_update i size st) = cerr st.
Proof.
  unfold progress_update.
  destruct (((S i) mod 10 =? 0)%nat || (S i =? size)%nat); cbn -[Nat.modulo];
    repeat split; try reflexivity.
  rewrite records_app. cbn. apply app_nil_r.
Qed.

Ltac progress_frame i size st :=
  let H := fresh "Hp" in
  pose proof (progress_update_frame i size st) as H;
  destruct H as (? & ? & ? & ? & ? & ? & ?).

Ltac frames :=
  repeat match goal with
    | H : repetition_loop _ _ _ _ _ _ = (_, _) |- _ =>
        apply repetition_loop_frame in H; destruct H as (? & ? & ? & ? & ? & ?)
    | H : ExecuteCommand _ _ _ = (_, _, _) |- _ =>
        apply ExecuteCommand_frame in H; destruct H as (? & ? & ? & ? & ? & ? & ?)
    end.

(** The failure counter moves exactly in the iterations that the handler ends. *)
Lemma loop_body_failed_count (w : World) (size i : nat) (image_path : string)
    (st : State) :
  failed_count (loop_body w size i image_path st)
  = (failed_count st + (if raised w (image_path, st) then 1 else 0))%Z.
Proof.
  unfold loop_body, raised. cbn [fst snd].
  destruct (try_block_outcome w image_path st);
    try (match goal with |- context [progress_update ?i ?n ?s] => progress_frame i n s end);
    frames; unfold after_runs in *; cbn in *; lia.
Qed.

(** The list of latencies grows exactly in the iterations whose three
    runs returned, by their average. *)
Lemma loop_body_inference_times (w : World) (size i : nat) (image_path : string)
    (st : State) :
  inference_times (loop_body w size i image_path st)
  = (inference_times st ++ completed_latency w (image_path, st))%list.
Proof.
  unfold loop_body, completed_latency. cbn [fst snd].
  destruct (try_block_outcome w image_path st) as
    [st1 what E1|st1 loc E1 Es|st1 st3 loc res E1 Es E2|st1 st3 loc res E1 Es E2 E3
    |st1 st3 loc res j acc E1 Es E2 E3 E4|st1 st3 loc res j E1 Es E2 E3 E4];
    rewrite E1;
    try (match goal with |- context [progress_update ?i ?n ?s] => progress_frame i n s end);
    frames; unfold after_runs in *; cbn in *;
    repeat match goal with H : inference_times _ = _ |- _ => rewrite H; clear H end;
    cbn; rewrite ?app_nil_r; reflexivity.
Qed.

(** What an iteration adds to the records on [std::cout]: nothing, or the
    record of its image, whose derived fields follow lines 313-314. *)
Lemma loop_body_records (w : World) (size i : nat) (image_path : string) (st : State) :
  records (cout (loop_body w size i image_path st)) = records (cout st)
  \/ exists loc acc st1,
      repetition_loop w image_path 3 0 st initial_locals = (st1, inl loc)
      /\ records (cout (loop_body w size i image_path st))
         = (records (cout st) ++ [image_record loc image_path acc])%list.
Proof.
  unfold loop_body.
  destruct (try_block_outcome w image_path st) as
    [st1 what E1|st1 loc E1 Es|st1 st3 loc res E1 Es E2|st1 st3 loc res E1 Es E2 E3
    |st1 st3 loc res j acc E1 Es E2 E3 E4|st1 st3 loc res j E1 Es E2 E3 E4];
    try (match goal with |- context [progress_update ?i ?n ?s] => progress_frame i n s end);
    pose proof E1 as E1'; revert E1'; frames; intros E1'; unfold after_runs in *;
    cbn in *.
  - left. congruence.
  - left. congruence.
  - right. exists loc, AccLiteralZero, st1. split; [assumption|].
    rewrite records_app. cbn. congruence.
  - left. congruence.
  - right. exists loc, (AccFixed4 acc), st1. split; [assumption|].
    match goal with H : records _ = _ |- _ => rewrite H end.
    cbn. rewrite records_app. cbn. congruence.
  - left. congruence.
Qed.

(** ** The batch loop *)

Lemma subseq_nil_l {A : Type} (l : list A) : subseq [] l.
Proof. induction l; constructor; assumption. Qed.

(** One step of the loop, by whether the process ends in it. *)
Lemma batch_loop_cons (w : World) (size i : nat) (p : string) (rest : list string)
    (st : State) :
  batch_loop w size i (p :: rest) st
  = (if crashes w (p, st) then loop_body w size i p st
     else batch_loop w size (S i) rest (loop_body w size i p st))
  /\ iterations w size i (p :: rest) st
     = (p, st) :: (if crashes w (p, st) then []
                   else iterations w size (S i) rest (loop_body w size i p st))
  /\ batch_killed w size i (p :: rest) st
     = crashes w (p, st) || batch_killed w size (S i) rest (loop_body w size i p st).
Proof. repeat split; reflexivity. Qed.

(** The four ways out of the [try] block exclude one another. *)
Lemma crashes_not_raised (w : World) (it : string * State) :
  crashes w it = true -> raised w it = false /\ continued w it = false.
Proof.
  unfold crashes, raised, continued.
  destruct (try_block w (fst it) (snd it)); intros H; try discriminate; auto.
Qed.

(** The process ends inside the loop exactly when one of the iterations it
    starts is one in which it ends; that iteration is then the last. *)
Lemma batch_killed_spec (w : World) (size : nat) (paths : list string) :
  forall i st,
    batch_killed w size i paths st
    = existsb (crashes w) (iterations w size i paths st).
Proof.
  induction paths as [|p rest IH]; intros i st; [reflexivity|].
  destruct (batch_loop_cons w size i p rest st) as (_ & -> & ->).
  cbn [existsb]. destruct (crashes w (p, st)); [reflexivity|].
  cbn [orb]. apply IH.
Qed.

Lemma batch_killed_count (w : World) (size : nat) (paths : list string) :
  forall i st,
    List.length (filter (crashes w) (iterations w size i paths st))
    = if batch_killed w size i paths st then 1%nat else 0%nat.
Proof.
  induction paths as [|p rest IH]; intros i st; [reflexivity|].
  destruct (batch_loop_cons w size i p rest st) as (_ & -> & ->).
  cbn [filter]. destruct (crashes w (p, st)); [reflexivity|].
  cbn [orb]. apply IH.
Qed.

Lemma batch_loop_failed_count (w : World) (size : nat) (paths : list string) :
  forall i st,
    failed_count (batch_loop w size i paths st)
    = (failed_count st
       + Z.of_nat (List.length (filter (raised w) (iterations w size i paths st))))%Z.
Proof.
  induction paths as [|p rest IH]; intros i st.
  - simpl. lia.
  - destruct (batch_loop_cons w size i p rest st) as (-> & -> & _).
    pose proof (loop_body_failed_count w size i p st) as Hb.
    cbn [filter]. destruct (crashes w (p, st)) eqn:Ec.
    + destruct (crashes_not_raised _ _ Ec) as [Hr _]. rewrite Hr in *.
      simpl. lia.
    + rewrite IH, Hb. destruct (raised w (p, st)); simpl List.length; lia.
Qed.

Lemma batch_loop_inference_times (w : World) (size : nat) (paths : list string) :
  forall i st,
    inference_times (batch_loop w size i paths st)
    = (inference_times st
       ++ flat_map (completed_latency w) (iterations w size i paths st))%list.
Proof.
  induction paths as [|p rest IH]; intros i st.
  - simpl. symmetry. apply app_nil_r.
  - destruct (batch_loop_cons w size i p rest st) as (-> & -> & _).
    cbn [flat_map]. destruct (crashes w (p, st)).
    + rewrite loop_body_inference_times. cbn [flat_map]. rewrite app_nil_r. reflexivity.
    + rewrite IH, loop_body_inference_times, <- app_assoc. reflexivity.
Qed.

(** The records are written in the order of the images: the batch adds, to
    the records already written, records of some of its images in their
    order, each filled from the locals of its own repetition loop. *)
Lemma batch_loop_records (w : World) (size : nat) (paths : list string) :
  forall i st,
  exists added : list PerImageRecord,
    records (cout (batch_loop w size i paths st)) = (records (cout st) ++ added)%list
    /\ subseq (map filename added) (map basename paths)
    /\ Forall (fun r => exists image_path loc acc,
                 In image_path paths /\ r = image_record loc image_path acc) added.
Proof.
  induction paths as [|p rest IH]; intros i st.
  - exists []. simpl. rewrite app_nil_r. repeat split; constructor.
  - destruct (batch_loop_cons w size i p rest st) as (-> & _ & _).
    destruct (crashes w (p, st)) eqn:Ec.
    + exists []. rewrite app_nil_r. split; [|split; [|constructor]].
      * unfold crashes in Ec. unfold loop_body. cbn [fst snd] in Ec.
        destruct (try_block_outcome w p st); try discriminate.
        unfold after_runs. cbn.
        match goal with H : repetition_loop _ _ _ _ _ _ = _ |- _ =>
          apply repetition_loop_frame in H; destruct H as (_ & _ & _ & _ & H & _) end.
        congruence.
      * apply subseq_nil_l.
    + destruct (IH (S i) (loop_body w size i p st)) as (added & Hrec & Hsub & Hall).
      assert (Hall' : Forall (fun r => exists image_path loc acc,
                       In image_path (p :: rest)
                       /\ r = image_record loc image_path acc) added).
      { eapply Forall_impl; [|exact Hall].
        intros r (q & loc & acc & Hin & ->). exists q, loc, acc. split; [right|]; auto. }
      destruct (loop_body_records w size i p st) as [Hsame|(loc & acc & st1 & _ & Hnew)].
      * exists added. rewrite Hrec, Hsame.
        split; [reflexivity|split; [apply subseq_skip|]; assumption].
      * exists (image_record loc p acc :: added).
        rewrite Hrec, Hnew, <- app_assoc.
        split; [reflexivity|split].
        -- simpl. apply subseq_keep. assumption.
        -- constructor; [|assumption]. exists p, loc, acc. split; [left|]; auto.
Qed.

(** Every iteration moves one counter, leaves through [continue], or is
    the one in which the process ends. *)
Lemma loop_body_counts (w : World) (size i : nat) (image_path : string) (st : State) :
  (successful_count (loop_body w size i image_path st)
   + failed_count (loop_body w size i image_path st)
   + (if continued w (image_path, st) then 1 else 0)
   + (if crashes w (image_path, st) then 1 else 0)
   = successful_count st + failed_count st + 1)%Z.
Proof.
  unfold loop_body, continued, crashes. cbn [fst snd].
  destruct (try_block_outcome w image_path st);
    try (match goal with |- context [progress_update ?i ?n ?s] => progress_frame i n s end);
    frames; unfold after_runs in *; cbn in *; lia.
Qed.

Lemma batch_loop_counts (w : World) (size : nat) (paths : list string) :
  forall i st,
    (successful_count (batch_loop w size i paths st)
     + failed_count (batch_loop w size i paths st)
     + Z.of_nat (List.length (filter (continued w) (iterations w size i paths st)))
     + Z.of_nat (List.length (filter (crashes w) (iterations w size i paths st)))
     = successful_count st + failed_count st
       + Z.of_nat (List.length (iterations w size i paths st)))%Z.
Proof.
  induction paths as [|p rest IH]; intros i st.
  - simpl. lia.
  - destruct (batch_loop_cons w size i p rest st) as (-> & -> & _).
    pose proof (IH (S i) (loop_body w size i p st)) as H1.
    pose proof (loop_body_counts w size i p st) as H2.
    cbn [filter]. destruct (crashes w (p, st)) eqn:Ec.
    + destruct (crashes_not_raised _ _ Ec) as [_ Hc]. rewrite Hc in *.
      simpl List.length. lia.
    + destruct (continued w (p, st)); simpl List.length; lia.
Qed.

(** The process starts at most one iteration for each image, and one for
    each when it does not end inside the loop. *)
Lemma iterations_length (w : World) (size : nat) (paths : list string) :
  forall i st,
    (List.length (iterations w size i paths st) <= List.length paths)%nat
    /\ (batch_killed w size i paths st = false ->
        List.length (iterations w size i paths st) = List.length paths).
Proof.
  induction paths as [|p rest IH]; intros i st; [split; reflexivity|].
  destruct (batch_loop_cons w size i p rest st) as (_ & -> & ->).
  destruct (IH (S i) (loop_body w size i p st)) as [Hle Heq].
  destruct (crashes w (p, st)); cbn [orb List.length].
  - split; [lia|discriminate].
  - split; [lia|]. intros H. rewrite (Heq H). reflexivity.
Qed.

(** ** [main] *)

(** A run that reaches the batch: its exit code, summary and final state
    are those of the batch loop over the discovered images. *)
Lemma main_batch (w : World) (argv0 arg1 : string) (more : list string) (p : string)
    (ps : list string) (warnings : list diag) :
  collectImagePaths (stat w) (arg1 :: more) = (p :: ps, warnings) ->
  PaddleOCR_throws w = None ->
  let st := batch_loop w (S (List.length ps)) 0 (p :: ps) (initial_state warnings) in
  let killed := batch_killed w (S (List.length ps)) 0 (p :: ps) (initial_state warnings) in
  let run := main w (argv0 :: arg1 :: more) in
  exit_code run
  = (if killed then None else Some (if (failed_count st >? 0)%Z then 1 else 0)%Z)
  /\ summary run = (if killed then None else summarize (S (List.length ps)) st)
  /\ cout (final run) = cout st
  /\ inference_times (final run) = inference_times st
  /\ successful_count (final run) = successful_count st
  /\ failed_count (final run) = failed_count st
  /\ main_iterations w (argv0 :: arg1 :: more)
     = iterations w (S (List.length ps)) 0 (p :: ps) (initial_state warnings).
Proof.
  intros H Heng. unfold main, main_iterations. rewrite H, Heng. cbv zeta.
  cbn [List.length].
  destruct (batch_killed w (S (List.length ps)) 0 (p :: ps) (initial_state warnings)).
  - cbn. repeat split; reflexivity.
  - destruct (summarize (S (List.length ps))
                (batch_loop w (S (List.length ps)) 0 (p :: ps) (initial_state warnings)));
      cbn; repeat split; reflexivity.
Qed.

(** A run that starts no iteration. *)
Lemma main_no_batch (w : World) (argv : list string) :
  no_batch w argv ->
  ((exit_code (main w argv) = Some 1%Z
    /\ ((List.length argv < 2)%nat \/ fst (collectImagePaths (stat w) (tl argv)) = []))
   \/ (exit_code (main w argv) = None
       /\ (2 <= List.length argv)%nat
       /\ fst (collectImagePaths (stat w) (tl argv)) <> []
       /\ PaddleOCR_throws w <> None))
  /\ summary (main w argv) = None
  /\ cout (final (main w argv)) = []
  /\ inference_times (final (main w argv)) = []
  /\ successful_count (final (main w argv)) = 0%Z
  /\ failed_count (final (main w argv)) = 0%Z
  /\ main_iterations w argv = [].
Proof.
  intros H. unfold no_batch in H. unfold main, main_iterations.
  destruct argv as [|argv0 [|arg1 more]];
    [cbn; split; [left; split; [reflexivity|left; lia]|repeat split; reflexivity]..|].
  cbn [tl] in *.
  destruct (collectImagePaths (stat w) (arg1 :: more)) as [[|q qs] warnings] eqn:E.
  - cbn. split; [left; split; [reflexivity|right; reflexivity]|].
    repeat split; try reflexivity. destruct (PaddleOCR_throws w); reflexivity.
  - destruct H as [H|[H|H]]; [simpl in H; lia|discriminate H|].
    destruct (PaddleOCR_throws w) as [what|]; [|contradiction].
    cbn. split; [|repeat split; reflexivity].
    right. repeat split; [lia|discriminate|discriminate].
Qed.

(** Every run is of one of the two kinds. *)
Lemma main_kinds (w : World) (argv : list string) :
  no_batch w argv
  \/ exists argv0 arg1 more p ps warnings,
       argv = argv0 :: arg1 :: more
       /\ collectImagePaths (stat w) (arg1 :: more) = (p :: ps, warnings)
       /\ PaddleOCR_throws w = None.
Proof.
  unfold no_batch.
  destruct argv as [|argv0 [|arg1 more]]; [left; left; simpl; lia..|].
  destruct (collectImagePaths (stat w) (arg1 :: more)) as [[|p ps] warnings] eqn:E.
  - left. right. left. cbn [tl]. rewrite E. reflexivity.
  - destruct (PaddleOCR_throws w) as [what|] eqn:Eng.
    + left. right. right. discriminate.
    + right. exists argv0, arg1, more, p, ps, warnings. auto.
Qed.

(** What every run satisfies: each iteration that the process starts moves
    one counter, leaves through [continue], or is the one in which the
    process ends; the latencies are those of the iterations whose runs
    returned; the failures are the iterations that the handler ended.  A
    run that returns from [main] started one iteration for each discovered
    image and ended in none. *)
Lemma main_accounting (w : World) (argv : list string) :
  let run := main w argv in
  let its := main_iterations w argv in
  (successful_count (final run) + failed_count (final run)
   + Z.of_nat (List.length (filter (continued w) its))
   + Z.of_nat (List.length (filter (crashes w) its))
   = Z.of_nat (List.length its))%Z
  /\ inference_times (final run) = flat_map (completed_latency w) its
  /\ (forall code : Z,
        exit_code run = Some code ->
        List.length its = List.length (fst (collectImagePaths (stat w) (tl argv)))
        /\ List.length (filter (crashes w) its) = 0%nat)
  /\ (List.length its <= List.length (fst (collectImagePaths (stat w) (tl argv))))%nat
  /\ (List.length (filter (crashes w) its) <= 1)%nat
  /\ (exit_code run = None ->
      (List.length (filter (crashes w) its) = 1%nat /\ PaddleOCR_throws w = None)
      \/ (its = [] /\ PaddleOCR_throws w <> None))
  /\ failed_count (final run) = Z.of_nat (List.length (filter (raised w) its)).
Proof.
  cbv zeta.
  destruct (main_kinds w argv) as [H|(argv0 & arg1 & more & p & ps & ws & -> & E & Eng)].
  - destruct (main_no_batch w argv H) as (He & _ & _ & Ht & Hs & Hf & Hi).
    rewrite Ht, Hs, Hf, Hi. cbn.
    repeat split; try reflexivity; try lia.
    + destruct He as [(He & [Hl|Hn])|(He & _)]; [| |congruence].
      * destruct argv as [|a0 [|a1 m]]; [reflexivity|reflexivity|simpl in Hl; lia].
      * rewrite Hn. reflexivity.
    + intros Hnone. right. split; [reflexivity|].
      destruct He as [(He & _)|(_ & _ & _ & Hthrows)]; [congruence|exact Hthrows].
  - destruct (main_batch w argv0 arg1 more p ps ws E Eng)
      as (He & _ & _ & Ht & Hs & Hf & Hi).
    rewrite Ht, Hs, Hf, Hi. cbn [tl]. rewrite E. cbn [fst].
    pose proof (batch_loop_counts w (S (List.length ps)) (p :: ps) 0 (initial_state ws))
      as Hc.
    pose proof (batch_killed_count w (S (List.length ps)) (p :: ps) 0 (initial_state ws))
      as Hk.
    destruct (iterations_length w (S (List.length ps)) (p :: ps) 0 (initial_state ws))
      as [Hle Heq].
    split; [cbn in Hc |- *; lia|].
    split; [apply batch_loop_inference_times|].
    split; [|split; [exact Hle|split; [|split]]].
    + intros code Hcode. rewrite He in Hcode.
      destruct (batch_killed w (S (List.length ps)) 0 (p :: ps) (initial_state ws));
        [discriminate|].
      split; [apply Heq; reflexivity|exact Hk].
    + rewrite Hk.
      destruct (batch_killed w (S (List.length ps)) 0 (p :: ps) (initial_state ws)); lia.
    + intros Hnone. left. rewrite He in Hnone. split; [|exact Eng].
      destruct (batch_killed w (S (List.length ps)) 0 (p :: ps) (initial_state ws));
        [exact Hk|discriminate].
    + rewrite batch_loop_failed_count. cbn. lia.
Qed.

(** The loop of lines 325-332 ends exactly when no output is a null
    pointer. *)
Lemma save_outputs_spec (final_outputs : list cv_result) :
  Forall (fun output => output <> None) final_outputs
  <-> save_outputs final_outputs = true.
Proof.
  induction final_outputs as [|[json|] rest IH]; simpl.
  - split; [reflexivity|constructor].
  - rewrite <- IH. split.
    + intros H. inversion H; assumption.
    + intros H. constructor; [discriminate|exact H].
  - split; [|discriminate]. intros H. inversion H; subst. congruence.
Qed.

(** ** Scoring failures (claims C1 and C9) *)

(** C1.  The specification says that an image whose runs succeed and whose
    scorer output lacks the SINGLE_ACC marker still gets a PER_IMAGE_RESULT
    record with accuracy 0.0.  The code does so only when [ExecuteCommand]
    returns false (lemma [try_block_scorer_failed]); when the scorer exits
    with status 0 and prints no marker, lines 394-397 log an error and write
    no record.  Here the run over a.png: three runs of 500 ms, 7 characters,
    and the scorer's output has no marker.  No record is written, although
    the latency was collected and the image is counted as a success. *)
Theorem C1_missing_marker_writes_no_record :
  let run := main world_no_marker ["Benchmark"; "a.png"] in
  Str.find single_acc_prefix "labels.json: no entry for this image" 0 = None
  /\ records (cout (final run)) = []
  /\ ~ In (mkRecord "a.png" 500 2 14 7 AccLiteralZero) (records (cout (final run)))
  /\ inference_times (final run) = [500%float]
  /\ cerr (final run)
     = [ErrNoSingleAccPrefix "a.png" "labels.json: no entry for this image"]
  /\ successful_count (final run) = 1%Z
  /\ failed_count (final run) = 0%Z
  /\ exit_code run = Some 0%Z.
Proof.
  cbv zeta. vm_compute. repeat split; try reflexivity. intros H; exact H.
Qed.

(** C9.  When the outputs of the first run hold no null pointer and
    [ExecuteCommand] returns false, the iteration writes the record and
    leaves through [continue]: neither counter moves, no progress line is
    written, and the average latency has been appended.  Hence, in every
    run, each iteration that the process starts moves one of the two
    counters, or is such an iteration, or is the one in which the process
    ends; the latencies collected are those of the iterations whose three
    runs returned; and in a run that returns from [main] the two counters
    and the number of iterations left through [continue] add up to the
    number of discovered images.  There is a run of three images where the
    counters add up to two, the success rate is 200/3 per cent and the batch
    throughput divides 2 * 1000 by the sum of three latencies. *)
Theorem C9_continue_skips_both_counters :
  (forall (w : World) (size i : nat) (image_path : string) (st st1 st3 : State)
          (loc : RunLocals) (result_str : string),
      repetition_loop w image_path 3 0 st initial_locals = (st1, inl loc) ->
      Forall (fun output => output <> None) (final_outputs loc) ->
      ExecuteCommand w (command_of w image_path) (after_runs loc st1)
        = (st3, false, result_str) ->
      let st' := loop_body w size i image_path st in
      successful_count st' = successful_count st
      /\ failed_count st' = failed_count st
      /\ inference_times st'
         = (inference_times st ++ [average_ms (run_times loc)])%list
      /\ cout st'
         = (cout st ++ [PER_IMAGE_RESULT (image_record loc image_path AccLiteralZero)])%list)
  /\ (forall (w : World) (argv : list string),
        let run := main w argv in
        let its := main_iterations w argv in
        (successful_count (final run) + failed_count (final run)
         + Z.of_nat (List.length (filter (continued w) its))
         + Z.of_nat (List.length (filter (crashes w) its))
         = Z.of_nat (List.length its))%Z
        /\ inference_times (final run) = flat_map (completed_latency w) its
        /\ (forall code : Z,
              exit_code run = Some code ->
              (successful_count (final run) + failed_count (final run)
               + Z.of_nat (List.length (filter (continued w) its))
               = Z.of_nat (List.length (main_images w argv)))%Z))
  /\ (let run := main world_scorer_exit1 ["Benchmark"; "a.png"; "b.png"; "c.png"] in
      List.length (main_images world_scorer_exit1
                     ["Benchmark"; "a.png"; "b.png"; "c.png"]) = 3%nat
      /\ exit_code run = Some 0%Z
      /\ successful_count (final run) = 2%Z
      /\ failed_count (final run) = 0%Z
      /\ inference_times (final run) = [500; 500; 500]%float
      /\ option_map total_inference_time (summary run) = Some 1500%float
      /\ option_map success_rate (summary run) = Some (100 * 2 / 3)%float
      /\ option_map total_fps (summary run) = Some (2 * 1000 / 1500)%float).
Proof.
  split; [|split].
  - intros w size i image_path st st1 st3 loc result_str E1 Hs E2 st'.
    apply save_outputs_spec in Hs.
    subst st'. unfold loop_body.
    rewrite (try_block_scorer_failed _ _ _ _ _ _ _ E1 Hs E2).
    frames. unfold after_runs in *. cbn in *.
    repeat split; congruence.
  - intros w argv run its. subst run its.
    destruct (main_accounting w argv) as (Hcount & Htimes & Hexit & _).
    split; [exact Hcount|split; [exact Htimes|]].
    intros code Hcode. destruct (Hexit code Hcode) as (Hlen & Hcr).
    unfold main_images. rewrite Hcr in Hcount. rewrite <- Hlen. lia.
  - vm_compute. repeat split; reflexivity.
Qed.

Lemma C9_continue_skips_both_counters_witness :
  let st := loop_body world_scorer_exit1 3 0 "a.png" (initial_state []) in
  let st' := loop_body world_scorer_exit1 3 1 "b.png" st in
  successful_count st' = successful_count st
  /\ failed_count st' = failed_count st
  /\ inference_times st' = (inference_times st ++ [500%float])%list.
Proof.
  cbv zeta.
  destruct (proj1 C9_continue_skips_both_counters world_scorer_exit1 3%nat 1%nat "b.png"
              (loop_body world_scorer_exit1 3 0 "a.png" (initial_state []))
              (mkState 6 1 [500%float] 1 0
                 (cout (loop_body world_scorer_exit1 3 0 "a.png" (initial_state []))) [])
              (mkState 6 2 [500%float; 500%float] 1 0
                 (cout (loop_body world_scorer_exit1 3 0 "a.png" (initial_state []))) [])
              (mkLocals [500%float; 500%float; 500%float] [Some (render sample_printed)] 7)
              "FileNotFoundError")
    as (H1 & H2 & H3 & _).
  - vm_compute. reflexivity.
  - cbn [final_outputs]. constructor; [discriminate|constructor].
  - vm_compute. reflexivity.
  - split; [exact H1|split; [exact H2|exact H3]].
Defined.

(** ** The timed runs of one image (claim C2) *)

(** C2.  For an image that is processed without an exception (the [try]
    block ends normally or through [continue]): [Predict] was called exactly
    three times and each call returned; the list of samples has length 3;
    the retained outputs and the character count are those of the first
    call, whatever the second and third calls returned; the latency that is
    collected, and reported in the record if one is written, is the sum of
    the three samples divided by 3. *)
Theorem C2_three_runs_first_result_mean (w : World) (image_path : string)
    (st st' : State) :
  try_block w image_path st = Completed st'
  \/ try_block w image_path st = Continued st' ->
  exists ns0 o0 ns1 o1 ns2 o2 st1 loc,
    Predict w (predict_calls st) image_path = PredictReturns ns0 o0
    /\ Predict w (predict_calls st + 1) image_path = PredictReturns ns1 o1
    /\ Predict w (predict_calls st + 2) image_path = PredictReturns ns2 o2
    /\ predict_calls st' = (predict_calls st + 3)%nat
    /\ repetition_loop w image_path 3 0 st initial_locals = (st1, inl loc)
    /\ run_times loc
       = [inference_ms_of_ns ns0; inference_ms_of_ns ns1; inference_ms_of_ns ns2]
    /\ List.length (run_times loc) = 3%nat
    /\ final_outputs loc = o0
    /\ loc_total_chars loc = count_outputs o0 0
    /\ average_ms (run_times loc)
       = ((0 + inference_ms_of_ns ns0 + inference_ms_of_ns ns1
           + inference_ms_of_ns ns2) / 3)%float
    /\ inference_times st' = (inference_times st ++ [average_ms (run_times loc)])%list
    /\ (cout st' = cout st
        \/ exists acc,
            cout st' = (cout st ++ [PER_IMAGE_RESULT (image_record loc image_path acc)])%list).
Proof.
  intros H. pose proof (try_block_outcome w image_path st) as Ho.
  assert (Hgen : forall st1 st3 loc ok result_str,
             repetition_loop w image_path 3 0 st initial_locals = (st1, inl loc) ->
             ExecuteCommand w (command_of w image_path) (after_runs loc st1)
               = (st3, ok, result_str) ->
             predict_calls st' = predict_calls st3 ->
             inference_times st' = inference_times st3 ->
             (cout st' = cout st3
              \/ exists acc,
                  cout st'
                  = (cout st3 ++ [PER_IMAGE_RESULT (image_record loc image_path acc)])%list) ->
             exists ns0 o0 ns1 o1 ns2 o2 st1 loc,
               Predict w (predict_calls st) image_path = PredictReturns ns0 o0
               /\ Predict w (predict_calls st + 1) image_path = PredictReturns ns1 o1
               /\ Predict w (predict_calls st + 2) image_path = PredictReturns ns2 o2
               /\ predict_calls st' = (predict_calls st + 3)%nat
               /\ repetition_loop w image_path 3 0 st initial_locals = (st1, inl loc)
               /\ run_times loc
                  = [inference_ms_of_ns ns0; inference_ms_of_ns ns1; inference_ms_of_ns ns2]
               /\ List.length (run_times loc) = 3%nat
               /\ final_outputs loc = o0
               /\ loc_total_chars loc = count_outputs o0 0
               /\ average_ms (run_times loc)
                  = ((0 + inference_ms_of_ns ns0 + inference_ms_of_ns ns1
                      + inference_ms_of_ns ns2) / 3)%float
               /\ inference_times st'
                  = (inference_times st ++ [average_ms (run_times loc)])%list
               /\ (cout st' = cout st
                   \/ exists acc,
                       cout st'
                       = (cout st ++ [PER_IMAGE_RESULT (image_record loc image_path acc)])%list)).
  { intros st1 st3 loc ok result_str E1 E2 Hc Ht Ho'.
    pose proof E1 as E1'.
    apply repetition_loop_completes in E1'.
    destruct E1' as (ns0 & o0 & ns1 & o1 & ns2 & o2 & P0 & P1 & P2 & Hst1 & Hloc).
    exists ns0, o0, ns1, o1, ns2, o2, st1, loc.
    apply ExecuteCommand_frame in E2.
    destruct E2 as (F1 & _ & F3 & _ & _ & F6 & _).
    unfold after_runs in *. cbn in F1, F3, F6.
    replace (predict_calls st + 1)%nat with (S (predict_calls st)) by lia.
    replace (predict_calls st + 2)%nat with (S (S (predict_calls st))) by lia.
    repeat split; try assumption; try (subst loc; reflexivity).
    - rewrite Hc, F1, Hst1. cbn. lia.
    - rewrite Ht, F3, Hst1. reflexivity.
    - rewrite F6, Hst1 in Ho'. cbn in Ho'. exact Ho'. }
  destruct H as [H|H]; rewrite H in Ho; inversion Ho; subst;
    match goal with
    | E1 : repetition_loop _ _ _ _ _ _ = _, E2 : ExecuteCommand _ _ _ = _ |- _ =>
        eapply (Hgen _ _ _ _ _ E1 E2); cbn; try reflexivity
    end.
  - left. reflexivity.
  - right. eexists. reflexivity.
  - right. eexists. reflexivity.
Qed.

Lemma C2_three_runs_first_result_mean_witness :
  exists loc,
    fst (repetition_loop world_uneven "b.png" 3 0
           (loop_body world_uneven 2 0 "a.png" (initial_state [])) initial_locals)
    = tick_predict (tick_predict (tick_predict
        (loop_body world_uneven 2 0 "a.png" (initial_state []))))
    /\ List.length (run_times loc) = 3%nat
    /\ average_ms (run_times loc) = 400%float
    /\ loc_total_chars loc = 7%Z.
Proof.
  destruct (C2_three_runs_first_result_mean world_uneven "b.png"
              (loop_body world_uneven 2 0 "a.png" (initial_state []))
              (mkState 6 2 [100%float; 400%float] 2 0
                 (cout (loop_body world_uneven 2 0 "a.png" (initial_state []))
                  ++ [PER_IMAGE_RESULT
                        (mkRecord "b.png" 400 2.5 17.5 7
                           (AccFixed4 (0x1.e666666666666p-1)%float))])
                 []))
    as (ns0 & o0 & ns1 & o1 & ns2 & o2 & st1 & loc & P0 & P1 & P2 & Hc & E1 & Ht & Hl
        & Ho & Hn & Ha & _).
  - left. vm_compute. reflexivity.
  - exists loc. split; [vm_compute; reflexivity|]. split; [exact Hl|].
    vm_compute in P0, P1, P2.
    injection P0 as <- <-. injection P1 as <- _. injection P2 as <- _.
    split; [rewrite Ha; vm_compute; reflexivity|].
    rewrite Hn. vm_compute. reflexivity.
Defined.

(** ** Derived metrics (claim C4) *)

(** The derived fields of every record on [std::cout] are computed from
    its latency and character count by lines 313-314. *)
Lemma main_records_derived (w : World) (argv : list string) (r : PerImageRecord) :
  In r (records (cout (final (main w argv)))) ->
  fps r = derive_fps (inference_ms r)
  /\ chars_per_second r = derive_chars_per_second (total_chars r) (inference_ms r).
Proof.
  destruct (main_kinds w argv) as [H|(argv0 & arg1 & more & p & ps & ws & -> & E & Eng)].
  - destruct (main_no_batch w argv H) as (_ & _ & Hc & _). rewrite Hc. intros [].
  - destruct (main_batch w argv0 arg1 more p ps ws E Eng) as (_ & _ & Hc & _).
    rewrite Hc.
    destruct (batch_loop_records w (S (List.length ps)) (p :: ps) 0 (initial_state ws))
      as (added & Hrec & _ & Hall).
    rewrite Hrec. cbn [initial_state cout records app]. intros Hin.
    rewrite Forall_forall in Hall.
    destruct (Hall r Hin) as (q & loc & acc & _ & ->).
    split; reflexivity.
Qed.

(** C4.  For every record that a run writes: when the average latency is
    positive, fps is 1000 divided by it and chars_per_second is the
    character count times 1000 divided by it; when it is at most zero, both
    are 0, which is neither infinite nor a NaN. *)
Theorem C4_derived_metrics_guarded (w : World) (argv : list string)
    (r : PerImageRecord) :
  In r (records (cout (final (main w argv)))) ->
  ((0 <? inference_ms r)%float = true ->
     fps r = (1000 / inference_ms r)%float
     /\ chars_per_second r
        = (double_of_Z (total_chars r) * 1000 / inference_ms r)%float)
  /\ ((inference_ms r <=? 0)%float = true ->
     fps r = 0%float /\ chars_per_second r = 0%float
     /\ PrimFloat.is_nan (fps r) = false
     /\ PrimFloat.is_infinity (fps r) = false
     /\ PrimFloat.is_nan (chars_per_second r) = false
     /\ PrimFloat.is_infinity (chars_per_second r) = false).
Proof.
  intros Hin. destruct (main_records_derived w argv r Hin) as [Hf Hc].
  destruct (derive_metrics_guard (inference_ms r) (total_chars r)) as [Hpos Hle].
  split; intros H.
  - rewrite Hf, Hc. apply Hpos, H.
  - destruct (Hle H) as [H1 H2]. rewrite Hf, Hc, H1, H2.
    repeat split; reflexivity.
Qed.

(** The first scenario of P3: 2.00 fps and 200.00 characters per second
    for 500 ms and 100 characters; 0 for a latency of 0. *)
Example P3_metric_derivation :
  derive_fps 500 = 2%float
  /\ derive_chars_per_second 100 500 = 200%float
  /\ derive_fps 0 = 0%float
  /\ derive_chars_per_second 100 0 = 0%float.
Proof. vm_compute. repeat split; reflexivity. Qed.

(** A world whose engine answers at once, so that the latency is 0. *)
Lemma C4_derived_metrics_guarded_witness :
  let w := mkWorld files_only None (fun _ _ => PredictReturns 0 [Some (render sample_printed)])
             scorer_ok stod_decimal in
  let r := mkRecord "a.png" 0 0 0 7 (AccFixed4 (0x1.e666666666666p-1)%float) in
  In r (records (cout (final (main w ["Benchmark"; "a.png"]))))
  /\ fps r = 0%float /\ chars_per_second r = 0%float.
Proof.
  cbv zeta.
  assert (Hin : In (mkRecord "a.png" 0 0 0 7 (AccFixed4 (0x1.e666666666666p-1)%float))
                  (records (cout (final (main
                     (mkWorld files_only None
                        (fun _ _ => PredictReturns 0 [Some (render sample_printed)])
                        scorer_ok stod_decimal)
                     ["Benchmark"; "a.png"]))))).
  { vm_compute. left. reflexivity. }
  split; [exact Hin|].
  destruct (proj2 (C4_derived_metrics_guarded _ _ _ Hin)) as (H1 & H2 & _).
  - vm_compute. reflexivity.
  - split; [exact H1|exact H2].
Defined.

(** ** The exit code (claim C5) *)

(** The engine returns a null pointer as the second output of the second
    of three images: the process ends in that iteration, after the latency
    of the image was collected and before its scorer is started; the third
    image is never read, and neither a summary nor an exit code follows. *)
Example null_output_ends_the_process :
  let run := main world_null_output ["Benchmark"; "a.png"; "b.png"; "c.png"] in
  map fst (main_iterations world_null_output ["Benchmark"; "a.png"; "b.png"; "c.png"])
  = ["a.png"; "b.png"]
  /\ exit_code run = None
  /\ summary run = None
  /\ inference_times (final run) = [500; 500]%float
  /\ predict_calls (final run) = 6%nat
  /\ popen_calls (final run) = 1%nat
  /\ map filename (records (cout (final run))) = ["a.png"]
  /\ successful_count (final run) = 1%Z
  /\ failed_count (final run) = 0%Z.
Proof. vm_compute. repeat split; reflexivity. Qed.

(** C5, as the specification words it, fails: the exit code is not 0
    whenever no image failed.  Here an argument is given, an image is
    discovered and the constructor of the engine throws: the exception is
    raised outside every [try] block and ends the process; no image failed,
    and [main] returns neither 0 nor any other value. *)
Lemma C5_engine_failure_is_no_exit_0 :
  let w := world_no_engine in
  let argv := ["Benchmark"; "a.png"] in
  let run := main w argv in
  (2 <= List.length argv)%nat
  /\ fst (collectImagePaths (stat w) (tl argv)) = ["a.png"]
  /\ failed_count (final run) = 0%Z
  /\ filter (raised w) (main_iterations w argv) = []
  /\ exit_code run = None
  /\ ~ (forall (w : World) (argv : list string),
          exit_code (main w argv) = Some 0%Z <->
          (2 <= List.length argv)%nat
          /\ fst (collectImagePaths (stat w) (tl argv)) <> []
          /\ failed_count (final (main w argv)) = 0%Z).
Proof.
  cbv zeta.
  repeat (split; [vm_compute; try reflexivity; lia|]).
  intros H.
  assert (He : exit_code (main world_no_engine ["Benchmark"; "a.png"]) = Some 0%Z).
  { apply H. vm_compute. repeat split; [lia|discriminate]. }
  vm_compute in He. discriminate.
Qed.

(** C5, amended.  A run of [main] returns 0 or 1, or the process ends
    without returning.  In a run that returns, the exit code is 1 exactly
    when (a) there are fewer than two elements in argv, or (b) discovery
    finds no image, or (c) the handler ended at least one iteration;
    [failed_count] is the number of such iterations.  Hence it is 0 exactly
    when the batch ran and no image failed.  When images are discovered and
    the constructor of the engine throws, the process ends without
    returning, and no image has failed. *)
Theorem C5_exit_code (w : World) (argv : list string) :
  let run := main w argv in
  let failures := filter (raised w) (main_iterations w argv) in
  let no_arguments := (List.length argv < 2)%nat in
  let no_images := fst (collectImagePaths (stat w) (tl argv)) = [] in
  failed_count (final run) = Z.of_nat (List.length failures)
  /\ (exit_code run = None \/ exit_code run = Some 0%Z \/ exit_code run = Some 1%Z)
  /\ (exit_code run <> None ->
      (exit_code run = Some 1%Z <-> no_arguments \/ no_images \/ failures <> [])
      /\ (exit_code run = Some 0%Z <-> ~ no_arguments /\ ~ no_images /\ failures = [])
      /\ (~ no_arguments -> ~ no_images ->
          (exit_code run = Some 0%Z <-> failed_count (final run) = 0%Z)))
  /\ (PaddleOCR_throws w <> None -> ~ no_arguments -> ~ no_images ->
      exit_code run = None /\ failures = []).
Proof.
  cbv zeta.
  destruct (main_kinds w argv) as [H|(argv0 & arg1 & more & p & ps & ws & -> & E & Eng)].
  - destruct (main_no_batch w argv H) as (He & _ & _ & _ & _ & Hf & Hi).
    rewrite Hf, Hi. cbn [filter List.length Z.of_nat].
    destruct He as [(He & Hwhy)|(He & Hargs & Himgs & Hthrows)]; rewrite He.
    + split; [reflexivity|]. split; [auto|]. split.
      * intros _. split; [|split].
        -- split; [intros _; destruct Hwhy; auto|reflexivity].
        -- split; [discriminate|]. intros (Ha & Hi' & _). destruct Hwhy; contradiction.
        -- intros Ha Hi'. destruct Hwhy; contradiction.
      * intros _ Ha Hi'. destruct Hwhy; contradiction.
    + split; [reflexivity|]. split; [auto|]. split.
      * intros Hn. contradiction.
      * intros _ _ _. split; reflexivity.
  - destruct (main_batch w argv0 arg1 more p ps ws E Eng) as (He & _ & _ & _ & _ & Hf & Hi).
    rewrite He, Hf, Hi, batch_loop_failed_count. cbn [tl]. rewrite E.
    cbn [initial_state failed_count fst List.length].
    set (fs := filter (raised w) _).
    assert (Hargs : ~ (S (S (List.length more)) < 2)%nat) by lia.
    assert (Himgs : p :: ps <> []) by discriminate.
    split; [cbn; lia|].
    split; [|split; [|intros Hthrows; contradiction]].
    { destruct (batch_killed w (S (List.length ps)) 0 (p :: ps) (initial_state ws));
        [auto|].
      destruct (0 + Z.of_nat (List.length fs) >? 0)%Z; auto. }
    destruct (batch_killed w (S (List.length ps)) 0 (p :: ps) (initial_state ws));
      [intros Hn; contradiction|].
    intros _. destruct fs as [|f fs'].
    + cbn. repeat split; auto; try discriminate; try tauto.
    + replace ((0 + Z.of_nat (List.length (f :: fs')) >? 0)%Z) with true
        by (symmetry; apply Z.gtb_lt; cbn [List.length]; lia).
      repeat split; auto; try discriminate; try tauto;
        try (intros _; right; right; discriminate);
        try (intros (_ & _ & H); discriminate);
        try (intros H; cbn [List.length] in H; lia).
Qed.

(** A run over five images of which the third fails returns 1. *)
Lemma C5_exit_code_witness :
  exit_code (main world_img3_throws five_images) = Some 1%Z
  /\ filter (raised world_img3_throws) (main_iterations world_img3_throws five_images)
     <> [].
Proof.
  destruct (C5_exit_code world_img3_throws five_images) as (_ & _ & H & _).
  destruct H as (H1 & _ & _).
  - vm_compute. discriminate.
  - assert (He : exit_code (main world_img3_throws five_images) = Some 1%Z)
      by (vm_compute; reflexivity).
    split; [exact He|].
    destruct (proj1 H1 He) as [Ha|[Hi|Hf]].
    + vm_compute in Ha. lia.
    + vm_compute in Hi. discriminate.
    + exact Hf.
Defined.

(** ** The batch summary (claim C3) *)

(** A run that returns from [main] after the batch: its summary is that of
    the state in which the loop ended. *)
Lemma summary_of_returning_run (w : World) (argv : list string) :
  exit_code (main w argv) <> None ->
  summary (main w argv)
  = summarize (List.length (fst (collectImagePaths (stat w) (tl argv))))
      (mkState 0 0 (inference_times (final (main w argv)))
         (successful_count (final (main w argv))) (failed_count (final (main w argv)))
         [] []).
Proof.
  destruct (main_kinds w argv) as [H|(argv0 & arg1 & more & p & ps & ws & -> & E & Eng)].
  - destruct (main_no_batch w argv H) as (_ & Hs & _ & Ht & _). rewrite Hs, Ht.
    reflexivity.
  - destruct (main_batch w argv0 arg1 more p ps ws E Eng)
      as (He & Hs & _ & Ht & Hsc & Hf & _).
    rewrite He, Hs, Ht, Hsc, Hf. cbn [tl]. rewrite E. cbn [fst List.length].
    destruct (batch_killed w (S (List.length ps)) 0 (p :: ps) (initial_state ws));
      [intros Hn; contradiction|].
    intros _. reflexivity.
Qed.

(** C3, as the specification words it, fails: the statistics do not range
    over the successful images.  In this run a.png takes 400 ms and is
    scored, b.png takes 100 ms and [std::stod] throws on its accuracy, so
    that b.png is counted as failed: the only successful image has latency
    400, and the summary reports the minimum 100 and the average 250. *)
Lemma C3_statistics_include_failed_images :
  let w := world_null_accuracy in
  let argv := ["Benchmark"; "a.png"; "b.png"] in
  let run := main w argv in
  map (counted_successful w) (main_iterations w argv) = [true; false]
  /\ map (raised w) (main_iterations w argv) = [false; true]
  /\ successful_count (final run) = 1%Z
  /\ failed_count (final run) = 1%Z
  /\ successful_latencies w (main_iterations w argv) = [400%float]
  /\ inference_times (final run) = [400; 100]%float
  /\ option_map min_time (summary run) = Some 100%float
  /\ option_map avg_inference_time (summary run) = Some 250%float
  /\ option_map max_time (summary run) = Some 400%float
  /\ ~ (forall (w : World) (argv : list string) (s : BatchSummary),
          summary (main w argv) = Some s ->
          In (min_time s) (successful_latencies w (main_iterations w argv))).
Proof.
  cbv zeta.
  repeat (split; [vm_compute; reflexivity|]).
  intros H.
  assert (Hs : exists s, summary (main world_null_accuracy ["Benchmark"; "a.png"; "b.png"])
                         = Some s /\ min_time s = 100%float).
  { eexists. split; [vm_compute; reflexivity|reflexivity]. }
  destruct Hs as (s & Hs & Hmin).
  specialize (H _ _ _ Hs). rewrite Hmin in H.
  vm_compute in H. destruct H as [H|[]].
  apply (f_equal Prim2SF) in H. vm_compute in H. discriminate.
Qed.

(** C3, amended.  In a run that returns from [main] in which at least one
    image completed its repetition loop, the summary exists and is computed
    from the list of the average latencies of exactly those images, in
    order, whether the image is then counted as successful, counted as
    failed, or counted in neither counter: the total is their sum, the
    average the total divided by their number, the minimum and the maximum
    are elements of the list that no element lies below, respectively
    above, the per-image FPS is 1000 divided by the average, and the batch
    throughput is [successful_count] times 1000 divided by the total. *)
Theorem C3_batch_summary (w : World) (argv : list string) :
  let run := main w argv in
  let times := flat_map (completed_latency w) (main_iterations w argv) in
  exit_code run <> None ->
  times <> [] ->
  inference_times (final run) = times
  /\ exists s : BatchSummary,
      summary run = Some s
      /\ total_inference_time s = fold_left PrimFloat.add times 0%float
      /\ avg_inference_time s
         = (total_inference_time s / double_of_size (List.length times))%float
      /\ In (min_time s) times
      /\ (forall t, In t times -> (t <? min_time s)%float = false)
      /\ In (max_time s) times
      /\ (forall t, In t times -> (max_time s <? t)%float = false)
      /\ avg_fps_per_image s = (1000 / avg_inference_time s)%float
      /\ sum_successful s = successful_count (final run)
      /\ total_fps s
         = (double_of_Z (successful_count (final run)) * 1000
            / total_inference_time s)%float.
Proof.
  cbv zeta. intros Hret.
  rewrite (summary_of_returning_run w argv Hret).
  destruct (main_accounting w argv) as (_ & Htimes & _).
  rewrite <- Htimes.
  set (times := inference_times (final (main w argv))).
  set (sc := successful_count (final (main w argv))).
  intros Hne. split; [reflexivity|].
  unfold summarize. cbn [inference_times successful_count failed_count].
  destruct times as [|first rest] eqn:Et; [congruence|].
  eexists. split; [reflexivity|]. cbn [total_inference_time avg_inference_time min_time
    max_time avg_fps_per_image sum_successful total_fps].
  destruct (fold_std_min_spec (first :: rest) first) as (Hin & _ & Hmin).
  destruct (fold_std_max_spec (first :: rest) first) as (Hin' & _ & Hmax).
  repeat split; try reflexivity; try assumption.
  + destruct Hin as [->|Hin]; [left; reflexivity|exact Hin].
  + destruct Hin' as [->|Hin']; [left; reflexivity|exact Hin'].
Qed.

(** Two images of 100 ms and 400 ms: the per-image FPS of the summary is
    1000 / 250 = 4, not the mean 6.25 of the two per-image values 10 and 2.5. *)
Lemma C3_batch_summary_witness :
  let run := main world_uneven ["Benchmark"; "a.png"; "b.png"] in
  inference_times (final run) = [100; 400]%float
  /\ map fps (records (cout (final run))) = [10; 2.5]%float
  /\ option_map avg_inference_time (summary run) = Some 250%float
  /\ option_map avg_fps_per_image (summary run) = Some 4%float
  /\ ((10 + 2.5) / 2)%float = 6.25%float
  /\ option_map min_time (summary run) = Some 100%float
  /\ option_map max_time (summary run) = Some 400%float
  /\ option_map total_fps (summary run) = Some 4%float.
Proof.
  cbv zeta.
  destruct (C3_batch_summary world_uneven ["Benchmark"; "a.png"; "b.png"])
    as (Ht & s & Hs & Htot & Havg & _ & _ & _ & _ & Hfps & _ & Hbatch).
  - vm_compute. discriminate.
  - vm_compute. discriminate.
  - rewrite Hs. cbn [option_map]. rewrite Hfps, Havg, Hbatch, Htot, Ht.
    vm_compute in Hs. injection Hs as <-.
    vm_compute. repeat split; reflexivity.
Defined.

(** ** Failure isolation (claim C7) *)

(** The repetition loop is left by the first call of [Predict] that throws. *)
Lemma repetition_loop_throws (w : World) (image_path : string) (st : State) (k : nat)
    (what : string) :
  (k < 3)%nat ->
  Predict w (predict_calls st + k) image_path = PredictThrows what ->
  (forall j, (j < k)%nat ->
     exists ns outs, Predict w (predict_calls st + j) image_path = PredictReturns ns outs) ->
  exists st1, repetition_loop w image_path 3 0 st initial_locals = (st1, inr what).
Proof.
  intros Hk Hthrow Hbefore.
  destruct k as [|[|[|k]]]; [| | |lia].
  - rewrite Nat.add_0_r in Hthrow. cbn. rewrite Hthrow. eexists. reflexivity.
  - destruct (Hbefore 0%nat ltac:(lia)) as (ns0 & o0 & P0).
    rewrite Nat.add_0_r in P0. rewrite Nat.add_1_r in Hthrow.
    cbn. rewrite P0. cbn. rewrite Hthrow. eexists. reflexivity.
  - destruct (Hbefore 0%nat ltac:(lia)) as (ns0 & o0 & P0).
    destruct (Hbefore 1%nat ltac:(lia)) as (ns1 & o1 & P1).
    rewrite Nat.add_0_r in P0. rewrite Nat.add_1_r in P1.
    replace (predict_calls st + 2)%nat with (S (S (predict_calls st))) in Hthrow by lia.
    cbn. rewrite P0. cbn. rewrite P1. cbn. rewrite Hthrow. eexists. reflexivity.
Qed.

(** The records of a run name images of the discovered list, in its order. *)
Lemma main_records_in_order (w : World) (argv : list string) :
  subseq (map filename (records (cout (final (main w argv)))))
    (map basename (fst (collectImagePaths (stat w) (tl argv)))).
Proof.
  destruct (main_kinds w argv) as [H|(argv0 & arg1 & more & p & ps & ws & -> & E & Eng)].
  - destruct (main_no_batch w argv H) as (_ & _ & Hc & _). rewrite Hc.
    apply subseq_nil_l.
  - destruct (main_batch w argv0 arg1 more p ps ws E Eng) as (_ & _ & Hc & _).
    rewrite Hc. cbn [tl]. rewrite E. cbn [fst].
    destruct (batch_loop_records w (S (List.length ps)) (p :: ps) 0 (initial_state ws))
      as (added & Hrec & Hsub & _).
    rewrite Hrec. exact Hsub.
Qed.

(** C7.  If a call of [Predict] throws during the repetition loop of an
    image, the handler of that iteration catches it: [failed_count] grows by
    one, [successful_count], the records on [std::cout] and the collected
    latencies stay as they were, the scorer is not called, the error is
    logged, and the loop goes on with the next image.  In every run the
    records name discovered images in discovery order.  With five images of
    which the third throws, the run ends with 4 successes, 1 failure and
    the records of images 1, 2, 4 and 5. *)
Theorem C7_failure_isolation :
  (forall (w : World) (size i : nat) (image_path : string) (rest : list string)
          (st : State) (k : nat) (what : string),
      (k < 3)%nat ->
      Predict w (predict_calls st + k) image_path = PredictThrows what ->
      (forall j, (j < k)%nat ->
         exists ns outs,
           Predict w (predict_calls st + j) image_path = PredictReturns ns outs) ->
      let st' := loop_body w size i image_path st in
      failed_count st' = (failed_count st + 1)%Z
      /\ successful_count st' = successful_count st
      /\ records (cout st') = records (cout st)
      /\ inference_times st' = inference_times st
      /\ popen_calls st' = popen_calls st
      /\ cerr st' = (cerr st ++ [ErrFailedToProcess image_path what])%list
      /\ batch_loop w size i (image_path :: rest) st = batch_loop w size (S i) rest st')
  /\ (forall (w : World) (argv : list string),
        subseq (map filename (records (cout (final (main w argv)))))
          (map basename (fst (collectImagePaths (stat w) (tl argv)))))
  /\ (let run := main world_img3_throws five_images in
      fst (collectImagePaths (stat world_img3_throws) (tl five_images))
        = ["img1.png"; "img2.png"; "img3.png"; "img4.png"; "img5.png"]
      /\ map (raised world_img3_throws) (main_iterations world_img3_throws five_images)
         = [false; false; true; false; false]
      /\ option_map sum_successful (summary run) = Some 4%Z
      /\ option_map sum_failed (summary run) = Some 1%Z
      /\ map filename (records (cout (final run)))
         = ["img1.png"; "img2.png"; "img4.png"; "img5.png"]
      /\ List.length (inference_times (final run)) = 4%nat).
Proof.
  split; [|split].
  - intros w size i image_path rest st k what Hk Hthrow Hbefore st'. subst st'.
    destruct (repetition_loop_throws w image_path st k what Hk Hthrow Hbefore) as (st1 & E1).
    assert (Hnext : batch_loop w size i (image_path :: rest) st
                    = batch_loop w size (S i) rest (loop_body w size i image_path st)).
    { rewrite (proj1 (batch_loop_cons w size i image_path rest st)).
      unfold crashes. cbn [fst snd].
      rewrite (try_block_predict_throws _ _ _ _ _ E1). reflexivity. }
    revert Hnext.
    unfold loop_body. rewrite (try_block_predict_throws _ _ _ _ _ E1).
    progress_frame i size (catch_handler image_path what st1).
    frames. cbn in *. intros Hnext. repeat split; congruence.
  - apply main_records_in_order.
  - vm_compute. repeat split; reflexivity.
Qed.

Lemma C7_failure_isolation_witness :
  let st := batch_loop world_img3_throws 5 0 ["img1.png"; "img2.png"] (initial_state []) in
  let st' := loop_body world_img3_throws 5 2 "img3.png" st in
  Predict world_img3_throws (predict_calls st + 0) "img3.png"
    = PredictThrows "cannot read image"
  /\ failed_count st' = (failed_count st + 1)%Z
  /\ successful_count st' = successful_count st
  /\ records (cout st') = records (cout st)
  /\ inference_times st' = inference_times st.
Proof.
  cbv zeta. split; [reflexivity|].
  destruct (proj1 C7_failure_isolation world_img3_throws 5%nat 2%nat "img3.png"
              ["img4.png"; "img5.png"]
              (batch_loop world_img3_throws 5 0 ["img1.png"; "img2.png"] (initial_state []))
              0%nat "cannot read image")
    as (H1 & H2 & H3 & H4 & _).
  - lia.
  - reflexivity.
  - intros j Hj. lia.
  - split; [exact H1|split; [exact H2|split; [exact H3|exact H4]]].
Defined.

(** ** Image discovery (claims C6 and C10) *)

Lemma find_last_of_none (c : ascii) (s : string) :
  Str.find_last_of c s = None <-> ~ In c (list_ascii_of_string s).
Proof.
  induction s as [|a r IH]; simpl.
  - split; [intros _ []|reflexivity].
  - destruct (Str.find_last_of c r) as [i|].
    + split; [discriminate|]. intros H. exfalso. apply H. right.
      destruct (in_dec ascii_dec c (list_ascii_of_string r)) as [Hin|Hout]; [exact Hin|].
      apply IH in Hout. discriminate.
    + destruct (Ascii.eqb_spec a c) as [->|Hne].
      * split; [discriminate|]. intros H. exfalso. apply H. left. reflexivity.
      * split; [|reflexivity]. intros _ [H|H]; [congruence|].
        apply (proj1 IH); [reflexivity|exact H].
Qed.

(** [find_last_of] splits the string at its last occurrence of [c]. *)
Lemma find_last_of_some (c : ascii) (s : string) (i : nat) :
  Str.find_last_of c s = Some i <->
  exists stem ext,
    s = stem ++ String c ext
    /\ ~ In c (list_ascii_of_string ext)
    /\ i = String.length stem.
Proof.
  revert i. induction s as [|a r IH]; intros i; simpl.
  - split; [discriminate|]. intros (stem & ext & H & _). destruct stem; discriminate.
  - destruct (Str.find_last_of c r) as [j|] eqn:E.
    + split.
      * intros H. injection H as <-.
        destruct (proj1 (IH j) eq_refl) as (stem & ext & -> & Hext & ->).
        exists (String a stem), ext. repeat split; assumption.
      * intros (stem & ext & H & Hext & ->).
        destruct stem as [|b stem]; simpl in H; injection H as -> ->.
        -- apply find_last_of_none in Hext. congruence.
        -- assert (Hj : Some j = Some (String.length stem)).
           { apply IH. exists stem, ext. auto. }
           injection Hj as ->. reflexivity.
    + apply find_last_of_none in E.
      destruct (Ascii.eqb_spec a c) as [->|Hne].
      * split.
        -- intros H. injection H as <-. exists "", r. auto.
        -- intros (stem & ext & H & Hext & ->).
           destruct stem as [|b stem]; simpl in H; [reflexivity|].
           injection H as _ ->.
           exfalso. apply E. clear. induction stem; simpl; auto.
      * split; [discriminate|].
        intros (stem & ext & H & Hext & ->).
        destruct stem as [|b stem]; simpl in H; injection H as -> ->; [congruence|].
        exfalso. apply E. clear. induction stem; simpl; auto.
Qed.

Lemma substr_from_app (stem rest : string) :
  Str.substr_from (stem ++ rest) (String.length stem) = rest.
Proof.
  induction stem as [|a stem IH]; simpl; [destruct rest; reflexivity|exact IH].
Qed.

(** [::tolower] maps a capital letter to its small letter and keeps every
    other character. *)
Lemma tolower_cases (c : ascii) :
  (exists k : nat,
      (k < 26)%nat /\ c = ascii_of_nat (65 + k) /\ Str.tolower c = ascii_of_nat (97 + k))
  \/ ((forall k : nat, (k < 26)%nat -> c <> ascii_of_nat (65 + k)) /\ Str.tolower c = c).
Proof.
  unfold Str.tolower.
  destruct ((65 <=? nat_of_ascii c)%nat && (nat_of_ascii c <=? 90)%nat) eqn:E.
  - left. apply andb_true_iff in E. destruct E as [E1 E2].
    apply Nat.leb_le in E1, E2.
    exists (nat_of_ascii c - 65)%nat. split; [lia|]. split.
    + replace (65 + (nat_of_ascii c - 65))%nat with (nat_of_ascii c) by lia.
      symmetry. apply ascii_nat_embedding.
    + f_equal. lia.
  - right. split; [|reflexivity].
    intros k Hk ->. rewrite nat_ascii_embedding in E by lia.
    apply andb_false_iff in E. destruct E as [E|E]; apply Nat.leb_gt in E; lia.
Qed.

(** Lower-casing gives a text equal to the original up to letter case. *)
Lemma transform_tolower_equal (s : string) :
  equal_ignoring_case s (Str.transform_tolower s).
Proof.
  induction s as [|c s IH]; simpl; [exact I|]. split; [|exact IH].
  destruct (tolower_cases c) as [(k & Hk & Hc & ->)|(_ & ->)].
  - right. left. exists k. auto.
  - left. reflexivity.
Qed.

(** A text without capital letters is the lower-cased form of every text
    equal to it up to letter case. *)
Lemma equal_ignoring_case_tolower (s t : string) :
  equal_ignoring_case s t ->
  Str.transform_tolower t = t ->
  Str.transform_tolower s = t.
Proof.
  revert t. induction s as [|a s IH]; intros [|b t]; simpl; try tauto.
  intros (Hc & Hrest) Ht. injection Ht as Hb Ht.
  rewrite (IH t Hrest Ht). f_equal.
  destruct Hc as [->|[(k & Hk & -> & ->)|(k & Hk & -> & ->)]].
  - exact Hb.
  - destruct (tolower_cases (ascii_of_nat (65 + k))) as [(k' & Hk' & He & ->)|(Hno & _)].
    + apply (f_equal nat_of_ascii) in He.
      rewrite !nat_ascii_embedding in He by lia.
      replace k' with k by lia. reflexivity.
    + exfalso. apply (Hno k Hk). reflexivity.
  - exfalso.
    destruct (tolower_cases (ascii_of_nat (65 + k))) as [(k' & Hk' & _ & He)|(Hno & _)].
    + rewrite Hb in He. apply (f_equal nat_of_ascii) in He.
      rewrite !nat_ascii_embedding in He by lia. lia.
    + apply (Hno k Hk). reflexivity.
Qed.

(** The accepted extensions are written in small letters. *)
Lemma extension_whitelist_small (accepted : string) :
  In accepted extension_whitelist -> Str.transform_tolower accepted = accepted.
Proof.
  intros [<-|[<-|[<-|[<-|[<-|[]]]]]]; reflexivity.
Qed.

(** [isImageFile] accepts exactly the paths that carry one of the five
    extensions after their last dot, in any letter case. *)
Lemma isImageFile_spec (path : string) :
  isImageFile path = true <-> has_image_extension path.
Proof.
  unfold isImageFile, has_image_extension.
  destruct (Str.find_last_of "." path) as [i|] eqn:E.
  - apply find_last_of_some in E. destruct E as (stem & ext & -> & Hext & ->).
    rewrite substr_from_app. cbn [Str.transform_tolower].
    change (Str.tolower ".") with "."%char.
    assert (Hcmp : forall e : string,
               String.eqb (String "." (Str.transform_tolower ext)) (String "." e)
               = String.eqb (Str.transform_tolower ext) e) by reflexivity.
    rewrite !Hcmp, !orb_true_iff, !String.eqb_eq.
    assert (Hin : (((Str.transform_tolower ext = "jpg" \/ Str.transform_tolower ext = "jpeg")
                    \/ Str.transform_tolower ext = "png")
                   \/ Str.transform_tolower ext = "bmp")
                  \/ Str.transform_tolower ext = "tiff"
                  <-> In (Str.transform_tolower ext) extension_whitelist).
    { unfold extension_whitelist. simpl. intuition auto. }
    rewrite Hin. clear Hin Hcmp.
    split.
    + intros H. exists stem, ext, (Str.transform_tolower ext).
      repeat split; [assumption|exact H|apply transform_tolower_equal].
    + intros (stem' & ext' & accepted & Heq & Hext' & Hin & Hsame).
      assert (Hlen : Some (String.length stem) = Some (String.length stem')).
      { transitivity (Str.find_last_of "." (stem ++ String "." ext)).
        - symmetry. apply find_last_of_some. exists stem, ext. auto.
        - rewrite Heq. apply find_last_of_some. exists stem', ext'. auto. }
      injection Hlen as Hlen.
      assert (Hrest : String "." ext = String "." ext').
      { rewrite <- (substr_from_app stem (String "." ext)), Heq, Hlen.
        apply (substr_from_app stem' ("." ++ ext')). }
      injection Hrest as ->.
      rewrite (equal_ignoring_case_tolower ext' accepted Hsame
                 (extension_whitelist_small accepted Hin)).
      exact Hin.
  - split; [discriminate|].
    intros (stem & ext & accepted & Heq & Hext & _).
    assert (H : Str.find_last_of "." path = Some (String.length stem)).
    { apply find_last_of_some. exists stem, ext. auto. }
    congruence.
Qed.

(** Induction on a directory tree. *)
Lemma fsnode_tree_ind (P : fsnode -> Prop) :
  P Regular -> P Other -> P (Directory None) ->
  (forall entries, Forall (fun e => P (snd e)) entries -> P (Directory (Some entries))) ->
  forall n, P n.
Proof.
  intros Hreg Hother Hnone Hdir.
  fix IH 1. intros [|[entries|]|]; try assumption.
  apply Hdir. induction entries as [|[name child] rest IHrest]; constructor.
  - apply IH.
  - exact IHrest.
Qed.

(** One [readdir] entry at a time. *)
Lemma collect_nil (dirPath : string) (imagePaths : list string) :
  collectImagesFromDirectory dirPath (Directory (Some [])) imagePaths = imagePaths.
Proof. reflexivity. Qed.

Lemma collect_cons (dirPath name : string) (child : fsnode)
    (rest : list (string * fsnode)) (imagePaths : list string) :
  collectImagesFromDirectory dirPath (Directory (Some ((name, child) :: rest))) imagePaths
  = collectImagesFromDirectory dirPath (Directory (Some rest))
      (if is_dot_entry name then imagePaths
       else if isDirectory child then
              collectImagesFromDirectory (dirPath ++ "/" ++ name) child imagePaths
       else if isFile child && isImageFile (dirPath ++ "/" ++ name) then
              (imagePaths ++ [(dirPath ++ "/" ++ name)%string])%list
       else imagePaths).
Proof.
  simpl. destruct (is_dot_entry name); [reflexivity|].
  destruct (isDirectory child); [reflexivity|].
  match goal with |- context [if ?b then _ else _] => destruct b end; reflexivity.
Qed.

Lemma is_dot_entry_false (name : string) :
  is_dot_entry name = false <-> name <> "." /\ name <> "..".
Proof.
  unfold is_dot_entry. rewrite orb_false_iff, !String.eqb_neq. reflexivity.
Qed.

Lemma image_under_nil (dirPath path : string) :
  ~ image_under dirPath (Directory (Some [])) path.
Proof. intros H. inversion H; subst; contradiction. Qed.

Lemma image_under_unopened (dirPath path : string) :
  ~ image_under dirPath (Directory None) path.
Proof. intros H. inversion H. Qed.

(** What the first entry of a listing contributes, in the words of
    [image_under]. *)
Lemma image_under_cons (dirPath name path : string) (child : fsnode)
    (rest : list (string * fsnode)) :
  image_under dirPath (Directory (Some ((name, child) :: rest))) path <->
  (name <> "." /\ name <> ".."
   /\ ((child = Regular /\ has_image_extension (dirPath ++ "/" ++ name)
        /\ path = dirPath ++ "/" ++ name)
       \/ (isDirectory child = true
           /\ image_under (dirPath ++ "/" ++ name) child path)))
  \/ image_under dirPath (Directory (Some rest)) path.
Proof.
  split.
  - intros H. inversion H as [d n es Hin Hd1 Hd2 Hext|d n q es l Hin Hd1 Hd2 Hsub]; subst.
    + destruct Hin as [Heq|Hin].
      * injection Heq as -> ->. left. repeat split; auto.
      * right. apply image_here; assumption.
    + destruct Hin as [Heq|Hin].
      * injection Heq as -> ->. left. repeat split; auto.
      * right. eapply image_below; eassumption.
  - intros [(Hd1 & Hd2 & [(-> & Hext & ->)|(Hdir & Hsub)])|H].
    + apply image_here; [left; reflexivity|assumption..].
    + destruct child as [|listing|]; try discriminate.
      eapply image_below; [left; reflexivity|assumption..].
    + inversion H as [d n es Hin Hd1 Hd2 Hext|d n q es l Hin Hd1 Hd2 Hsub]; subst.
      * apply image_here; [right; assumption|assumption..].
      * eapply image_below; [right; eassumption|assumption..].
Qed.

(** The traversal adds to the vector exactly the image files below the
    directory, and keeps what the vector held. *)
Lemma collectImagesFromDirectory_spec (dir : fsnode) :
  forall (dirPath : string) (imagePaths : list string) (path : string),
    In path (collectImagesFromDirectory dirPath dir imagePaths) <->
    In path imagePaths \/ image_under dirPath dir path.
Proof.
  induction dir as [| | |entries IH] using fsnode_tree_ind; intros dirPath imagePaths path.
  - simpl. split; [auto|]. intros [H|H]; [exact H|inversion H].
  - simpl. split; [auto|]. intros [H|H]; [exact H|inversion H].
  - simpl. split; [auto|]. intros [H|H]; [exact H|inversion H].
  - revert imagePaths. induction IH as [|[name child] rest Hchild _ IHrest]; intros imagePaths.
    + rewrite collect_nil. split; [auto|].
      intros [H|H]; [exact H|]. exfalso. eapply image_under_nil, H.
    + rewrite collect_cons, IHrest, image_under_cons. cbn [snd] in Hchild.
      destruct (is_dot_entry name) eqn:Edot.
      * split; [tauto|]. intros [H|[(Hd1 & Hd2 & _)|H]]; [tauto| |tauto].
        exfalso. assert (Hf : is_dot_entry name = false)
          by (apply is_dot_entry_false; auto). congruence.
      * apply is_dot_entry_false in Edot. destruct Edot as [Hd1 Hd2].
        destruct child as [|listing|]; cbn [isDirectory isFile andb].
        -- destruct (isImageFile (dirPath ++ "/" ++ name)) eqn:Eimg.
           ++ apply isImageFile_spec in Eimg. rewrite in_app_iff. simpl.
              split.
              ** intros [[H|[H|[]]]|H]; [tauto| |tauto].
                 right. left. repeat split; auto.
              ** intros [H|[(_ & _ & [(_ & _ & ->)|(Hc & _)])|H]];
                   [tauto|tauto|discriminate|tauto].
           ++ split; [tauto|].
              intros [H|[(_ & _ & [(_ & Hext & _)|(Hc & _)])|H]];
                [tauto| |discriminate|tauto].
              apply isImageFile_spec in Hext. congruence.
        -- rewrite Hchild. split.
           ++ intros [[H|H]|H]; [tauto| |tauto].
              right. left. repeat split; auto.
           ++ intros [H|[(_ & _ & [(Hc & _)|(_ & Hsub)])|H]];
                [tauto|discriminate|tauto|tauto].
        -- split; [tauto|].
           intros [H|[(_ & _ & [(Hc & _)|(Hc & _)])|H]];
             [tauto|discriminate|discriminate|tauto].
Qed.

Lemma collectImagePaths_loop_spec (stat : string -> fsnode) (args : list string) :
  forall (imagePaths : list string) (cerr0 : list diag),
    (forall path,
        In path (fst (collectImagePaths_loop stat args imagePaths cerr0)) <->
        In path imagePaths \/ exists arg, In arg args /\ discovered_from stat arg path)
    /\ snd (collectImagePaths_loop stat args imagePaths cerr0)
       = (cerr0 ++ map WarnSkippingInvalidPath (filter (invalid_argument stat) args))%list.
Proof.
  induction args as [|a rest IH]; intros imagePaths cerr0.
  - simpl. split; [|symmetry; apply app_nil_r].
    intros path. split; [auto|]. intros [H|(arg & [] & _)]. exact H.
  - cbn [collectImagePaths_loop filter].
    assert (Hinv : invalid_argument stat a
                   = negb (isDirectory (stat a))
                     && negb (isFile (stat a) && isImageFile a)) by reflexivity.
    rewrite Hinv. clear Hinv.
    assert (Hskip :
      forall cerr1,
        ~ discovered_from stat a a ->
        (forall path, ~ discovered_from stat a path) ->
        (forall path,
            In path (fst (collectImagePaths_loop stat rest imagePaths cerr1)) <->
            In path imagePaths
            \/ exists arg, In arg (a :: rest) /\ discovered_from stat arg path)).
    { intros cerr1 _ Hnone path. destruct (IH imagePaths cerr1) as [Hin _].
      rewrite Hin. split.
      - intros [H|(arg & Harg & Hd)]; [tauto|].
        right. exists arg. split; [right; exact Harg|exact Hd].
      - intros [H|(arg & [<-|Harg] & Hd)]; [tauto| |].
        + exfalso. exact (Hnone path Hd).
        + right. exists arg. auto. }
    destruct (stat a) as [|listing|] eqn:Es; cbn [isDirectory isFile negb andb].
    + destruct (isImageFile a) eqn:Eimg; cbn [negb].
      * destruct (IH (imagePaths ++ [a])%list cerr0) as [Hin Herr].
        split; [|exact Herr].
        apply isImageFile_spec in Eimg.
        intros path. rewrite Hin, in_app_iff. simpl. split.
        -- intros [[H|[<-|[]]]|(arg & Harg & Hd)]; [tauto| |].
           ++ right. exists a. split; [left; reflexivity|]. right. auto.
           ++ right. exists arg. split; [right; exact Harg|exact Hd].
        -- intros [H|(arg & [<-|Harg] & Hd)]; [tauto| |].
           ++ destruct Hd as [(l & Hd & _)|(_ & _ & ->)]; [congruence|tauto].
           ++ right. exists arg. auto.
      * destruct (IH imagePaths (cerr0 ++ [WarnSkippingInvalidPath a])%list) as [_ Herr].
        split; [|rewrite Herr, <- app_assoc; reflexivity].
        assert (Hnone : forall path, ~ discovered_from stat a path).
        { intros path [(l & Hd & _)|(_ & Hext & _)]; [congruence|].
          apply isImageFile_spec in Hext. congruence. }
        apply Hskip; [apply Hnone|exact Hnone].
    + destruct (IH (collectImagesFromDirectory a (Directory listing) imagePaths) cerr0)
        as [Hin Herr].
      split; [|exact Herr].
      intros path. rewrite Hin, collectImagesFromDirectory_spec. split.
      * intros [[H|H]|(arg & Harg & Hd)]; [tauto| |].
        -- right. exists a. split; [left; reflexivity|]. left. exists listing. auto.
        -- right. exists arg. split; [right; exact Harg|exact Hd].
      * intros [H|(arg & [<-|Harg] & Hd)]; [tauto| |].
        -- destruct Hd as [(l & Hl & Hu)|(Hreg & _)]; [|congruence].
           rewrite Es in Hl. injection Hl as <-. tauto.
        -- right. exists arg. auto.
    + destruct (IH imagePaths (cerr0 ++ [WarnSkippingInvalidPath a])%list) as [_ Herr].
      split; [|rewrite Herr, <- app_assoc; reflexivity].
      assert (Hnone : forall path, ~ discovered_from stat a path).
      { intros path [(l & Hd & _)|(Hreg & _)]; congruence. }
      apply Hskip; [apply Hnone|exact Hnone].
Qed.

(** The arguments for which the code writes a warning are those that the
    specification calls invalid. *)
Lemma invalid_argument_spec (stat : string -> fsnode) (arg : string) :
  invalid_argument stat arg = false <-> valid_argument stat arg.
Proof.
  unfold invalid_argument, valid_argument.
  destruct (stat arg) as [|listing|]; cbn [isDirectory isFile negb andb].
  - rewrite negb_false_iff, isImageFile_spec. split.
    + intros H. right. auto.
    + intros [(l & H)|(_ & H)]; [discriminate|exact H].
  - split; [|reflexivity]. intros _. left. exists listing. reflexivity.
  - split; [discriminate|]. intros [(l & H)|(H & _)]; discriminate.
Qed.

Lemma warnings_for_filter (stat : string -> fsnode) (args : list string) (ws : list diag) :
  warnings_for stat args ws
  <-> ws = map WarnSkippingInvalidPath (filter (invalid_argument stat) args).
Proof.
  revert ws. induction args as [|a rest IH]; intros ws.
  - split; [intros H; inversion H; reflexivity|intros ->; constructor].
  - cbn [filter]. destruct (invalid_argument stat a) eqn:Ea.
    + assert (Hinv : ~ valid_argument stat a).
      { intros H. apply invalid_argument_spec in H. congruence. }
      split.
      * intros H. inversion H; subst; [contradiction|].
        cbn [map]. f_equal. apply IH. assumption.
      * intros ->. cbn [map]. apply warnings_skipped; [exact Hinv|]. apply IH. reflexivity.
    + apply invalid_argument_spec in Ea. split.
      * intros H. inversion H; subst; [|contradiction]. apply IH. assumption.
      * intros ->. apply warnings_valid; [exact Ea|]. apply IH. reflexivity.
Qed.

(** C6.  The discovered paths are exactly: for an argument that is a
    directory, the regular files below it, at any depth, whose text after
    the last dot is one of jpg, jpeg, png, bmp and tiff up to the case of
    its letters; for an argument that is a regular file with such an
    extension, the argument itself.  Every other argument, and no other, is
    reported by one warning on [std::cerr], in the order of the arguments,
    and the arguments after it are still examined.  [isImageFile] decides
    the extension.  In the example, a.JPG in a directory argument is found,
    the directory argument is traversed and not warned about, and the two
    arguments after the one first skipped are examined. *)
Theorem C6_discovery (stat : string -> fsnode) (args : list string) :
  (forall path,
      In path (fst (collectImagePaths stat args)) <->
      exists arg, In arg args /\ discovered_from stat arg path)
  /\ (forall ws, warnings_for stat args ws <-> ws = snd (collectImagePaths stat args))
  /\ (forall path, has_image_extension path <-> isImageFile path = true)
  /\ collectImagePaths photos_stat ["README.md"; "photos"; "missing"; "x.bmp"]
     = (["photos/a.JPG"; "photos/scans/b.tiff"; "x.bmp"],
        [WarnSkippingInvalidPath "README.md"; WarnSkippingInvalidPath "missing"]).
Proof.
  destruct (collectImagePaths_loop_spec stat args [] []) as [Hin Herr].
  split; [|split; [|split]].
  - intros path. split.
    + intros H. apply Hin in H. destruct H as [[]|H]. exact H.
    + intros H. apply Hin. right. exact H.
  - intros ws. unfold collectImagePaths. rewrite Herr. apply warnings_for_filter.
  - intros path. symmetry. apply isImageFile_spec.
  - vm_compute. reflexivity.
Qed.

(** A tree with upper-case and double extensions, a special file, the
    entries for the directory itself and its parent, and two invalid
    arguments. *)
Example discovery_example :
  collectImagePaths photos_stat ["photos"; "x.bmp"; "README.md"; "missing"]
  = (["photos/a.JPG"; "photos/scans/b.tiff"; "x.bmp"],
     [WarnSkippingInvalidPath "README.md"; WarnSkippingInvalidPath "missing"]).
Proof. vm_compute. reflexivity. Qed.

(** The listing is read entry by entry. *)
Lemma collect_app (dirPath : string) (es1 es2 : list (string * fsnode)) :
  forall imagePaths,
    collectImagesFromDirectory dirPath (Directory (Some (es1 ++ es2)%list)) imagePaths
    = collectImagesFromDirectory dirPath (Directory (Some es2))
        (collectImagesFromDirectory dirPath (Directory (Some es1)) imagePaths).
Proof.
  induction es1 as [|[name child] es1 IH]; intros imagePaths; [reflexivity|].
  rewrite <- app_comm_cons, !collect_cons, IH. reflexivity.
Qed.

(** C10.  A directory that cannot be opened adds nothing to the vector; a
    listing that holds such a subdirectory is traversed as if the entry
    were not there, so the entries after it are still visited; and the
    diagnostics of the discovery are the warnings for the invalid
    command-line arguments only, of which a directory is never one. *)
Theorem C10_unopenable_directory_skipped_silently :
  (forall (dirPath : string) (imagePaths : list string),
      collectImagesFromDirectory dirPath (Directory None) imagePaths = imagePaths)
  /\ (forall (dirPath name : string) (before after : list (string * fsnode))
             (imagePaths : list string),
        collectImagesFromDirectory dirPath
          (Directory (Some (before ++ (name, Directory None) :: after)%list)) imagePaths
        = collectImagesFromDirectory dirPath (Directory (Some (before ++ after)%list))
            imagePaths)
  /\ (forall (stat : string -> fsnode) (args : list string),
        snd (collectImagePaths stat args)
        = map WarnSkippingInvalidPath (filter (invalid_argument stat) args))
  /\ (forall (stat : string -> fsnode) (arg : string)
             (listing : option (list (string * fsnode))),
        stat arg = Directory listing -> invalid_argument stat arg = false)
  /\ collectImagePaths photos_stat ["photos"]
     = (["photos/a.JPG"; "photos/scans/b.tiff"], []).
Proof.
  repeat split.
  - intros dirPath name before after imagePaths.
    rewrite !collect_app, collect_cons.
    destruct (is_dot_entry name); reflexivity.
  - intros stat args. apply (collectImagePaths_loop_spec stat args [] []).
  - intros stat arg listing H. unfold invalid_argument. rewrite H. reflexivity.
Qed.

(** ** Character counting (claim C8) *)

Lemma append_assoc (a b c : string) : (a ++ b) ++ c = a ++ (b ++ c).
Proof. induction a as [|x a IH]; simpl; [reflexivity|rewrite IH; reflexivity]. Qed.

Lemma append_nil_r (a : string) : a ++ "" = a.
Proof. induction a as [|x a IH]; simpl; [reflexivity|rewrite IH; reflexivity]. Qed.

Lemma length_append (a b : string) :
  String.length (a ++ b) = (String.length a + String.length b)%nat.
Proof. induction a as [|x a IH]; simpl; [reflexivity|rewrite IH; reflexivity]. Qed.

Lemma find_char0_bounds (c : ascii) (s : string) (p : nat) :
  Str.find_char0 c s = Some p -> (p < String.length s)%nat.
Proof.
  revert p. induction s as [|a r IH]; intros p; simpl; [discriminate|].
  destruct (Ascii.eqb a c).
  - intros H. injection H as <-. lia.
  - destruct (Str.find_char0 c r) as [q|]; [|discriminate].
    intros H. injection H as <-. specialize (IH q eq_refl). lia.
Qed.

Lemma find_char_bounds (c : ascii) (s : string) :
  forall pos p, Str.find_char c s pos = Some p -> (pos <= p < String.length s)%nat.
Proof.
  induction s as [|a r IH]; intros pos p H.
  - destruct pos; discriminate.
  - destruct pos as [|pos].
    + apply find_char0_bounds in H. lia.
    + simpl in H. destruct (Str.find_char c r pos) as [q|] eqn:E; [|discriminate].
      injection H as <-. apply IH in E. simpl. lia.
Qed.

(** Searching from the end of a prefix is searching the rest. *)
Lemma find_char_skip (c : ascii) (pre s : string) :
  Str.find_char c (pre ++ s) (String.length pre)
  = option_map (Nat.add (String.length pre)) (Str.find_char0 c s).
Proof.
  induction pre as [|x pre IH]; simpl.
  - destruct (Str.find_char0 c s); reflexivity.
  - rewrite IH. destruct (Str.find_char0 c s); reflexivity.
Qed.

Lemma find_char0_free_hit (c : ascii) (lead r : string) :
  free_of c lead -> Str.find_char0 c (lead ++ String c r) = Some (String.length lead).
Proof.
  unfold free_of. induction lead as [|x lead IH]; simpl.
  - intros _. rewrite Ascii.eqb_refl. reflexivity.
  - destruct (Ascii.eqb x c); [discriminate|].
    destruct (Str.find_char0 c lead); [discriminate|].
    intros _. rewrite IH; reflexivity.
Qed.

Lemma free_of_append (c : ascii) (a b : string) :
  free_of c a -> free_of c b -> free_of c (a ++ b).
Proof.
  unfold free_of. induction a as [|x a IH]; simpl; [auto|].
  destruct (Ascii.eqb x c); [discriminate|].
  destruct (Str.find_char0 c a); [discriminate|].
  intros _ Hb. rewrite IH; auto.
Qed.

Lemma substring_middle (pre text rest : string) :
  Str.substr (pre ++ text ++ rest) (String.length pre) (String.length text) = text.
Proof.
  unfold Str.substr. induction pre as [|x pre IH]; simpl; [|exact IH].
  induction text as [|y text IHt]; simpl.
  - destruct rest; reflexivity.
  - rewrite IHt. reflexivity.
Qed.

Lemma count_text_acc (text : string) (total : Z) :
  count_text text total = (total + non_backslash_bytes text)%Z.
Proof.
  unfold non_backslash_bytes. revert total.
  induction text as [|c r IH]; intros total; simpl; [lia|].
  rewrite (IH (if Ascii.eqb c backslash then total else (total + 1)%Z)).
  destruct (Ascii.eqb c backslash); cbn [negb List.length]; lia.
Qed.

(** The loop over the quoted strings never runs out of fuel: any two
    amounts of fuel above what is left of the content give the same count. *)
Lemma quoted_loop_fuel (content : string) :
  forall fuel fuel' pos total,
    (String.length content < pos + fuel)%nat ->
    (String.length content < pos + fuel')%nat ->
    quoted_loop fuel content pos total = quoted_loop fuel' content pos total.
Proof.
  assert (Hend : forall fuel pos total,
             (String.length content < pos)%nat ->
             quoted_loop fuel content pos total = total).
  { intros [|fuel] pos total Hlen; simpl; [reflexivity|].
    destruct (Str.find_char dquote content pos) as [p|] eqn:E; [|reflexivity].
    apply find_char_bounds in E. lia. }
  induction fuel as [|fuel IH]; intros fuel' pos total H1 H2.
  - rewrite (Hend fuel'); [reflexivity|lia].
  - destruct fuel' as [|fuel'].
    + rewrite (Hend (S fuel)); [reflexivity|lia].
    + simpl.
      destruct (Str.find_char dquote content pos) as [p|] eqn:E; [|reflexivity].
      destruct (Str.find_char dquote content (p + 1)) as [q|] eqn:E'; [|reflexivity].
      apply find_char_bounds in E. apply find_char_bounds in E'.
      apply IH; lia.
Qed.

Lemma count_quoted_any_fuel (content : string) (total : Z) (extra : nat) :
  quoted_loop (S (String.length content) + extra) content 0 total
  = count_quoted content total.
Proof. unfold count_quoted. apply quoted_loop_fuel; lia. Qed.

(** One iteration of the loop: from the end of [pre], over a quote-free
    lead, to the position after the closing quote of the next text. *)
Lemma quoted_loop_step (fuel : nat) (pre lead text rest : string) (total : Z) :
  free_of dquote lead -> free_of dquote text ->
  quoted_loop (S fuel) (pre ++ lead ++ String dquote (text ++ String dquote rest))
    (String.length pre) total
  = quoted_loop fuel (pre ++ lead ++ String dquote (text ++ String dquote rest))
      (String.length pre + String.length lead + String.length text + 2)
      (count_text text total).
Proof.
  intros Hlead Htext. cbn [quoted_loop].
  rewrite find_char_skip, (find_char0_free_hit dquote lead _ Hlead). cbn [option_map].
  set (content := pre ++ lead ++ String dquote (text ++ String dquote rest)).
  assert (Hsplit : content
                   = (pre ++ lead ++ String dquote "") ++ text ++ String dquote rest).
  { unfold content. rewrite !append_assoc. reflexivity. }
  assert (Hlen : String.length (pre ++ lead ++ String dquote "")
                 = (String.length pre + String.length lead + 1)%nat).
  { rewrite !length_append. simpl. lia. }
  assert (Hfind : Str.find_char dquote content
                    (String.length pre + String.length lead + 1)
                  = Some (String.length pre + String.length lead + 1
                          + String.length text)%nat).
  { rewrite <- Hlen, Hsplit, find_char_skip,
      (find_char0_free_hit dquote text _ Htext). reflexivity. }
  rewrite Hfind.
  assert (Hsub : Str.substr content (String.length pre + String.length lead + 1)
                   (String.length pre + String.length lead + 1 + String.length text
                    - (String.length pre + String.length lead) - 1)
                 = text).
  { replace (String.length pre + String.length lead + 1 + String.length text
             - (String.length pre + String.length lead) - 1)%nat
      with (String.length text) by lia.
    rewrite <- Hlen, Hsplit. apply substring_middle. }
  rewrite Hsub. f_equal. lia.
Qed.

(** The loop over a rendered array counts the texts one after the other. *)
Lemma quoted_loop_render (ts : list (string * string)) :
  forall (pre lead : string) (fuel : nat) (total : Z),
    free_of dquote lead ->
    Forall (fun t => free_of dquote (fst t) /\ free_of dquote (snd t)) ts ->
    (String.length (pre ++ lead ++ render_transcripts ts) < String.length pre + fuel)%nat ->
    quoted_loop fuel (pre ++ lead ++ render_transcripts ts) (String.length pre) total
    = (total + sum_widths non_backslash_bytes ts)%Z.
Proof.
  induction ts as [|[text sep] rest IH]; intros pre lead fuel total Hlead Hall Hfuel.
  - destruct fuel as [|fuel]; [rewrite length_append in Hfuel; lia|].
    cbn [render_transcripts quoted_loop sum_widths].
    rewrite find_char_skip.
    rewrite (free_of_append dquote lead "" Hlead eq_refl). cbn. lia.
  - inversion Hall as [|x l [Htext Hsep] Hrest]; subst. cbn [fst snd] in *.
    cbn [render_transcripts sum_widths] in *. unfold quoted in *.
    assert (Hshape : String dquote (text ++ String dquote "") ++ sep ++ render_transcripts rest
                     = String dquote (text ++ String dquote (sep ++ render_transcripts rest))).
    { simpl. rewrite append_assoc. reflexivity. }
    rewrite Hshape in *.
    destruct fuel as [|fuel].
    { rewrite !length_append in Hfuel. simpl in Hfuel. lia. }
    rewrite (quoted_loop_step fuel pre lead text _ total Hlead Htext).
    assert (Hpre : pre ++ lead ++ String dquote (text ++ String dquote (sep ++ render_transcripts rest))
                   = (pre ++ lead ++ String dquote (text ++ String dquote ""))
                       ++ sep ++ render_transcripts rest).
    { rewrite !append_assoc. simpl. rewrite !append_assoc. reflexivity. }
    assert (Hlen : String.length (pre ++ lead ++ String dquote (text ++ String dquote ""))
                   = (String.length pre + String.length lead + String.length text + 2)%nat).
    { rewrite !length_append. simpl. rewrite length_append. simpl. lia. }
    rewrite Hpre in Hfuel |- *. rewrite <- Hlen.
    rewrite (IH _ sep fuel (count_text text total) Hsep Hrest).
    + rewrite count_text_acc. lia.
    + rewrite length_append in Hfuel |- *. rewrite Hlen in *.
      rewrite !length_append in *. lia.
Qed.

Lemma render_transcripts_free (c : ascii) (ts : list (string * string)) :
  Ascii.eqb dquote c = false ->
  Forall (fun t => free_of c (fst t) /\ free_of c (snd t)) ts ->
  free_of c (render_transcripts ts).
Proof.
  intros Hc Hall. induction Hall as [|[text sep] rest [Ht Hs] _ IH]; [reflexivity|].
  cbn [render_transcripts fst snd] in *. unfold quoted.
  apply free_of_append; [|apply free_of_append; assumption].
  unfold free_of. cbn [Str.find_char0]. rewrite Hc.
  assert (H : free_of c (text ++ String dquote "")).
  { apply free_of_append; [exact Ht|]. unfold free_of. cbn [Str.find_char0].
    rewrite Hc. reflexivity. }
  unfold free_of in H. rewrite H. reflexivity.
Qed.

(** The count of one well-printed result. *)
Lemma count_output_render (p : Printed) (total : Z) :
  well_printed p ->
  count_output (render p) total
  = (total + sum_widths non_backslash_bytes (transcripts p))%Z.
Proof.
  intros (Hkey & Hlq & Hlb & Hall).
  set (content := array_lead p ++ render_transcripts (transcripts p)).
  assert (Hq : Forall (fun t => free_of dquote (fst t) /\ free_of dquote (snd t))
                 (transcripts p)).
  { eapply Forall_impl; [|exact Hall]. intros t (H1 & _ & H3 & _). auto. }
  assert (Hb : Forall (fun t => free_of "]"%char (fst t) /\ free_of "]"%char (snd t))
                 (transcripts p)).
  { eapply Forall_impl; [|exact Hall]. intros t (_ & H2 & _ & H4). auto. }
  assert (Hcb : free_of "]"%char content).
  { apply free_of_append; [exact Hlb|].
    apply render_transcripts_free; [reflexivity|exact Hb]. }
  set (head := String dquote ("rec_texts" ++ String dquote ": ")).
  assert (Hrender : render p
                    = (before_key p ++ head) ++ String "["%char (content ++ String "]"%char (after_array p))).
  { unfold render, content, head, rec_texts_key. rewrite !append_assoc. reflexivity. }
  assert (Hrender' : render p
                     = (before_key p ++ rec_texts_key) ++ content ++ String "]"%char (after_array p)).
  { unfold render, content. rewrite !append_assoc. reflexivity. }
  assert (Hrender0 : render p
                     = before_key p ++ rec_texts_key ++ content ++ String "]"%char (after_array p)).
  { unfold render, content. rewrite !append_assoc. reflexivity. }
  assert (Hlen_head : String.length (before_key p ++ head)
                      = (String.length (before_key p) + 13)%nat).
  { rewrite length_append. reflexivity. }
  assert (Hlen_key : String.length (before_key p ++ rec_texts_key)
                     = (String.length (before_key p) + 13 + 1)%nat).
  { rewrite length_append. cbn. lia. }
  unfold count_output. rewrite Hkey.
  assert (Hstart : Str.find_char "["%char (render p) (String.length (before_key p))
                   = Some (String.length (before_key p) + 13)%nat).
  { rewrite Hrender0, find_char_skip. reflexivity. }
  rewrite Hstart.
  assert (Hend : Str.find_char "]"%char (render p) (String.length (before_key p) + 13)
                 = Some (String.length (before_key p) + 13 + 1 + String.length content)%nat).
  { rewrite <- Hlen_head, Hrender, find_char_skip. cbn [Str.find_char0].
    change (Ascii.eqb "["%char "]"%char) with false. cbn iota.
    rewrite (find_char0_free_hit "]"%char content _ Hcb). cbn [option_map].
    f_equal. lia. }
  rewrite Hend.
  replace (String.length (before_key p) + 13 + 1 + String.length content
           - (String.length (before_key p) + 13) - 1)%nat
    with (String.length content) by lia.
  rewrite <- Hlen_key. rewrite Hrender' at 1. rewrite substring_middle.
  unfold count_quoted.
  apply (quoted_loop_render (transcripts p) "" (array_lead p)
           (S (String.length content)) total Hlq Hq).
  cbn [append String.length]. fold content. lia.
Qed.

(** The count of the outputs of a run, all well printed. *)
Lemma count_outputs_render (ps : list Printed) :
  Forall well_printed ps ->
  forall total,
    count_outputs (map (fun p => Some (render p)) ps) total
    = (total + sum_printed non_backslash_bytes ps)%Z.
Proof.
  induction 1 as [|p rest Hp _ IH]; intros total; cbn [map count_outputs sum_printed].
  - lia.
  - rewrite IH, (count_output_render p total Hp). lia.
Qed.

(** Why the transcripts must be free of closing brackets: the array is cut
    at the first one, and the text after an unpaired quote is not counted. *)
Example bracket_in_transcript_truncates :
  count_output (render (mkPrinted "{" "" [("a]b", ", "); ("cd", "")] "}")) 0 = 0%Z
  /\ sum_widths non_backslash_bytes [("a]b", ", "); ("cd", "")] = 5%Z.
Proof. vm_compute. split; reflexivity. Qed.

(** C8, as the code has it.  For outputs that are printed unambiguously
    (no double quote and no closing bracket inside a serialized transcript),
    the total character count of an image is the sum, over the transcripts
    of the rec_texts arrays of the outputs of the first run, of the number
    of bytes other than the backslash: the backslash alone has no width,
    and the character that follows it is counted. *)
Theorem C8_total_chars_counts_non_backslash_bytes (w : World) (image_path : string)
    (st st1 : State) (loc : RunLocals) (elapsed_ns : Z) (ps : list Printed) :
  Forall well_printed ps ->
  Predict w (predict_calls st) image_path
    = PredictReturns elapsed_ns (map (fun p => Some (render p)) ps) ->
  repetition_loop w image_path 3 0 st initial_locals = (st1, inl loc) ->
  loc_total_chars loc = sum_printed non_backslash_bytes ps
  /\ count_outputs (map (fun p => Some (render p)) ps) 0
     = sum_printed non_backslash_bytes ps.
Proof.
  intros Hwf Hpredict Hloop.
  apply repetition_loop_completes in Hloop.
  destruct Hloop as (ns0 & o0 & ns1 & o1 & ns2 & o2 & P0 & _ & _ & _ & ->).
  rewrite Hpredict in P0. injection P0 as _ <-.
  cbn [loc_total_chars]. rewrite (count_outputs_render ps Hwf 0). split; reflexivity.
Qed.

Lemma C8_total_chars_counts_non_backslash_bytes_witness :
  let w := mkWorld files_only None
             (fun _ _ => PredictReturns 500000000 [Some (render escaped_printed)])
             scorer_ok stod_decimal in
  Forall well_printed [escaped_printed]
  /\ loc_total_chars
       (mkLocals [500; 500; 500]%float [Some (render escaped_printed)]
          (count_outputs [Some (render escaped_printed)] 0))
     = 3%Z.
Proof.
  cbv zeta.
  assert (Hwf : Forall well_printed [escaped_printed]).
  { constructor; [|constructor]. vm_compute. repeat split; try reflexivity.
    constructor; [|constructor]. repeat split; reflexivity. }
  split; [exact Hwf|].
  destruct (C8_total_chars_counts_non_backslash_bytes
              (mkWorld files_only None
                 (fun _ _ => PredictReturns 500000000 [Some (render escaped_printed)])
                 scorer_ok stod_decimal)
              "a.png" (initial_state []) (mkState 3 0 [] 0 0 [] [])
              (mkLocals [500; 500; 500]%float [Some (render escaped_printed)]
                 (count_outputs [Some (render escaped_printed)] 0))
              500000000 [escaped_printed] Hwf)
    as [H _].
  - reflexivity.
  - vm_compute. reflexivity.
  - rewrite H. vm_compute. reflexivity.
Defined.

(** C8, as the specification states it.  The transcript a, backslash, n,
    b, backslash, backslash has four characters, two of them escaped.  With
    zero width for an escaped character it would count 2 (or 4, if the
    backslashes of the serialized field are themselves counted); the code
    counts the three bytes a, n and b. *)
Lemma C8_escaped_character_is_counted :
  count_outputs [Some (render escaped_printed)] 0 = 3%Z
  /\ sum_printed spec_text_width [escaped_printed] = 2%Z
  /\ sum_printed spec_text_width_serialized [escaped_printed] = 4%Z
  /\ ~ (forall ps : list Printed,
          Forall well_printed ps ->
          count_outputs (map (fun p => Some (render p)) ps) 0
          = sum_printed spec_text_width ps)
  /\ ~ (forall ps : list Printed,
          Forall well_printed ps ->
          count_outputs (map (fun p => Some (render p)) ps) 0
          = sum_printed spec_text_width_serialized ps).
Proof.
  assert (Hwf : Forall well_printed [escaped_printed]).
  { constructor; [|constructor]. vm_compute. repeat split; try reflexivity.
    constructor; [|constructor]. repeat split; reflexivity. }
  split; [vm_compute; reflexivity|].
  split; [vm_compute; reflexivity|].
  split; [vm_compute; reflexivity|].
  split; intros H; specialize (H [escaped_printed] Hwf); vm_compute in H; discriminate.
Qed.

(** * Further properties of the driver *)

(** ** [isImageFile] *)

(** With no dot after it, the text after a dot decides alone. *)
Lemma isImageFile_extension (stem ext : string) :
  ~ In "."%char (list_ascii_of_string ext) ->
  isImageFile (stem ++ "." ++ ext)
  = existsb (String.eqb (Str.transform_tolower ext)) extension_whitelist.
Proof.
  intros Hext. unfold isImageFile.
  assert (E : Str.find_last_of "." (stem ++ "." ++ ext) = Some (String.length stem)).
  { apply find_last_of_some. exists stem, ext. auto. }
  rewrite E, substr_from_app. cbn [append Str.transform_tolower].
  change (Str.tolower ".") with "."%char.
  assert (Hcmp : forall e : string,
             String.eqb (String "." (Str.transform_tolower ext)) (String "." e)
             = String.eqb (Str.transform_tolower ext) e) by reflexivity.
  rewrite !Hcmp. cbn [existsb extension_whitelist]. rewrite orb_false_r, !orb_assoc.
  reflexivity.
Qed.

(** The letter case of the extension and the text before the last dot do
    not matter to [isImageFile]. *)
Theorem isImageFile_case_insensitive (stem stem' ext ext' : string) :
  ~ In "."%char (list_ascii_of_string ext) ->
  ~ In "."%char (list_ascii_of_string ext') ->
  Str.transform_tolower ext = Str.transform_tolower ext' ->
  isImageFile (stem ++ "." ++ ext) = isImageFile (stem' ++ "." ++ ext').
Proof.
  intros H1 H2 Heq. rewrite !isImageFile_extension by assumption.
  rewrite Heq. reflexivity.
Qed.

Lemma isImageFile_case_insensitive_witness :
  isImageFile ("photos/a" ++ "." ++ "JpEg") = isImageFile ("b" ++ "." ++ "jpeg")
  /\ isImageFile ("b" ++ "." ++ "jpeg") = true.
Proof.
  split; [|reflexivity].
  apply isImageFile_case_insensitive.
  - cbn. intros [H|[H|[H|[H|[]]]]]; discriminate.
  - cbn. intros [H|[H|[H|[H|[]]]]]; discriminate.
  - reflexivity.
Defined.

Lemma transform_tolower_keeps_slash (s : string) :
  In "/"%char (list_ascii_of_string s) ->
  In "/"%char (list_ascii_of_string (Str.transform_tolower s)).
Proof.
  induction s as [|c r IH]; simpl; [auto|].
  intros [->|H]; [left; reflexivity|right; auto].
Qed.

(** The extension is the text after the last dot of the whole path, not of
    its last component: a path whose last dot is followed by a text that
    holds a slash (the dot belongs to the name of a directory) is not an
    image, whatever that text; and a path without a dot is not an image. *)
Theorem isImageFile_rejects_dot_of_directory :
  (forall stem ext : string,
      ~ In "."%char (list_ascii_of_string ext) ->
      In "/"%char (list_ascii_of_string ext) ->
      isImageFile (stem ++ "." ++ ext) = false)
  /\ (forall path : string,
        ~ In "."%char (list_ascii_of_string path) ->
        isImageFile path = false).
Proof.
  split.
  - intros stem ext Hdot Hslash.
    rewrite (isImageFile_extension stem ext Hdot).
    apply transform_tolower_keeps_slash in Hslash.
    apply not_true_is_false. intros H. apply existsb_exists in H.
    destruct H as (e & He & Heq). apply String.eqb_eq in Heq. rewrite Heq in Hslash.
    cbn in He.
    destruct He as [<-|[<-|[<-|[<-|[<-|[]]]]]]; cbn in Hslash;
      repeat (destruct Hslash as [Hslash|Hslash]; [discriminate|]); exact Hslash.
  - intros path Hdot.
    unfold isImageFile. apply find_last_of_none in Hdot. rewrite Hdot. reflexivity.
Qed.

Lemma isImageFile_rejects_dot_of_directory_witness :
  isImageFile ("scans" ++ "." ++ "png/cover") = false
  /\ isImageFile "png" = false.
Proof.
  split.
  - apply (proj1 isImageFile_rejects_dot_of_directory).
    + cbn. intuition discriminate.
    + cbn. intuition auto.
  - apply (proj2 isImageFile_rejects_dot_of_directory).
    cbn. intuition discriminate.
Defined.

(** ** The vector of discovered paths only grows *)

(** The traversal appends to the vector that it is given. *)
Lemma collect_appends (dir : fsnode) :
  forall (dirPath : string) (imagePaths : list string),
    collectImagesFromDirectory dirPath dir imagePaths
    = (imagePaths ++ collectImagesFromDirectory dirPath dir [])%list
    /\ Forall (fun path => exists rel, path = dirPath ++ "/" ++ rel)
         (collectImagesFromDirectory dirPath dir []).
Proof.
  induction dir as [| | |entries IH] using fsnode_tree_ind; intros dirPath imagePaths;
    try (simpl; rewrite app_nil_r; split; [reflexivity|constructor]).
  revert imagePaths.
  induction IH as [|[name child] rest Hchild _ IHrest]; intros imagePaths.
  - rewrite !collect_nil, app_nil_r. split; [reflexivity|constructor].
  - cbn [snd] in Hchild. rewrite !collect_cons.
    set (step := fun acc : list string =>
           if is_dot_entry name then acc
           else if isDirectory child then
                  collectImagesFromDirectory (dirPath ++ "/" ++ name) child acc
           else if isFile child && isImageFile (dirPath ++ "/" ++ name) then
                  (acc ++ [(dirPath ++ "/" ++ name)%string])%list
           else acc).
    change (collectImagesFromDirectory dirPath (Directory (Some rest)) (step imagePaths)
            = (imagePaths
               ++ collectImagesFromDirectory dirPath (Directory (Some rest)) (step []))%list
            /\ Forall (fun path => exists rel, path = dirPath ++ "/" ++ rel)
                 (collectImagesFromDirectory dirPath (Directory (Some rest)) (step []))).
    assert (Hstep : step imagePaths = (imagePaths ++ step [])%list
                    /\ Forall (fun path => exists rel, path = dirPath ++ "/" ++ rel)
                         (step [])).
    { unfold step. destruct (is_dot_entry name).
      - rewrite app_nil_r. split; [reflexivity|constructor].
      - destruct (isDirectory child).
        + destruct (Hchild (dirPath ++ "/" ++ name) imagePaths) as [Happ Hall].
          split; [exact Happ|].
          eapply Forall_impl; [|exact Hall].
          intros path (rel & ->). exists (name ++ "/" ++ rel).
          rewrite !append_assoc. reflexivity.
        + destruct (isFile child && isImageFile (dirPath ++ "/" ++ name)).
          * split; [reflexivity|]. constructor; [|constructor]. exists name. reflexivity.
          * rewrite app_nil_r. split; [reflexivity|constructor]. }
    destruct Hstep as [Happ Hall].
    destruct (IHrest (step imagePaths)) as [H1 _].
    destruct (IHrest (step [])) as [H2 Hrest].
    split.
    + rewrite H1, H2, Happ, app_assoc. reflexivity.
    + rewrite H2. apply Forall_app. split; assumption.
Qed.

(** A traversal appends to the vector, and what it appends does not depend
    on what the vector held; every appended path lies below the directory. *)
Theorem collectImagesFromDirectory_appends (dir : fsnode) :
  forall (dirPath : string) (imagePaths : list string),
    collectImagesFromDirectory dirPath dir imagePaths
    = (imagePaths ++ collectImagesFromDirectory dirPath dir [])%list
    /\ Forall (fun path => exists rel, path = dirPath ++ "/" ++ rel)
         (collectImagesFromDirectory dirPath dir []).
Proof.
  intros dirPath imagePaths.
  destruct (collect_appends dir dirPath imagePaths) as [Happ Hall].
  split; [exact Happ|exact Hall].
Qed.

(** The argument loop appends to both of its accumulators. *)
Lemma collectImagePaths_loop_appends (stat : string -> fsnode) (args : list string) :
  forall (imagePaths : list string) (cerr0 : list diag),
    collectImagePaths_loop stat args imagePaths cerr0
    = ((imagePaths ++ fst (collectImagePaths stat args))%list,
       (cerr0 ++ snd (collectImagePaths stat args))%list).
Proof.
  unfold collectImagePaths.
  induction args as [|a rest IH]; intros imagePaths cerr0.
  - simpl. rewrite !app_nil_r. reflexivity.
  - cbn [collectImagePaths_loop app].
    destruct (isDirectory (stat a)).
    + rewrite (IH (collectImagesFromDirectory a (stat a) imagePaths) cerr0).
      rewrite (IH (collectImagesFromDirectory a (stat a) []) []).
      cbn [fst snd app].
      rewrite (proj1 (collect_appends (stat a) a imagePaths)).
      rewrite app_assoc. reflexivity.
    + destruct (isFile (stat a) && isImageFile a).
      * rewrite (IH (imagePaths ++ [a])%list cerr0), (IH [a] []).
        cbn [fst snd app]. rewrite <- app_assoc. reflexivity.
      * rewrite (IH imagePaths (cerr0 ++ [WarnSkippingInvalidPath a])%list),
          (IH [] [WarnSkippingInvalidPath a]).
        cbn [fst snd app]. rewrite <- app_assoc. reflexivity.
Qed.

Lemma collectImagePaths_loop_app (stat : string -> fsnode) (args1 args2 : list string) :
  forall (imagePaths : list string) (cerr0 : list diag),
    collectImagePaths_loop stat (args1 ++ args2) imagePaths cerr0
    = collectImagePaths_loop stat args2
        (fst (collectImagePaths_loop stat args1 imagePaths cerr0))
        (snd (collectImagePaths_loop stat args1 imagePaths cerr0)).
Proof.
  induction args1 as [|a rest IH]; intros imagePaths cerr0; [reflexivity|].
  cbn [app collectImagePaths_loop].
  destruct (isDirectory (stat a)); [apply IH|].
  destruct (isFile (stat a) && isImageFile a); apply IH.
Qed.

(** Discovery treats the arguments one after the other and independently:
    the paths and the warnings of a list of arguments are those of its parts,
    in order.  Nothing is deduplicated: arguments given twice give every one
    of their images, and every one of their warnings, twice. *)
Theorem collectImagePaths_concatenates (stat : string -> fsnode)
    (args1 args2 : list string) :
  collectImagePaths stat (args1 ++ args2)
  = ((fst (collectImagePaths stat args1) ++ fst (collectImagePaths stat args2))%list,
     (snd (collectImagePaths stat args1) ++ snd (collectImagePaths stat args2))%list)
  /\ collectImagePaths stat (args1 ++ args1)
     = ((fst (collectImagePaths stat args1) ++ fst (collectImagePaths stat args1))%list,
        (snd (collectImagePaths stat args1) ++ snd (collectImagePaths stat args1))%list).
Proof.
  assert (H : forall a1 a2,
             collectImagePaths stat (a1 ++ a2)
             = ((fst (collectImagePaths stat a1) ++ fst (collectImagePaths stat a2))%list,
                (snd (collectImagePaths stat a1) ++ snd (collectImagePaths stat a2))%list)).
  { intros a1 a2. unfold collectImagePaths at 1.
    rewrite collectImagePaths_loop_app, collectImagePaths_loop_appends. reflexivity. }
  split; apply H.
Qed.

(** ** [basename] (Benchmark.cpp, lines 340-344) *)

Lemma substr_from_after (stem ext : string) (c : ascii) :
  Str.substr_from (stem ++ String c ext) (String.length stem + 1) = ext.
Proof.
  induction stem as [|a stem IH]; simpl; [destruct ext; reflexivity|exact IH].
Qed.

Lemma basename_spec_slash (image_path : string) :
  ~ In "/"%char (list_ascii_of_string (basename image_path))
  /\ (forall dir file : string,
        ~ In "/"%char (list_ascii_of_string file) ->
        image_path = dir ++ "/" ++ file -> basename image_path = file)
  /\ (~ In "/"%char (list_ascii_of_string image_path) -> basename image_path = image_path).
Proof.
  assert (Hfree : ~ In "/"%char (list_ascii_of_string (basename image_path))).
  { unfold basename.
    destruct (Str.find_last_of "/" image_path) as [i|] eqn:E.
    - apply find_last_of_some in E. destruct E as (stem & ext & -> & Hext & ->).
      rewrite substr_from_after. exact Hext.
    - apply find_last_of_none in E. exact E. }
  repeat split.
  - exact Hfree.
  - intros dir file Hfile ->. unfold basename.
    assert (E : Str.find_last_of "/" (dir ++ "/" ++ file) = Some (String.length dir)).
    { apply find_last_of_some. exists dir, file. auto. }
    rewrite E. apply substr_from_after.
  - intros Hp. unfold basename. apply find_last_of_none in Hp. rewrite Hp. reflexivity.
Qed.

(** The file name given to the scorer never holds a slash; it is the part
    after the last slash of the path, and the whole path when there is no
    slash; taking it twice changes nothing. *)
Theorem basename_spec (image_path : string) :
  ~ In "/"%char (list_ascii_of_string (basename image_path))
  /\ (forall dir file : string,
        ~ In "/"%char (list_ascii_of_string file) ->
        image_path = dir ++ "/" ++ file -> basename image_path = file)
  /\ (~ In "/"%char (list_ascii_of_string image_path) -> basename image_path = image_path)
  /\ basename (basename image_path) = basename image_path.
Proof.
  destruct (basename_spec_slash image_path) as (H1 & H2 & H3).
  repeat split; try assumption.
  apply (basename_spec_slash (basename image_path)), H1.
Qed.

(** ** Failures of the scoring call, seen from the loop *)

(** The two ways in which [ExecuteCommand] returns false.  When [popen]
    itself fails, two errors are logged and the captured output is empty;
    when the scorer exits with a status other than 0, one error is logged
    with everything the scorer printed.  Either way the record with the
    literal accuracy is written, the latency is kept, the scorer has been
    called once and no counter moves. *)
Theorem scoring_call_failure_is_logged (w : World) (size i : nat) (image_path : string)
    (st st1 : State) (loc : RunLocals) (captured : string) (logged : list diag) :
  repetition_loop w image_path 3 0 st initial_locals = (st1, inl loc) ->
  Forall (fun output => output <> None) (final_outputs loc) ->
  (popen w (popen_calls st) (command_of w image_path) = PopenFails
   /\ captured = ""
   /\ logged = [ErrPopenFailed; ErrAccuracyExecFailed (basename image_path) ""])
  \/ (exists exit_status,
        popen w (popen_calls st) (command_of w image_path)
          = PopenRuns captured exit_status
        /\ exit_status <> 0%Z
        /\ logged = [ErrAccuracyExecFailed (basename image_path) captured]) ->
  let st' := loop_body w size i image_path st in
  cerr st' = (cerr st ++ logged)%list
  /\ cout st'
     = (cout st ++ [PER_IMAGE_RESULT (image_record loc image_path AccLiteralZero)])%list
  /\ inference_times st' = (inference_times st ++ [average_ms (run_times loc)])%list
  /\ popen_calls st' = S (popen_calls st)
  /\ successful_count st' = successful_count st
  /\ failed_count st' = failed_count st.
Proof.
  intros E1 Hs Hpopen st'. subst st'. apply save_outputs_spec in Hs.
  pose proof (repetition_loop_frame _ _ _ _ _ _ _ _ E1) as (F1 & F2 & F3 & F4 & F5 & F6).
  assert (Hexec : exists st3,
             ExecuteCommand w (command_of w image_path) (after_runs loc st1)
             = (st3, false, captured)
             /\ cerr st3 = (cerr st ++ removelast logged)%list
             /\ popen_calls st3 = S (popen_calls st)
             /\ inference_times st3
                = (inference_times st ++ [average_ms (run_times loc)])%list
             /\ cout st3 = cout st
             /\ successful_count st3 = successful_count st
             /\ failed_count st3 = failed_count st
             /\ logged = (removelast logged
                          ++ [ErrAccuracyExecFailed (basename image_path) captured])%list).
  { unfold ExecuteCommand, after_runs. cbn [popen_calls push_inference_time]. rewrite F1.
    destruct Hpopen as [(Hp & -> & ->)|(code & Hp & Hcode & ->)]; rewrite Hp.
    - eexists. split; [reflexivity|]. cbn. rewrite F1, F2, F3, F4, F5, F6.
      repeat split; reflexivity.
    - apply Z.eqb_neq in Hcode. rewrite Hcode.
      eexists. split; [reflexivity|]. cbn. rewrite F1, F2, F3, F4, F5, F6, app_nil_r.
      repeat split; reflexivity. }
  destruct Hexec as (st3 & E2 & G1 & G2 & G3 & G4 & G5 & G6 & Hlog).
  unfold loop_body. rewrite (try_block_scorer_failed _ _ _ _ _ _ _ E1 Hs E2).
  cbn. rewrite G1, G2, G3, G4, G5, G6. rewrite Hlog at 2. rewrite app_assoc.
  repeat split; reflexivity.
Qed.

Lemma scoring_call_failure_is_logged_witness :
  let st := loop_body world_scorer_exit1 3 0 "a.png" (initial_state []) in
  let st' := loop_body world_scorer_exit1 3 1 "b.png" st in
  cerr st' = (cerr st ++ [ErrAccuracyExecFailed "b.png" "FileNotFoundError"])%list
  /\ popen_calls st' = S (popen_calls st).
Proof.
  cbv zeta.
  destruct (scoring_call_failure_is_logged world_scorer_exit1 3 1 "b.png"
              (loop_body world_scorer_exit1 3 0 "a.png" (initial_state []))
              (mkState 6 1 [500%float] 1 0
                 (cout (loop_body world_scorer_exit1 3 0 "a.png" (initial_state []))) [])
              (mkLocals [500%float; 500%float; 500%float] [Some (render sample_printed)] 7)
              "FileNotFoundError"
              [ErrAccuracyExecFailed "b.png" "FileNotFoundError"])
    as (H1 & _ & _ & H4 & _).
  - vm_compute. reflexivity.
  - cbn [final_outputs]. constructor; [discriminate|constructor].
  - right. exists 1%Z.
    split; [vm_compute; reflexivity|split; [discriminate|reflexivity]].
  - split; [exact H1|exact H4].
Defined.

(** An exception of [std::stod], after the runs and the scoring call: the
    image is counted as failed and gets no record, but its latency stays in
    the list from which the statistics are computed, and the scorer has
    been called. *)
Theorem stod_exception_fails_image_but_keeps_latency (w : World) (size i : nat)
    (image_path : string) (st st1 : State) (loc : RunLocals) (output : string)
    (json_start : nat) :
  repetition_loop w image_path 3 0 st initial_locals = (st1, inl loc) ->
  Forall (fun output => output <> None) (final_outputs loc) ->
  popen w (popen_calls st) (command_of w image_path) = PopenRuns output 0 ->
  Str.find single_acc_prefix output 0 = Some json_start ->
  parse_accuracy w
    (Str.substr_from output (json_start + String.length single_acc_prefix)) = None ->
  let st' := loop_body w size i image_path st in
  failed_count st' = (failed_count st + 1)%Z
  /\ successful_count st' = successful_count st
  /\ records (cout st') = records (cout st)
  /\ inference_times st' = (inference_times st ++ [average_ms (run_times loc)])%list
  /\ popen_calls st' = S (popen_calls st)
  /\ cerr st' = (cerr st ++ [ErrFailedToProcess image_path "stod"])%list.
Proof.
  intros E1 Hs Hp Hfind Hparse st'. subst st'. apply save_outputs_spec in Hs.
  pose proof (repetition_loop_frame _ _ _ _ _ _ _ _ E1) as (F1 & F2 & F3 & F4 & F5 & F6).
  assert (E2 : ExecuteCommand w (command_of w image_path) (after_runs loc st1)
               = (tick_popen (after_runs loc st1), true, output)).
  { unfold ExecuteCommand, after_runs. cbn [popen_calls push_inference_time].
    rewrite F1, Hp. reflexivity. }
  unfold loop_body. rewrite (try_block_stod_throws _ _ _ _ _ _ _ _ E1 Hs E2 Hfind Hparse).
  progress_frame i size (catch_handler image_path "stod" (tick_popen (after_runs loc st1))).
  unfold after_runs in *. cbn in *.
  repeat split; congruence.
Qed.

(** The scorer's line carries the key and nothing a number could be read
    from. *)
Lemma stod_exception_fails_image_but_keeps_latency_witness :
  let w := mkWorld files_only None steady_predict
             (fun _ _ =>
                PopenRuns ("SINGLE_ACC: {" ++ quoted "character_accuracy" ++ ": }") 0)
             stod_decimal in
  let st' := loop_body w 1 0 "a.png" (initial_state []) in
  failed_count st' = 1%Z
  /\ records (cout st') = []
  /\ inference_times st' = [500%float].
Proof.
  cbv zeta.
  destruct (stod_exception_fails_image_but_keeps_latency
              (mkWorld files_only None steady_predict
                 (fun _ _ =>
                    PopenRuns ("SINGLE_ACC: {" ++ quoted "character_accuracy" ++ ": }") 0)
                 stod_decimal)
              1 0 "a.png" (initial_state []) (mkState 3 0 [] 0 0 [] [])
              (mkLocals [500%float; 500%float; 500%float] [Some (render sample_printed)] 7)
              ("SINGLE_ACC: {" ++ quoted "character_accuracy" ++ ": }") 0)
    as (H1 & _ & H3 & H4 & _).
  - vm_compute. reflexivity.
  - cbn [final_outputs]. constructor; [discriminate|constructor].
  - reflexivity.
  - vm_compute. reflexivity.
  - vm_compute. reflexivity.
  - split; [exact H1|split; [exact H3|]]. rewrite H4. vm_compute. reflexivity.
Defined.

(** ** Reading the accuracy (Benchmark.cpp, lines 373-384) *)

Lemma index_skip (needle pre s : string) :
  String.index (String.length pre) needle (pre ++ s)
  = option_map (Nat.add (String.length pre)) (String.index 0 needle s).
Proof.
  induction pre as [|a pre IH]; simpl.
  - destruct (String.index 0 needle s); reflexivity.
  - rewrite IH. destruct (String.index 0 needle s); reflexivity.
Qed.

Lemma prefix_empty (s : string) : String.prefix "" s = true.
Proof. destruct s; reflexivity. Qed.

(** The first colon at or after the key is the colon of the key. *)
Lemma index_colon_of_key (rest : string) :
  String.index 0 ":" (character_accuracy_key ++ rest) = Some 20%nat.
Proof.
  unfold character_accuracy_key. cbn -[String.prefix].
  cbn. destruct rest; reflexivity.
Qed.

Lemma find_first_of_skip (set pre s : string) :
  Str.find_first_of set (pre ++ s) (String.length pre)
  = option_map (Nat.add (String.length pre)) (Str.find_first_of0 set s).
Proof.
  induction pre as [|a pre IH]; simpl.
  - destruct (Str.find_first_of0 set s); reflexivity.
  - rewrite IH. destruct (Str.find_first_of0 set s); reflexivity.
Qed.

Lemma mem_comma_brace (c : ascii) :
  Str.mem c ",}" = Ascii.eqb c "," || Ascii.eqb c "}".
Proof.
  cbn [Str.mem]. rewrite orb_false_r, (Ascii.eqb_sym "," c), (Ascii.eqb_sym "}" c).
  reflexivity.
Qed.

Lemma free_of_cons (c a : ascii) (s : string) :
  free_of c (String a s) -> Ascii.eqb a c = false /\ free_of c s.
Proof.
  unfold free_of. cbn [Str.find_char0].
  destruct (Ascii.eqb a c); [discriminate|].
  destruct (Str.find_char0 c s); [discriminate|]. auto.
Qed.

Lemma find_first_of0_hit (value rest : string) (d : ascii) :
  free_of ","%char value -> free_of "}"%char value -> Str.mem d ",}" = true ->
  Str.find_first_of0 ",}" (value ++ String d rest) = Some (String.length value).
Proof.
  intros H1 H2 Hd.
  induction value as [|c value IH]; cbn [append Str.find_first_of0 String.length].
  - rewrite Hd. reflexivity.
  - apply free_of_cons in H1. apply free_of_cons in H2.
    destruct H1 as [E1 H1], H2 as [E2 H2].
    rewrite mem_comma_brace, E1, E2. cbn [orb]. rewrite (IH H1 H2). reflexivity.
Qed.

Lemma find_first_of0_miss (value : string) :
  free_of ","%char value -> free_of "}"%char value ->
  Str.find_first_of0 ",}" value = None.
Proof.
  intros H1 H2.
  induction value as [|c value IH]; cbn [Str.find_first_of0]; [reflexivity|].
  apply free_of_cons in H1. apply free_of_cons in H2.
  destruct H1 as [E1 H1], H2 as [E2 H2].
  rewrite mem_comma_brace, E1, E2. cbn [orb]. rewrite (IH H1 H2). reflexivity.
Qed.

(** The value of the first character_accuracy key, as the code cuts it. *)
Lemma parse_accuracy_value (w : World) (pre value rest : string) (d : ascii) :
  Str.find character_accuracy_key
    (pre ++ character_accuracy_key ++ value ++ String d rest) 0
  = Some (String.length pre) ->
  d = ","%char \/ d = "}"%char ->
  free_of ","%char value -> free_of "}"%char value ->
  parse_accuracy w (pre ++ character_accuracy_key ++ value ++ String d rest)
  = stod w (Str.remove_spaces value)
  /\ (Str.find character_accuracy_key (pre ++ character_accuracy_key ++ value) 0
      = Some (String.length pre) ->
      parse_accuracy w (pre ++ character_accuracy_key ++ value) = Some 0%float)
  /\ (forall json, Str.find character_accuracy_key json 0 = None ->
                   parse_accuracy w json = Some 0%float).
Proof.
  intros Hkey Hd Hc Hb.
  assert (Hlen : String.length (pre ++ character_accuracy_key)
                 = (String.length pre + 20 + 1)%nat).
  { rewrite length_append. cbn. lia. }
  assert (Hcolon : forall tail,
             Str.find ":" (pre ++ character_accuracy_key ++ tail) (String.length pre)
             = Some (String.length pre + 20)%nat).
  { intros tail. unfold Str.find. rewrite index_skip, index_colon_of_key. reflexivity. }
  repeat split.
  - unfold parse_accuracy. rewrite Hkey, Hcolon.
    assert (Hjson : pre ++ character_accuracy_key ++ value ++ String d rest
                    = (pre ++ character_accuracy_key) ++ value ++ String d rest)
      by (rewrite append_assoc; reflexivity).
    assert (Hmem : Str.mem d ",}" = true) by (destruct Hd as [->| ->]; reflexivity).
    assert (Hend : Str.find_first_of ",}"
                     (pre ++ character_accuracy_key ++ value ++ String d rest)
                     (String.length pre + 20 + 1)
                   = Some (String.length pre + 20 + 1 + String.length value)%nat).
    { rewrite <- Hlen, Hjson, find_first_of_skip,
        (find_first_of0_hit value rest d Hc Hb Hmem). reflexivity. }
    rewrite Hend.
    replace (String.length pre + 20 + 1 + String.length value
             - (String.length pre + 20 + 1))%nat with (String.length value) by lia.
    rewrite <- Hlen, Hjson, substring_middle. reflexivity.
  - intros Hkey'. unfold parse_accuracy. rewrite Hkey', Hcolon.
    assert (Hjson : pre ++ character_accuracy_key ++ value
                    = (pre ++ character_accuracy_key) ++ value)
      by (rewrite append_assoc; reflexivity).
    rewrite <- Hlen, Hjson, find_first_of_skip, (find_first_of0_miss value Hc Hb).
    reflexivity.
  - intros json Hnone. unfold parse_accuracy. rewrite Hnone. reflexivity.
Qed.

(** What [std::stod] is given: the text between the colon of the first
    character_accuracy key and the next comma or closing brace, with its
    white space removed.  When the payload has no such key, or nothing ends
    the value, the accuracy is 0.0 and [std::stod] is not consulted. *)
Theorem parse_accuracy_reads_value (w : World) (pre value rest : string) (d : ascii) :
  Str.find character_accuracy_key
    (pre ++ character_accuracy_key ++ value ++ String d rest) 0
  = Some (String.length pre) ->
  d = ","%char \/ d = "}"%char ->
  free_of ","%char value -> free_of "}"%char value ->
  parse_accuracy w (pre ++ character_accuracy_key ++ value ++ String d rest)
  = stod w (Str.remove_spaces value)
  /\ (Str.find character_accuracy_key (pre ++ character_accuracy_key ++ value) 0
      = Some (String.length pre) ->
      parse_accuracy w (pre ++ character_accuracy_key ++ value) = Some 0%float)
  /\ (forall json, Str.find character_accuracy_key json 0 = None ->
                   parse_accuracy w json = Some 0%float).
Proof. apply parse_accuracy_value. Qed.

Lemma parse_accuracy_reads_value_witness :
  parse_accuracy world_no_marker
    ("{" ++ character_accuracy_key ++ " 0.95" ++ String "," " ...}")
  = Some (0x1.e666666666666p-1)%float.
Proof.
  destruct (parse_accuracy_reads_value world_no_marker "{" " 0.95" " ...}" ","%char)
    as (H & _).
  - vm_compute. reflexivity.
  - left. reflexivity.
  - reflexivity.
  - reflexivity.
  - rewrite H. vm_compute. reflexivity.
Defined.

(** ** What a run spends and what it reports *)

Lemma repetition_loop_calls (w : World) (image_path : string) (remaining : nat) :
  forall run st loc st1 res,
    repetition_loop w image_path remaining run st loc = (st1, res) ->
    match res with
    | inl _ => predict_calls st1 = (predict_calls st + remaining)%nat
    | inr _ => (predict_calls st + 1 <= predict_calls st1 <= predict_calls st + remaining)%nat
    end.
Proof.
  induction remaining as [|n IH]; intros run st loc st1 res H; simpl in H.
  - inversion H; subst. lia.
  - destruct (Predict w (predict_calls st) image_path) as [ns outs|what].
    + apply IH in H. destruct res; cbn in H; lia.
    + inversion H; subst. cbn. lia.
Qed.

(** One iteration: a latency is collected exactly when the three runs
    returned, and the scorer is then called unless the process ends on a
    null output; between one and three calls of the engine are made; at
    most one record is written, and only with a latency. *)
Lemma loop_body_accounting (w : World) (size i : nat) (image_path : string) (st : State) :
  let st' := loop_body w size i image_path st in
  let n := List.length (completed_latency w (image_path, st)) in
  (popen_calls st' + (if crashes w (image_path, st) then 1 else 0)
   = popen_calls st + n)%nat
  /\ List.length (inference_times st') = (List.length (inference_times st) + n)%nat
  /\ (predict_calls st + 1 <= predict_calls st' <= predict_calls st + 3)%nat
  /\ (predict_calls st + 3 * n <= predict_calls st')%nat
  /\ (List.length (records (cout st')) <= List.length (records (cout st)) + n)%nat
  /\ (successful_count st <= successful_count st' <= successful_count st + Z.of_nat n)%Z
  /\ (failed_count st <= failed_count st' <= failed_count st + 1)%Z
  /\ (continued w (image_path, st) = true -> n = 1%nat).
Proof.
  cbv zeta.
  pose proof (loop_body_inference_times w size i image_path st) as Htimes.
  apply (f_equal (@List.length float)) in Htimes. rewrite length_app in Htimes.
  assert (Hrec : (List.length (records (cout (loop_body w size i image_path st)))
                  <= List.length (records (cout st))
                     + List.length (completed_latency w (image_path, st)))%nat).
  { destruct (loop_body_records w size i image_path st)
      as [H|(loc & acc & st1 & E1 & H)]; rewrite H; [lia|].
    unfold completed_latency. cbn [fst snd]. rewrite E1, length_app. cbn. lia. }
  remember (List.length (records (cout (loop_body w size i image_path st)))) as nrec
    eqn:Hnrec.
  clear Hnrec. revert Hrec. revert Htimes.
  unfold loop_body, completed_latency, continued, crashes. cbn [fst snd].
  destruct (try_block_outcome w image_path st) as
    [st1 what E1|st1 loc E1 Es|st1 st3 loc res E1 Es E2|st1 st3 loc res E1 Es E2 E3
    |st1 st3 loc res j acc E1 Es E2 E3 E4|st1 st3 loc res j E1 Es E2 E3 E4];
    rewrite E1; cbn [List.length]; intros Htimes Hrec;
    pose proof (repetition_loop_calls _ _ _ _ _ _ _ _ E1) as Hcalls; cbn in Hcalls;
    try (match goal with |- context [progress_update ?i ?n ?s] => progress_frame i n s end);
    frames; unfold after_runs in *; cbn in *;
    rewrite ?records_app, ?length_app in *; cbn in *;
    repeat split; try lia; try congruence; try discriminate.
Qed.

Lemma completed_latency_length (w : World) (it : string * State) :
  (List.length (completed_latency w it) <= 1)%nat.
Proof.
  unfold completed_latency.
  destruct (repetition_loop w (fst it) 3 0 (snd it) initial_locals) as [st1 [loc|what]];
    cbn; lia.
Qed.

Lemma batch_loop_accounting (w : World) (size : nat) (paths : list string) :
  forall i st,
    let final_st := batch_loop w size i paths st in
    let its := iterations w size i paths st in
    let n := List.length (flat_map (completed_latency w) its) in
    (popen_calls final_st + List.length (filter (crashes w) its) = popen_calls st + n)%nat
    /\ List.length (inference_times final_st) = (List.length (inference_times st) + n)%nat
    /\ (predict_calls st + List.length its <= predict_calls final_st
        <= predict_calls st + 3 * List.length its)%nat
    /\ (predict_calls st + 3 * n <= predict_calls final_st)%nat
    /\ (List.length (records (cout final_st)) <= List.length (records (cout st)) + n)%nat
    /\ (successful_count st <= successful_count final_st
        <= successful_count st + Z.of_nat n)%Z
    /\ (failed_count st <= failed_count final_st
        <= failed_count st + Z.of_nat (List.length its))%Z
    /\ (List.length (filter (continued w) its) <= n <= List.length its)%nat.
Proof.
  induction paths as [|p rest IH]; intros i st; cbv zeta.
  - cbn. repeat split; lia.
  - destruct (batch_loop_cons w size i p rest st) as (-> & -> & _).
    cbn [flat_map filter]. rewrite length_app.
    pose proof (loop_body_accounting w size i p st) as Hb. cbv zeta in Hb.
    pose proof (IH (S i) (loop_body w size i p st)) as Hr. cbv zeta in Hr.
    pose proof (completed_latency_length w (p, st)) as Hle.
    destruct Hb as (B1 & B2 & B3 & B4 & B5 & B6 & B7 & B8).
    destruct Hr as (R1 & R2 & R3 & R4 & R5 & R6 & R7 & R8).
    destruct (crashes w (p, st)) eqn:Ek.
    + destruct (crashes_not_raised _ _ Ek) as [_ Hc]. rewrite Hc in *.
      cbn [List.length flat_map filter]. repeat split; lia.
    + destruct (continued w (p, st)) eqn:Ec; [specialize (B8 eq_refl)|clear B8];
        cbn [List.length]; repeat split; lia.
Qed.

(** The state in which a run that reaches the batch ends is the one in
    which the loop ended, but for the last diagnostic. *)
Lemma main_batch_final (w : World) (argv0 arg1 : string) (more : list string) (p : string)
    (ps : list string) (warnings : list diag) :
  collectImagePaths (stat w) (arg1 :: more) = (p :: ps, warnings) ->
  PaddleOCR_throws w = None ->
  let st := batch_loop w (S (List.length ps)) 0 (p :: ps) (initial_state warnings) in
  let run := main w (argv0 :: arg1 :: more) in
  final run
  = if batch_killed w (S (List.length ps)) 0 (p :: ps) (initial_state warnings) then st
    else match summarize (S (List.length ps)) st with
         | Some _ => st
         | None => write_cerr ErrNoSuccessfulInferences st
         end.
Proof.
  intros H Heng. unfold main. rewrite H, Heng. cbv zeta. cbn [List.length].
  destruct (batch_killed w (S (List.length ps)) 0 (p :: ps) (initial_state warnings));
    reflexivity.
Qed.

(** A run that starts no iteration calls neither the engine nor the
    scorer. *)
Lemma main_no_batch_calls (w : World) (argv : list string) :
  no_batch w argv ->
  predict_calls (final (main w argv)) = 0%nat /\ popen_calls (final (main w argv)) = 0%nat.
Proof.
  intros H. unfold no_batch in H. unfold main.
  destruct argv as [|argv0 [|arg1 more]]; [split; reflexivity..|].
  cbn [tl] in *.
  destruct (collectImagePaths (stat w) (arg1 :: more)) as [[|q qs] warnings] eqn:E.
  - split; reflexivity.
  - destruct H as [H|[H|H]]; [simpl in H; lia|discriminate H|].
    destruct (PaddleOCR_throws w) as [what|]; [|contradiction].
    split; reflexivity.
Qed.

(** Calls of the engine and of the scorer in a whole run.  The scorer is
    started once for each collected latency, but for the iteration in which
    the process ends on a null output, and never for an image whose runs
    did not all return; the engine is called at least once and at most
    three times in each iteration that the process starts, and three times
    for each collected latency.  A run that returns from [main] starts one
    iteration for each discovered image. *)
Theorem main_call_accounting (w : World) (argv : list string) :
  let run := main w argv in
  let its := main_iterations w argv in
  let images := List.length its in
  let latencies := List.length (inference_times (final run)) in
  (popen_calls (final run) + List.length (filter (crashes w) its) = latencies)%nat
  /\ (3 * latencies <= predict_calls (final run) <= 3 * images)%nat
  /\ (images <= predict_calls (final run))%nat
  /\ (images <= List.length (main_images w argv))%nat
  /\ (exit_code run <> None ->
      popen_calls (final run) = latencies
      /\ images = List.length (main_images w argv)).
Proof.
  cbv zeta. unfold main_images.
  destruct (main_accounting w argv) as (_ & _ & Hexit & Hle & _). cbv zeta in Hexit.
  assert (Hret : exit_code (main w argv) <> None ->
                 List.length (main_iterations w argv)
                 = List.length (fst (collectImagePaths (stat w) (tl argv)))
                 /\ List.length (filter (crashes w) (main_iterations w argv)) = 0%nat).
  { destruct (exit_code (main w argv)) as [code|]; [|intros Hn; contradiction].
    intros _. apply (Hexit code). reflexivity. }
  destruct (main_kinds w argv) as [H|(argv0 & arg1 & more & p & ps & ws & -> & E & Eng)].
  - destruct (main_no_batch w argv H) as (_ & _ & _ & Ht & _ & _ & Hi).
    destruct (main_no_batch_calls w argv H) as (Hp & Hq).
    rewrite Ht, Hi, Hp, Hq in *. cbn [List.length filter] in *.
    split; [lia|split; [lia|split; [lia|split; [lia|]]]].
    intros Hn. destruct (Hret Hn) as [Hl _]. split; [reflexivity|exact Hl].
  - destruct (main_batch w argv0 arg1 more p ps ws E Eng) as (_ & _ & _ & Ht & _ & _ & Hi).
    pose proof (batch_loop_accounting w (S (List.length ps)) (p :: ps) 0
                  (initial_state ws)) as Hb.
    cbv zeta in Hb. destruct Hb as (B1 & B2 & B3 & B4 & _).
    rewrite Ht, Hi in *.
    assert (Hcalls :
      predict_calls (final (main w (argv0 :: arg1 :: more)))
      = predict_calls (batch_loop w (S (List.length ps)) 0 (p :: ps) (initial_state ws))
      /\ popen_calls (final (main w (argv0 :: arg1 :: more)))
         = popen_calls (batch_loop w (S (List.length ps)) 0 (p :: ps) (initial_state ws))).
    { rewrite (main_batch_final w argv0 arg1 more p ps ws E Eng).
      destruct (batch_killed w (S (List.length ps)) 0 (p :: ps) (initial_state ws));
        [split; reflexivity|].
      destruct (summarize (S (List.length ps))
                  (batch_loop w (S (List.length ps)) 0 (p :: ps) (initial_state ws)));
        split; reflexivity. }
    destruct Hcalls as (-> & ->).
    cbn [initial_state predict_calls popen_calls inference_times List.length] in *.
    split; [lia|split; [lia|split; [lia|split; [lia|]]]].
    intros Hn. destruct (Hret Hn) as [Hl Hk]. split; [lia|exact Hl].
Qed.

(** A run in which the third of five images fails: four scorer calls for
    four latencies, and five iterations for five images. *)
Lemma main_call_accounting_witness :
  popen_calls (final (main world_img3_throws five_images)) = 4%nat
  /\ List.length (inference_times (final (main world_img3_throws five_images))) = 4%nat
  /\ List.length (main_iterations world_img3_throws five_images) = 5%nat.
Proof.
  destruct (main_call_accounting world_img3_throws five_images) as (_ & _ & _ & _ & H).
  destruct H as (H1 & H2).
  - vm_compute. discriminate.
  - rewrite H2. rewrite H1. vm_compute. repeat split; reflexivity.
Defined.

(** The counters, the records and the latencies of a run bound one another. *)
Lemma main_bounds (w : World) (argv : list string) :
  let run := main w argv in
  let images := List.length (main_iterations w argv) in
  let latencies := List.length (inference_times (final run)) in
  (List.length (records (cout (final run))) <= latencies <= images)%nat
  /\ (0 <= successful_count (final run) <= Z.of_nat latencies)%Z
  /\ (0 <= failed_count (final run) <= Z.of_nat images)%Z
  /\ (successful_count (final run) + failed_count (final run) <= Z.of_nat images)%Z
  /\ (images <= List.length (fst (collectImagePaths (stat w) (tl argv))))%nat.
Proof.
  cbv zeta.
  destruct (main_accounting w argv) as (Hsum & _ & _ & Hle & _). cbv zeta in Hsum.
  destruct (main_kinds w argv) as [H|(argv0 & arg1 & more & p & ps & ws & -> & E & Eng)].
  - destruct (main_no_batch w argv H) as (_ & _ & Hc & Ht & Hs & Hf & Hi).
    rewrite Hc, Ht, Hs, Hf, Hi. cbn. lia.
  - destruct (main_batch w argv0 arg1 more p ps ws E Eng) as (_ & _ & Hc & Ht & Hs & Hf & Hi).
    rewrite Hc, Ht, Hs, Hf, Hi in *.
    pose proof (batch_loop_accounting w (S (List.length ps)) (p :: ps) 0
                  (initial_state ws)) as Hb.
    cbv zeta in Hb. destruct Hb as (_ & B2 & _ & _ & B5 & B6 & B7 & B8).
    cbn [initial_state inference_times successful_count failed_count cout records
      List.length] in *.
    lia.
Qed.

(** What a run reports is bounded by what it measured: there are at most
    as many records, and as many counted successes, as collected latencies,
    at most one latency for each iteration that the process starts, at most
    one iteration for each discovered image, and the two counters are not
    negative and never add up to more than the number of iterations. *)
Theorem main_reports_bounded (w : World) (argv : list string) :
  let run := main w argv in
  let images := List.length (main_iterations w argv) in
  let latencies := List.length (inference_times (final run)) in
  (List.length (records (cout (final run))) <= latencies <= images)%nat
  /\ (0 <= successful_count (final run) <= Z.of_nat latencies)%Z
  /\ (0 <= failed_count (final run) <= Z.of_nat images)%Z
  /\ (successful_count (final run) + failed_count (final run) <= Z.of_nat images)%Z
  /\ (images <= List.length (fst (collectImagePaths (stat w) (tl argv))))%nat.
Proof.
  cbv zeta. destruct (main_bounds w argv) as (H1 & H2 & H3 & H4 & H5).
  split; [exact H1|split; [exact H2|split; [exact H3|split; [exact H4|exact H5]]]].
Qed.

(** A process that ends without returning from [main] prints no summary.
    A run that returns prints no summary exactly when it collected no
    latency, and it then returns 1.  If images were discovered, every one
    of them was counted as failed, no record was written, and the last
    diagnostic says that there is nothing to compute statistics from. *)
Theorem no_summary_means_every_image_failed (w : World) (argv : list string) :
  let run := main w argv in
  let images := List.length (main_images w argv) in
  (exit_code run = None -> summary run = None)
  /\ (exit_code run <> None ->
      (summary run = None <-> inference_times (final run) = [])
      /\ (summary run = None -> exit_code run = Some 1%Z)
      /\ (summary run = None -> images <> 0%nat ->
          failed_count (final run) = Z.of_nat images
          /\ successful_count (final run) = 0%Z
          /\ records (cout (final run)) = []
          /\ exists log, cerr (final run) = (log ++ [ErrNoSuccessfulInferences])%list)).
Proof.
  cbv zeta. unfold main_images.
  destruct (main_kinds w argv) as [H|(argv0 & arg1 & more & p & ps & ws & -> & E & Eng)].
  - destruct (main_no_batch w argv H) as (He & Hsm & Hc & Ht & Hs & Hf & Hi).
    rewrite Hsm, Ht. split; [reflexivity|]. intros Hret.
    destruct He as [(He & Hwhy)|(He & _)]; [|contradiction].
    split; [split; reflexivity|]. split; [intros _; exact He|].
    intros _ Hne. exfalso. apply Hne.
    destruct Hwhy as [Hl|Hn]; [|rewrite Hn; reflexivity].
    destruct argv as [|a0 [|a1 m]]; [reflexivity|reflexivity|simpl in Hl; lia].
  - destruct (main_batch w argv0 arg1 more p ps ws E Eng) as (He & Hsm & Hc & Ht & Hs & Hf & Hi).
    rewrite He, Hsm, Hc, Ht, Hs, Hf. cbn [tl]. rewrite E. cbn [fst].
    pose proof (batch_loop_accounting w (S (List.length ps)) (p :: ps) 0
                  (initial_state ws)) as Hb.
    cbv zeta in Hb. destruct Hb as (_ & B2 & _ & _ & B5 & B6 & B7 & B8).
    pose proof (batch_loop_counts w (S (List.length ps)) (p :: ps) 0 (initial_state ws))
      as Hsum.
    pose proof (batch_killed_count w (S (List.length ps)) (p :: ps) 0 (initial_state ws))
      as Hk.
    destruct (iterations_length w (S (List.length ps)) (p :: ps) 0 (initial_state ws))
      as [_ Hlen].
    pose proof (main_batch_final w argv0 arg1 more p ps ws E Eng) as Hfinal.
    cbv zeta in Hfinal.
    destruct (batch_killed w (S (List.length ps)) 0 (p :: ps) (initial_state ws));
      [split; [reflexivity|intros Hn; contradiction]|].
    split; [discriminate|]. intros _.
    specialize (Hlen eq_refl). rewrite Hlen, Hk in *.
    cbn [initial_state inference_times successful_count failed_count cout records
      List.length] in *.
    set (st := batch_loop w (S (List.length ps)) 0 (p :: ps) (initial_state ws)) in *.
    assert (Hnone : summarize (S (List.length ps)) st = None <-> inference_times st = []).
    { unfold summarize. destruct (inference_times st); split; congruence. }
    assert (Hall : summarize (S (List.length ps)) st = None ->
                   failed_count st = Z.of_nat (S (List.length ps))
                   /\ successful_count st = 0%Z
                   /\ records (cout st) = []).
    { intros Hn. apply Hnone in Hn. rewrite Hn in B2. cbn [List.length] in B2.
      assert (Hr : List.length (records (cout st)) = 0%nat) by lia.
      split; [lia|]. split; [lia|].
      destruct (records (cout st)); [reflexivity|discriminate]. }
    split; [exact Hnone|]. split.
    + intros Hn. destruct (Hall Hn) as (Hfail & _).
      replace (failed_count st >? 0)%Z with true; [reflexivity|].
      symmetry. apply Z.gtb_lt. lia.
    + intros Hn _. destruct (Hall Hn) as (A1 & A2 & A3).
      split; [exact A1|]. split; [exact A2|]. split; [exact A3|].
      rewrite Hfinal, Hn. exists (cerr st). reflexivity.
Qed.

(** A run over one image on which the engine throws: it returns 1 without
    a summary, and the image is counted as failed. *)
Lemma no_summary_means_every_image_failed_witness :
  let run := main world_img3_throws ["Benchmark"; "img3.png"] in
  summary run = None
  /\ exit_code run = Some 1%Z
  /\ failed_count (final run) = 1%Z.
Proof.
  cbv zeta.
  destruct (no_summary_means_every_image_failed world_img3_throws ["Benchmark"; "img3.png"])
    as (_ & H).
  destruct H as (_ & H2 & H3).
  - vm_compute. discriminate.
  - assert (Hs : summary (main world_img3_throws ["Benchmark"; "img3.png"]) = None)
      by (vm_compute; reflexivity).
    split; [exact Hs|]. split; [exact (H2 Hs)|].
    destruct (H3 Hs) as (Hf & _); [vm_compute; discriminate|].
    rewrite Hf. vm_compute. reflexivity.
Defined.

(** A printed summary is consistent: it reports the number of discovered
    images and the two counters, which add up to at most that number, and
    its minimum is not above its maximum. *)
Theorem summary_is_consistent (w : World) (argv : list string) (s : BatchSummary) :
  summary (main w argv) = Some s ->
  total_images s = List.length (main_iterations w argv)
  /\ sum_successful s = successful_count (final (main w argv))
  /\ sum_failed s = failed_count (final (main w argv))
  /\ (0 <= sum_successful s)%Z /\ (0 <= sum_failed s)%Z
  /\ (sum_successful s + sum_failed s <= Z.of_nat (total_images s))%Z
  /\ (max_time s <? min_time s)%float = false
  /\ total_images s = List.length (fst (collectImagePaths (stat w) (tl argv))).
Proof.
  intros Hs.
  pose proof (main_bounds w argv) as Hb. cbv zeta in Hb.
  destruct Hb as (_ & B2 & B3 & B4 & _).
  destruct (main_kinds w argv) as [H|(argv0 & arg1 & more & p & ps & ws & -> & E & Eng)].
  - destruct (main_no_batch w argv H) as (_ & Hsm & _). congruence.
  - destruct (main_batch w argv0 arg1 more p ps ws E Eng)
      as (_ & Hsm & _ & _ & Hsc & Hfc & Hi).
    rewrite Hsm in Hs.
    destruct (iterations_length w (S (List.length ps)) (p :: ps) 0 (initial_state ws))
      as [_ Hlen].
    destruct (batch_killed w (S (List.length ps)) 0 (p :: ps) (initial_state ws));
      [discriminate|].
    specialize (Hlen eq_refl).
    rewrite Hsc, Hfc, Hi, Hlen in *.
    cbn [List.length] in *.
    remember (batch_loop w (S (List.length ps)) 0 (p :: ps) (initial_state ws)) as st
      eqn:Hst.
    clear Hst. unfold summarize in Hs.
    destruct (inference_times st) as [|first rest] eqn:Et; [discriminate|].
    remember (first :: rest) as times eqn:Htimes.
    assert (Hfirst : In first times) by (subst times; left; reflexivity).
    clear Htimes.
    injection Hs as <-.
    cbn [total_images sum_successful sum_failed min_time max_time].
    destruct (fold_std_min_spec times first) as (Hin & _ & _).
    destruct (fold_std_max_spec times first) as (_ & _ & Hmax).
    cbn [tl]. rewrite E. cbn [fst List.length].
    repeat split; try lia.
    apply Hmax. destruct Hin as [->|Hin]; [exact Hfirst|exact Hin].
Qed.

Lemma summary_is_consistent_witness :
  exists s, summary (main world_img3_throws five_images) = Some s
            /\ total_images s = 5%nat
            /\ (sum_successful s + sum_failed s <= 5)%Z
            /\ (max_time s <? min_time s)%float = false.
Proof.
  destruct (summary (main world_img3_throws five_images)) as [s|] eqn:E;
    [|vm_compute in E; discriminate].
  exists s. split; [reflexivity|].
  destruct (summary_is_consistent world_img3_throws five_images s E)
    as (H1 & _ & _ & _ & _ & H6 & H7 & _).
  rewrite H1 in H6. rewrite H1.
  assert (Hn : List.length (main_iterations world_img3_throws five_images) = 5%nat)
    by (vm_compute; reflexivity).
  rewrite Hn in *. repeat split; assumption.
Defined.

(** ** Progress lines (Benchmark.cpp, lines 408-414) *)

(** What an iteration writes to [std::cout]: at most a record, then at most
    the progress line of its image with the counters as they then stand. *)
Lemma loop_body_cout (w : World) (size i : nat) (image_path : string) (st : State) :
  let st' := loop_body w size i image_path st in
  exists recs : list cout_line,
    (recs = [] \/ exists r, recs = [PER_IMAGE_RESULT r])
    /\ (cout st' = (cout st ++ recs)%list
        \/ (continued w (image_path, st) = false
            /\ (((S i) mod 10 =? 0)%nat || (S i =? size)%nat) = true
            /\ cout st'
               = (cout st ++ recs
                  ++ [PROGRESS (S i) size (successful_count st') (failed_count st')])%list))
    /\ (continued w (image_path, st) = true ->
        exists r, cout st' = (cout st ++ [PER_IMAGE_RESULT r])%list)
    /\ (continued w (image_path, st) = false ->
        crashes w (image_path, st) = false ->
        (((S i) mod 10 =? 0)%nat || (S i =? size)%nat) = true ->
        cout st'
        = (cout st ++ recs
           ++ [PROGRESS (S i) size (successful_count st') (failed_count st')])%list).
Proof.
  cbv zeta. unfold loop_body, continued, crashes. cbn [fst snd].
  destruct (try_block_outcome w image_path st) as
    [st1 what E1|st1 loc E1 Es|st1 st3 loc res E1 Es E2|st1 st3 loc res E1 Es E2 E3
    |st1 st3 loc res j acc E1 Es E2 E3 E4|st1 st3 loc res j E1 Es E2 E3 E4];
    frames; unfold after_runs in *; cbn [cout push_inference_time] in *;
    unfold progress_update;
    try (destruct (((S i) mod 10 =? 0)%nat || (S i =? size)%nat) eqn:Ep);
    cbn -[Nat.modulo];
    repeat match goal with H : cout _ = _ |- _ => rewrite H; clear H end.
  all: try (exists []; split; [left; reflexivity|];
            rewrite ?app_nil_r; cbn [app];
            split; [first [left; reflexivity|right; repeat split; reflexivity]|];
            split; [discriminate|]; intros; first [reflexivity|discriminate]).
  all: try (eexists [PER_IMAGE_RESULT _]; split; [right; eexists; reflexivity|];
            rewrite <- ?app_assoc; cbn [app];
            split; [first [left; reflexivity|right; repeat split; reflexivity]|];
            split; [first [discriminate|intros _; eexists; reflexivity]|];
            intros; first [reflexivity|discriminate]).
Qed.

Lemma batch_loop_progress (w : World) (size : nat) (paths : list string) :
  forall i st,
    (i + List.length paths = size)%nat ->
    (0 <= successful_count st)%Z -> (0 <= failed_count st)%Z ->
    (successful_count st + failed_count st <= Z.of_nat i)%Z ->
    Forall (progress_sound size) (cout st) ->
    Forall (progress_sound size) (cout (batch_loop w size i paths st)).
Proof.
  induction paths as [|p rest IH]; intros i st Hsize Hs Hf Hsum Hall; [exact Hall|].
  rewrite (proj1 (batch_loop_cons w size i p rest st)).
  cbn [List.length] in *.
  pose proof (loop_body_accounting w size i p st) as Hb. cbv zeta in Hb.
  destruct Hb as (_ & _ & _ & _ & _ & B6 & B7 & _).
  pose proof (loop_body_counts w size i p st) as Hc.
  assert (Hsum' : (successful_count (loop_body w size i p st)
                   + failed_count (loop_body w size i p st) <= Z.of_nat (S i))%Z).
  { destruct (continued w (p, st)); destruct (crashes w (p, st)); lia. }
  assert (Hstep : Forall (progress_sound size) (cout (loop_body w size i p st))).
  { destruct (loop_body_cout w size i p st) as (recs & Hrecs & Hcout & _).
    assert (Hr : Forall (progress_sound size) recs).
    { destruct Hrecs as [->|(r & ->)]; repeat constructor. }
    destruct Hcout as [->|(_ & _ & ->)].
    - apply Forall_app. split; assumption.
    - apply Forall_app. split; [assumption|]. apply Forall_app. split; [assumption|].
      constructor; [|constructor]. cbn. repeat split; lia. }
  destruct (crashes w (p, st)); [exact Hstep|].
  apply IH; try lia. exact Hstep.
Qed.

(** Every progress line of a run reports the number of discovered images,
    a number of processed images between 1 and that number, and counters
    that are not negative and add up to at most the images processed. *)
Theorem main_progress_lines_sound (w : World) (argv : list string) :
  Forall (progress_sound (List.length (main_images w argv)))
    (cout (final (main w argv))).
Proof.
  unfold main_images.
  destruct (main_kinds w argv) as [H|(argv0 & arg1 & more & p & ps & ws & -> & E & Eng)].
  - destruct (main_no_batch w argv H) as (_ & _ & Hc & _). rewrite Hc. constructor.
  - destruct (main_batch w argv0 arg1 more p ps ws E Eng) as (_ & _ & Hc & _ & _ & _ & Hi).
    rewrite Hc. cbn [tl]. rewrite E. cbn [fst List.length].
    apply batch_loop_progress; cbn; try lia. constructor.
Qed.

(** In a loop in which the process does not end, the last image is
    processed in the state that the images before it leave. *)
Lemma batch_loop_snoc (w : World) (size : nat) (front : list string) (p : string) :
  forall i st,
    batch_killed w size i (front ++ [p]) st = false ->
    batch_loop w size i (front ++ [p]) st
    = loop_body w size (i + List.length front) p (batch_loop w size i front st)
    /\ iterations w size i (front ++ [p]) st
       = (iterations w size i front st ++ [(p, batch_loop w size i front st)])%list.
Proof.
  induction front as [|q front IH]; intros i st Hk.
  - cbn [app] in *.
    destruct (batch_loop_cons w size i p [] st) as (-> & -> & Hk').
    rewrite Hk' in Hk. apply orb_false_iff in Hk. destruct Hk as [-> _].
    cbn [List.length batch_loop iterations app]. rewrite Nat.add_0_r. split; reflexivity.
  - cbn [app] in *.
    destruct (batch_loop_cons w size i q (front ++ [p]) st) as (-> & -> & Hk').
    destruct (batch_loop_cons w size i q front st) as (-> & -> & _).
    rewrite Hk' in Hk. apply orb_false_iff in Hk. destruct Hk as [-> Hk].
    destruct (IH (S i) (loop_body w size i q st) Hk) as [H1 H2].
    rewrite H1, H2. cbn [List.length].
    replace (S i + List.length front)%nat with (i + S (List.length front))%nat by lia.
    split; reflexivity.
Qed.

(** The last of the PER_IMAGE_RESULT and progress lines of a run that
    returns from [main] after the batch.  If the last image does not leave
    through [continue], it is the progress line of the whole batch, with the
    final counters.  If it does (its scoring call failed), the iteration
    skips the progress update and the last of these lines is the record of
    that image. *)
Theorem main_last_line (w : World) (argv : list string) (it : string * State)
    (before : list (string * State)) :
  exit_code (main w argv) <> None ->
  main_iterations w argv = (before ++ [it])%list ->
  let run := main w argv in
  let images := List.length (main_images w argv) in
  (continued w it = false ->
   exists lines,
     cout (final run)
     = (lines ++ [PROGRESS images images (successful_count (final run))
                    (failed_count (final run))])%list)
  /\ (continued w it = true ->
      exists lines r, cout (final run) = (lines ++ [PER_IMAGE_RESULT r])%list).
Proof.
  intros Hret Hits. cbv zeta. unfold main_images.
  destruct (main_kinds w argv) as [H|(argv0 & arg1 & more & p & ps & ws & -> & E & Eng)].
  - destruct (main_no_batch w argv H) as (_ & _ & _ & _ & _ & _ & Hi).
    rewrite Hi in Hits. destruct before; discriminate.
  - destruct (main_batch w argv0 arg1 more p ps ws E Eng)
      as (He & _ & Hc & _ & Hsc & Hfc & Hi).
    rewrite Hc, Hsc, Hfc. rewrite Hi in Hits. cbn [tl]. rewrite E. cbn [fst List.length].
    rewrite He in Hret.
    destruct (batch_killed w (S (List.length ps)) 0 (p :: ps) (initial_state ws)) eqn:Ek;
      [contradiction|].
    assert (Hne : p :: ps <> []) by discriminate.
    destruct (exists_last Hne) as (front & q & Hsplit).
    assert (Hlen : S (0 + List.length front) = S (List.length ps)).
    { apply (f_equal (@List.length string)) in Hsplit.
      rewrite length_app in Hsplit. cbn in Hsplit. lia. }
    rewrite Hsplit in Hits, Ek |- *.
    destruct (batch_loop_snoc w (S (List.length ps)) front q 0 (initial_state ws) Ek)
      as [Hloop Hiter].
    rewrite Hiter in Hits. apply app_inj_tail in Hits. destruct Hits as [_ <-].
    rewrite Hloop.
    assert (Hlast : crashes w (q, batch_loop w (S (List.length ps)) 0 front (initial_state ws))
                    = false).
    { rewrite batch_killed_spec, Hiter, existsb_app in Ek.
      apply orb_false_iff in Ek. destruct Ek as [_ Ek]. cbn [existsb] in Ek.
      rewrite orb_false_r in Ek. exact Ek. }
    set (st := batch_loop w (S (List.length ps)) 0 front (initial_state ws)) in *.
    destruct (loop_body_cout w (S (List.length ps)) (0 + List.length front) q st)
      as (recs & _ & _ & Hcont & Hprog).
    rewrite Hlen in Hprog. split.
    + intros Hc'. exists (cout st ++ recs)%list. rewrite <- app_assoc.
      apply Hprog; [exact Hc'|exact Hlast|]. rewrite Nat.eqb_refl. apply orb_true_r.
    + intros Hc'. destruct (Hcont Hc') as (r & Hr). exists (cout st), r. exact Hr.
Qed.

Lemma main_last_line_witness :
  (exists lines,
      cout (final (main world_img3_throws five_images))
      = (lines ++ [PROGRESS 5 5 4 1])%list)
  /\ (exists lines r,
        cout (final (main world_scorer_exit1 ["Benchmark"; "a.png"; "b.png"]))
        = (lines ++ [PER_IMAGE_RESULT r])%list).
Proof.
  split.
  - destruct (main_last_line world_img3_throws five_images
                (last (main_iterations world_img3_throws five_images)
                   ("", initial_state []))
                (removelast (main_iterations world_img3_throws five_images)))
      as [H _].
    + vm_compute. discriminate.
    + apply app_removelast_last. vm_compute. discriminate.
    + destruct H as (lines & Hl); [vm_compute; reflexivity|].
      exists lines. rewrite Hl. vm_compute. reflexivity.
  - destruct (main_last_line world_scorer_exit1 ["Benchmark"; "a.png"; "b.png"]
                (last (main_iterations world_scorer_exit1 ["Benchmark"; "a.png"; "b.png"])
                   ("", initial_state []))
                (removelast
                   (main_iterations world_scorer_exit1 ["Benchmark"; "a.png"; "b.png"])))
      as [_ H].
    + vm_compute. discriminate.
    + apply app_removelast_last. vm_compute. discriminate.
    + apply H. vm_compute. reflexivity.
Defined.

(** ** The character count is additive and bounded *)

Lemma list_ascii_length (s : string) :
  List.length (list_ascii_of_string s) = String.length s.
Proof. induction s as [|c r IH]; simpl; [reflexivity|rewrite IH; reflexivity]. Qed.

Lemma non_backslash_bytes_bounds (text : string) :
  (0 <= non_backslash_bytes text <= Z.of_nat (String.length text))%Z.
Proof.
  unfold non_backslash_bytes.
  pose proof (filter_length_le (fun c => negb (Ascii.eqb c backslash))
                (list_ascii_of_string text)) as H.
  rewrite list_ascii_length in H. lia.
Qed.

Lemma substring_length_le (s : string) :
  forall pos n, (String.length (String.substring pos n s) <= n)%nat.
Proof.
  induction s as [|c r IH]; intros pos n.
  - destruct pos, n; simpl; lia.
  - destruct pos as [|pos].
    + destruct n as [|n]; simpl; [lia|]. specialize (IH 0%nat n). lia.
    + simpl. apply IH.
Qed.

Lemma quoted_loop_acc (content : string) (fuel : nat) :
  forall pos total,
    quoted_loop fuel content pos total = (total + quoted_loop fuel content pos 0)%Z.
Proof.
  induction fuel as [|fuel IH]; intros pos total; cbn [quoted_loop]; [lia|].
  destruct (Str.find_char dquote content pos) as [p|]; [|lia].
  destruct (Str.find_char dquote content (p + 1)) as [q|]; [|lia].
  rewrite (IH _ (count_text _ total)), (IH _ (count_text _ 0)), !count_text_acc. lia.
Qed.

Lemma quoted_loop_bounds (content : string) (fuel : nat) :
  forall pos,
    (0 <= quoted_loop fuel content pos 0 <= Z.of_nat (String.length content - pos))%Z.
Proof.
  induction fuel as [|fuel IH]; intros pos; cbn [quoted_loop]; [lia|].
  destruct (Str.find_char dquote content pos) as [p|] eqn:E; [|lia].
  destruct (Str.find_char dquote content (p + 1)) as [q|] eqn:E'; [|lia].
  apply find_char_bounds in E. apply find_char_bounds in E'.
  rewrite quoted_loop_acc, count_text_acc.
  pose proof (IH (q + 1)%nat) as Hrest.
  pose proof (non_backslash_bytes_bounds (Str.substr content (p + 1) (q - p - 1))) as Ht.
  pose proof (substring_length_le content (p + 1) (q - p - 1)) as Hl.
  unfold Str.substr in *. lia.
Qed.

Lemma count_output_acc (json_output : string) (total : Z) :
  count_output json_output total = (total + count_output json_output 0)%Z
  /\ (0 <= count_output json_output 0 <= Z.of_nat (String.length json_output))%Z.
Proof.
  unfold count_output.
  destruct (Str.find rec_texts_key json_output 0) as [k|]; [|lia].
  destruct (Str.find_char "[" json_output k) as [a|] eqn:Ea; [|lia].
  destruct (Str.find_char "]" json_output a) as [b|] eqn:Eb; [|lia].
  apply find_char_bounds in Ea. apply find_char_bounds in Eb.
  unfold count_quoted. split; [apply quoted_loop_acc|].
  pose proof (quoted_loop_bounds (Str.substr json_output (a + 1) (b - a - 1))
                (S (String.length (Str.substr json_output (a + 1) (b - a - 1)))) 0) as H.
  pose proof (substring_length_le json_output (a + 1) (b - a - 1)) as Hl.
  unfold Str.substr in *. lia.
Qed.

Lemma count_outputs_acc (outputs : list cv_result) :
  forall total,
    count_outputs outputs total = (total + count_outputs outputs 0)%Z
    /\ (0 <= count_outputs outputs 0 <= Z.of_nat (printed_bytes outputs))%Z.
Proof.
  induction outputs as [|[json|] rest IH]; intros total; cbn [count_outputs printed_bytes].
  - lia.
  - destruct (count_output_acc json total) as [H1 _].
    destruct (count_output_acc json 0) as [_ H2].
    destruct (IH (count_output json total)) as [H3 _].
    destruct (IH (count_output json 0)) as [H4 H5].
    rewrite H3, H4, H1. lia.
  - apply IH.
Qed.

(** Each record carries the count of the first run of its image. *)
Lemma batch_loop_records_chars (w : World) (size : nat) (paths : list string) :
  forall i st,
    Forall (fun r => (0 <= total_chars r)%Z) (records (cout st)) ->
    Forall (fun r => (0 <= total_chars r)%Z)
      (records (cout (batch_loop w size i paths st))).
Proof.
  induction paths as [|p rest IH]; intros i st Hall; [exact Hall|].
  rewrite (proj1 (batch_loop_cons w size i p rest st)).
  assert (Hstep : Forall (fun r => (0 <= total_chars r)%Z)
                    (records (cout (loop_body w size i p st)))).
  { destruct (loop_body_records w size i p st) as [->|(loc & acc & st1 & E1 & ->)];
      [exact Hall|].
    apply Forall_app. split; [exact Hall|]. constructor; [|constructor].
    apply repetition_loop_completes in E1.
    destruct E1 as (ns0 & o0 & ns1 & o1 & ns2 & o2 & _ & _ & _ & _ & ->).
    cbn. apply (count_outputs_acc o0 0). }
  destruct (crashes w (p, st)); [exact Hstep|]. apply IH. exact Hstep.
Qed.

(** The character count adds up over the outputs of a run, whatever had
    been counted before; it lies between 0 and the number of bytes that the
    outputs print; and no record of a run reports a negative count. *)
Theorem count_outputs_additive_and_bounded :
  (forall (outputs1 outputs2 : list cv_result) (total : Z),
      count_outputs (outputs1 ++ outputs2) total
      = (total + count_outputs outputs1 0 + count_outputs outputs2 0)%Z)
  /\ (forall outputs : list cv_result,
        (0 <= count_outputs outputs 0 <= Z.of_nat (printed_bytes outputs))%Z)
  /\ (forall (w : World) (argv : list string) (r : PerImageRecord),
        In r (records (cout (final (main w argv)))) -> (0 <= total_chars r)%Z).
Proof.
  split; [|split].
  - induction outputs1 as [|[json|] rest IH]; intros outputs2 total;
      cbn [app count_outputs].
    + destruct (count_outputs_acc outputs2 total) as [H _]. rewrite H. lia.
    + rewrite IH. destruct (count_outputs_acc rest (count_output json 0)) as [H _].
      destruct (count_output_acc json total) as [H1 _]. rewrite H, H1. lia.
    + apply IH.
  - intros outputs. apply (count_outputs_acc outputs 0).
  - intros w argv r.
    destruct (main_kinds w argv) as [H|(argv0 & arg1 & more & p & ps & ws & -> & E & Eng)].
    + destruct (main_no_batch w argv H) as (_ & _ & Hc & _). rewrite Hc. intros [].
    + destruct (main_batch w argv0 arg1 more p ps ws E Eng) as (_ & _ & Hc & _).
      rewrite Hc.
      assert (Hall : Forall (fun r => (0 <= total_chars r)%Z)
                       (records (cout (batch_loop w (S (List.length ps)) 0 (p :: ps)
                                         (initial_state ws))))).
      { apply batch_loop_records_chars. constructor. }
      rewrite Forall_forall in Hall. apply Hall.
Qed.

(** ** The stand-alone accuracy helper (Benchmark.cpp, lines 106-161) *)

Lemma substring_front (front rest : string) :
  Str.substr (front ++ rest) 0 (String.length front) = front.
Proof. apply (substring_middle "" front rest). Qed.

(** The name given to the scorer by the helper.  The extension is cut at
    the last dot of the whole path, before the directory is removed: the
    name is the part of the text before that dot that follows its last
    slash.  For dir/stem.ext it is stem; for a path without a dot it is
    the file name; and for a file without extension below a directory with
    a dot in its name it is a part of the directory's name. *)
Theorem accuracy_base_name_spec :
  (forall front back : string,
      ~ In "."%char (list_ascii_of_string back) ->
      accuracy_base_name (front ++ "." ++ back) = basename front)
  /\ (forall image_name : string,
        ~ In "."%char (list_ascii_of_string image_name) ->
        accuracy_base_name image_name = basename image_name)
  /\ (forall dir stem ext : string,
        ~ In "/"%char (list_ascii_of_string stem) ->
        ~ In "."%char (list_ascii_of_string ext) ->
        accuracy_base_name (dir ++ "/" ++ stem ++ "." ++ ext) = stem)
  /\ (forall first second file : string,
        ~ In "/"%char (list_ascii_of_string first) ->
        ~ In "."%char (list_ascii_of_string (second ++ "/" ++ file)) ->
        accuracy_base_name (first ++ "." ++ second ++ "/" ++ file) = first).
Proof.
  assert (Hdot : forall front back : string,
             ~ In "."%char (list_ascii_of_string back) ->
             accuracy_base_name (front ++ "." ++ back) = basename front).
  { intros front back Hback. unfold accuracy_base_name, basename.
    assert (E : Str.find_last_of "." (front ++ "." ++ back) = Some (String.length front)).
    { apply find_last_of_some. exists front, back. auto. }
    rewrite E, substring_front. reflexivity. }
  repeat split.
  - exact Hdot.
  - intros image_name Hno. unfold accuracy_base_name, basename.
    apply find_last_of_none in Hno. rewrite Hno. reflexivity.
  - intros dir stem ext Hstem Hext.
    replace (dir ++ "/" ++ stem ++ "." ++ ext) with ((dir ++ "/" ++ stem) ++ "." ++ ext)
      by (rewrite !append_assoc; reflexivity).
    rewrite (Hdot _ _ Hext).
    apply (proj1 (proj2 (basename_spec_slash (dir ++ "/" ++ stem))) dir stem Hstem eq_refl).
  - intros first second file Hfirst Hrest.
    rewrite (Hdot first (second ++ "/" ++ file) Hrest).
    apply (proj2 (proj2 (basename_spec_slash first)) Hfirst).
Qed.

(** [std::getline] on a text that starts with a whole line. *)
Lemma getline_from_line (line rest : string) :
  free_of newline line ->
  getline_from (line ++ String newline rest) = (line, getlines rest).
Proof.
  intros Hline. induction line as [|c line IH]; cbn [append getline_from].
  - rewrite Ascii.eqb_refl. unfold getlines.
    destruct rest as [|a r]; [reflexivity|].
    destruct (getline_from (String a r)). destruct (getline_from (String a r)) eqn:E.
    reflexivity.
  - apply free_of_cons in Hline. destruct Hline as [Hc Hline].
    rewrite (IH Hline), Hc. reflexivity.
Qed.

Lemma getline_from_last (line : string) :
  free_of newline line -> getline_from line = (line, []).
Proof.
  intros Hline. induction line as [|c line IH]; cbn [getline_from]; [reflexivity|].
  apply free_of_cons in Hline. destruct Hline as [Hc Hline].
  rewrite (IH Hline), Hc. reflexivity.
Qed.

Lemma getlines_line (line rest : string) :
  free_of newline line ->
  getlines (line ++ String newline rest) = line :: getlines rest.
Proof.
  intros Hline. unfold getlines at 1.
  rewrite (getline_from_line line rest Hline).
  destruct line; reflexivity.
Qed.

Lemma getlines_last (c : ascii) (line : string) :
  free_of newline (String c line) -> getlines (String c line) = [String c line].
Proof.
  intros Hline. unfold getlines. rewrite (getline_from_last _ Hline). reflexivity.
Qed.

(** The lines written by a producer are the lines read. *)
Lemma getlines_unlines (lines : list string) (rest : string) :
  Forall (free_of newline) lines ->
  getlines (unlines lines ++ rest) = (lines ++ getlines rest)%list.
Proof.
  induction 1 as [|line lines Hline _ IH]; [reflexivity|].
  cbn [unlines app]. rewrite append_assoc. cbn [append].
  rewrite (getlines_line _ _ Hline), IH. reflexivity.
Qed.

Lemma find_zero_prefix (needle s : string) :
  String.prefix needle s = false -> Str.find needle s 0 <> Some 0%nat.
Proof.
  unfold Str.find. intros Hp. destruct s as [|c s]; cbn [String.index].
  - destruct needle; [discriminate Hp|discriminate].
  - rewrite Hp. destruct (String.index 0 needle s); discriminate.
Qed.

Lemma find_prefix_zero (needle s : string) :
  String.prefix needle s = true -> Str.find needle s 0 = Some 0%nat.
Proof.
  unfold Str.find. intros Hp. destruct s as [|c s]; cbn [String.index].
  - destruct needle; [reflexivity|discriminate Hp].
  - rewrite Hp. reflexivity.
Qed.

Lemma prefix_append (needle rest : string) : String.prefix needle (needle ++ rest) = true.
Proof.
  induction needle as [|c needle IH]; [apply prefix_empty|].
  cbn [append String.prefix]. destruct (ascii_dec c c) as [_|Hne]; [exact IH|].
  exfalso. apply Hne. reflexivity.
Qed.

Lemma scan_lines_skip (lines rest : list string) :
  Forall (fun l => String.prefix single_acc_marker l = false) lines ->
  scan_lines (lines ++ rest) = scan_lines rest.
Proof.
  induction 1 as [|line lines Hline _ IH]; [reflexivity|].
  cbn [app scan_lines]. apply find_zero_prefix in Hline.
  destruct (Str.find single_acc_marker line 0) as [[|k]|]; [congruence|exact IH..].
Qed.

Lemma find_first_not_of_blanks (blanks payload : string) (c : ascii) :
  (forall b, In b (list_ascii_of_string blanks) -> Str.mem b blank_set = true) ->
  Str.mem c blank_set = false ->
  find_first_not_of blank_set (blanks ++ String c payload) = Some (String.length blanks).
Proof.
  intros Hb Hc. induction blanks as [|b blanks IH]; cbn [append find_first_not_of].
  - rewrite Hc. reflexivity.
  - rewrite (Hb b (or_introl eq_refl)), IH; [reflexivity|].
    intros b' Hin. apply Hb. right. exact Hin.
Qed.

Lemma find_first_not_of_all_blank (blanks : string) :
  (forall b, In b (list_ascii_of_string blanks) -> Str.mem b blank_set = true) ->
  find_first_not_of blank_set blanks = None.
Proof.
  intros Hb. induction blanks as [|b blanks IH]; cbn [find_first_not_of]; [reflexivity|].
  rewrite (Hb b (or_introl eq_refl)), IH; [reflexivity|].
  intros b' Hin. apply Hb. right. exact Hin.
Qed.

(** The answer read from a line that starts with the marker. *)
Lemma scan_lines_answer (blanks answer : string) (rest : list string) :
  (forall b, In b (list_ascii_of_string blanks) -> Str.mem b blank_set = true) ->
  (answer = "" \/ exists c tail, answer = String c tail /\ Str.mem c blank_set = false) ->
  scan_lines ((single_acc_marker ++ blanks ++ answer) :: rest)
  = Some (match answer with EmptyString => blanks | String _ _ => answer end).
Proof.
  intros Hb Hans. cbn [scan_lines].
  assert (Hfind : Str.find single_acc_marker (single_acc_marker ++ blanks ++ answer) 0
                  = Some 0%nat).
  { apply find_prefix_zero, prefix_append. }
  rewrite Hfind.
  assert (Hcolon : Str.find_char ":" (single_acc_marker ++ blanks ++ answer) 0
                   = Some 10%nat) by reflexivity.
  rewrite Hcolon.
  assert (Hsub : Str.substr_from (single_acc_marker ++ blanks ++ answer) (10 + 1)
                 = blanks ++ answer) by reflexivity.
  rewrite Hsub.
  destruct Hans as [->|(c & tail & -> & Hc)].
  - rewrite append_nil_r, (find_first_not_of_all_blank blanks Hb). reflexivity.
  - rewrite (find_first_not_of_blanks blanks tail c Hb Hc), substr_from_app. reflexivity.
Qed.

(** The helper returns what follows the marker on the first line that
    starts with it, without the blanks in front.  Lines before it that do
    not start with the marker, the text after the line and the exit status
    of the scorer do not matter, and a line that has only blanks after the
    marker gives those blanks back. *)
Theorem calculateImageAccuracy_extracts_answer (w : World)
    (image_name ground_truth_path : string) (st : State) (exit_status : Z)
    (before : list string) (blanks answer after : string) :
  popen w (popen_calls st)
    (accuracy_command ground_truth_path (accuracy_base_name image_name))
  = PopenRuns (unlines before ++ single_acc_marker ++ blanks ++ answer ++ after)
      exit_status ->
  Forall (fun l => free_of newline l /\ String.prefix single_acc_marker l = false)
    before ->
  free_of newline blanks -> free_of newline answer ->
  (forall b, In b (list_ascii_of_string blanks) -> Str.mem b blank_set = true) ->
  (answer = "" \/ exists c tail, answer = String c tail /\ Str.mem c blank_set = false) ->
  (after = "" \/ exists rest, after = String newline rest) ->
  calculateImageAccuracy w image_name ground_truth_path st
  = (tick_popen st, match answer with EmptyString => blanks | String _ _ => answer end).
Proof.
  intros Hp Hbefore Hblanks Hanswer Hb Hans Hafter.
  unfold calculateImageAccuracy. rewrite Hp. f_equal.
  assert (Hnl : Forall (free_of newline) before).
  { eapply Forall_impl; [|exact Hbefore]. intros l [H _]. exact H. }
  assert (Hpre : Forall (fun l => String.prefix single_acc_marker l = false) before).
  { eapply Forall_impl; [|exact Hbefore]. intros l [_ H]. exact H. }
  assert (Hline : free_of newline (single_acc_marker ++ blanks ++ answer)).
  { apply free_of_append; [reflexivity|]. apply free_of_append; assumption. }
  assert (Hlines : exists rest,
             getlines (unlines before ++ single_acc_marker ++ blanks ++ answer ++ after)
             = (before ++ (single_acc_marker ++ blanks ++ answer)%string :: rest)%list).
  { rewrite (getlines_unlines before _ Hnl).
    destruct Hafter as [->|(rest & ->)].
    - exists []. rewrite append_nil_r.
      change (single_acc_marker ++ blanks ++ answer)
        with (String "S" ("INGLE_ACC:" ++ blanks ++ answer)) in Hline |- * at 1.
      rewrite (getlines_last _ _ Hline). reflexivity.
    - exists (getlines rest).
      replace (single_acc_marker ++ blanks ++ answer ++ String newline rest)
        with ((single_acc_marker ++ blanks ++ answer) ++ String newline rest)
        by (rewrite !append_assoc; reflexivity).
      rewrite (getlines_line _ _ Hline). reflexivity. }
  destruct Hlines as (rest & ->).
  rewrite (scan_lines_skip before _ Hpre), (scan_lines_answer blanks answer rest Hb Hans).
  reflexivity.
Qed.

Lemma calculateImageAccuracy_extracts_answer_witness :
  calculateImageAccuracy
    (mkWorld files_only None steady_predict
       (fun _ _ =>
          PopenRuns (unlines ["loading labels"; " SINGLE_ACC: no"]
                       ++ single_acc_marker ++ "  " ++ "{0.5}" ++ String newline "bye")
            3)
       stod_decimal)
    "images/a.png" "labels.json" (initial_state [])
  = (tick_popen (initial_state []), "{0.5}").
Proof.
  apply (calculateImageAccuracy_extracts_answer _ _ _ _ 3
           ["loading labels"; " SINGLE_ACC: no"] "  " "{0.5}" (String newline "bye")).
  - reflexivity.
  - repeat constructor.
  - reflexivity.
  - reflexivity.
  - intros b [<-|[<-|[]]]; reflexivity.
  - right. exists "{"%char, "0.5}". split; reflexivity.
  - right. exists "bye". reflexivity.
Defined.

(** The helper without an answer: the fixed error text when [popen] fails,
    without any diagnostic; the fixed no-data object when no line of the
    output starts with the marker, even if the marker occurs further inside
    a line.  In every case the helper starts the scorer once and changes
    nothing else of the driver's state. *)
Theorem calculateImageAccuracy_without_answer (w : World)
    (image_name ground_truth_path : string) (st : State) :
  let python_cmd := accuracy_command ground_truth_path (accuracy_base_name image_name) in
  let result := calculateImageAccuracy w image_name ground_truth_path st in
  fst result = tick_popen st
  /\ (popen w (popen_calls st) python_cmd = PopenFails ->
      snd result = accuracy_popen_error)
  /\ (forall output exit_status,
        popen w (popen_calls st) python_cmd = PopenRuns output exit_status ->
        Forall (fun l => String.prefix single_acc_marker l = false) (getlines output) ->
        snd result = accuracy_no_data)
  /\ (forall (lines : list string) (inside : string) exit_status,
        popen w (popen_calls st) python_cmd
          = PopenRuns (unlines (lines ++ [" " ++ single_acc_marker ++ inside])) exit_status ->
        Forall (fun l => free_of newline l /\ String.prefix single_acc_marker l = false)
          lines ->
        free_of newline inside ->
        snd result = accuracy_no_data).
Proof.
  cbv zeta. unfold calculateImageAccuracy.
  assert (Hnone : forall lines,
             Forall (fun l => String.prefix single_acc_marker l = false) lines ->
             scan_lines lines = None).
  { intros lines H. rewrite <- (app_nil_r lines). rewrite (scan_lines_skip lines [] H).
    reflexivity. }
  repeat split.
  - destruct (popen w (popen_calls st) _); reflexivity.
  - intros Hp. rewrite Hp. reflexivity.
  - intros output exit_status Hp Hall. rewrite Hp. cbn [snd].
    rewrite (Hnone _ Hall). reflexivity.
  - intros lines inside exit_status Hp Hall Hinside. rewrite Hp. cbn [snd].
    assert (Hnl : Forall (free_of newline) (lines ++ [" " ++ single_acc_marker ++ inside])).
    { apply Forall_app. split.
      - eapply Forall_impl; [|exact Hall]. intros l [H _]. exact H.
      - constructor; [|constructor].
        apply free_of_append; [reflexivity|]. apply free_of_append; [reflexivity|assumption]. }
    pose proof (getlines_unlines _ "" Hnl) as Hg. rewrite append_nil_r in Hg.
    rewrite Hg. cbn [getlines]. rewrite app_nil_r, Hnone; [reflexivity|].
    apply Forall_app. split.
    + eapply Forall_impl; [|exact Hall]. intros l [_ H]. exact H.
    + constructor; [reflexivity|constructor].
Qed.

(** ** From the scorer's output to the record *)

(** The record of a scored image carries the accuracy that the scorer
    printed: the marker may stand anywhere in the output, after any other
    text, and the number read by [std::stod] from the value of the first
    character_accuracy key after it is the accuracy of the record; the image
    is counted as a success. *)
Theorem scored_record_carries_printed_accuracy (w : World) (size i : nat)
    (image_path : string) (st st1 : State) (loc : RunLocals)
    (noise pre value rest : string) (d : ascii) (acc : float) :
  repetition_loop w image_path 3 0 st initial_locals = (st1, inl loc) ->
  Forall (fun output => output <> None) (final_outputs loc) ->
  popen w (popen_calls st) (command_of w image_path)
  = PopenRuns
      (noise ++ single_acc_prefix ++ pre ++ character_accuracy_key ++ value
         ++ String d rest) 0 ->
  Str.find single_acc_prefix
    (noise ++ single_acc_prefix ++ pre ++ character_accuracy_key ++ value
       ++ String d rest) 0
  = Some (String.length noise) ->
  Str.find character_accuracy_key
    (pre ++ character_accuracy_key ++ value ++ String d rest) 0
  = Some (String.length pre) ->
  d = ","%char \/ d = "}"%char ->
  free_of ","%char value -> free_of "}"%char value ->
  stod w (Str.remove_spaces value) = Some acc ->
  let st' := loop_body w size i image_path st in
  records (cout st')
  = (records (cout st) ++ [image_record loc image_path (AccFixed4 acc)])%list
  /\ successful_count st' = (successful_count st + 1)%Z
  /\ failed_count st' = failed_count st
  /\ cerr st' = cerr st.
Proof.
  intros E1 Hs Hp Hmarker Hkey Hd Hc Hb Hstod st'. subst st'.
  apply save_outputs_spec in Hs.
  pose proof (repetition_loop_frame _ _ _ _ _ _ _ _ E1) as (F1 & F2 & F3 & F4 & F5 & F6).
  set (out := noise ++ single_acc_prefix ++ pre ++ character_accuracy_key ++ value
                ++ String d rest) in *.
  assert (E2 : ExecuteCommand w (command_of w image_path) (after_runs loc st1)
               = (tick_popen (after_runs loc st1), true, out)).
  { unfold ExecuteCommand, after_runs. cbn [popen_calls push_inference_time].
    rewrite F1, Hp. reflexivity. }
  assert (Hsub : Str.substr_from out (String.length noise + String.length single_acc_prefix)
                 = pre ++ character_accuracy_key ++ value ++ String d rest).
  { unfold out. rewrite <- length_append, <- append_assoc. apply substr_from_app. }
  assert (Hparse : parse_accuracy w
                     (Str.substr_from out
                        (String.length noise + String.length single_acc_prefix))
                   = Some acc).
  { rewrite Hsub, <- Hstod.
    apply (parse_accuracy_value w pre value rest d Hkey Hd Hc Hb). }
  unfold loop_body. rewrite (try_block_scored _ _ _ _ _ _ _ _ _ E1 Hs E2 Hmarker Hparse).
  match goal with |- context [progress_update ?i ?n ?s] => progress_frame i n s end.
  unfold after_runs in *. cbn in *. rewrite records_app in *. cbn in *.
  repeat split; congruence.
Qed.

Lemma scored_record_carries_printed_accuracy_witness :
  records (cout (loop_body world_uneven 2 0 "a.png" (initial_state [])))
  = [mkRecord "a.png" 100 10 70 7 (AccFixed4 (0x1.e666666666666p-1)%float)].
Proof.
  destruct (scored_record_carries_printed_accuracy world_uneven 2 0 "a.png"
              (initial_state []) (mkState 3 0 [] 0 0 [] [])
              (mkLocals [100%float; 100%float; 100%float] [Some (render sample_printed)] 7)
              (String.substring 0 15 scorer_output) "{" " 0.95" "" "}"%char
              (0x1.e666666666666p-1)%float)
    as (H & _).
  - vm_compute. reflexivity.
  - cbn [final_outputs]. constructor; [discriminate|constructor].
  - vm_compute. reflexivity.
  - vm_compute. reflexivity.
  - vm_compute. reflexivity.
  - right. reflexivity.
  - reflexivity.
  - reflexivity.
  - vm_compute. reflexivity.
  - rewrite H. vm_compute. reflexivity.
Defined.

(** ** Failures are logged as often as they are counted *)

Lemma loop_body_failures_logged (w : World) (size i : nat) (image_path : string)
    (st : State) :
  List.length (filter is_failed_to_process (cerr (loop_body w size i image_path st)))
  = (List.length (filter is_failed_to_process (cerr st))
     + (if raised w (image_path, st) then 1 else 0))%nat.
Proof.
  unfold loop_body, raised. cbn [fst snd].
  destruct (try_block_outcome w image_path st);
    try (match goal with |- context [progress_update ?i ?n ?s] => progress_frame i n s end);
    frames; unfold after_runs in *; cbn in *;
    repeat match goal with H : _ \/ _ |- _ => destruct H as [H|H] end;
    repeat match goal with H : cerr _ = _ |- _ => rewrite H; clear H end;
    rewrite ?filter_app, ?length_app; cbn; lia.
Qed.

(** The handler logs every failure that it counts, and nothing else counts
    or logs one: in every run [failed_count] is the number of diagnostics of
    line 404 on [std::cerr]. *)
Theorem failures_counted_are_failures_logged (w : World) (argv : list string) :
  failed_count (final (main w argv))
  = Z.of_nat (List.length (filter is_failed_to_process (cerr (final (main w argv))))).
Proof.
  assert (Hloop : forall size paths i st,
             List.length (filter is_failed_to_process (cerr (batch_loop w size i paths st)))
             = (List.length (filter is_failed_to_process (cerr st))
                + List.length (filter (raised w) (iterations w size i paths st)))%nat).
  { intros size paths. induction paths as [|p rest IH]; intros i st; [cbn; lia|].
    destruct (batch_loop_cons w size i p rest st) as (-> & -> & _).
    cbn [filter]. pose proof (loop_body_failures_logged w size i p st) as Hb.
    destruct (crashes w (p, st)) eqn:Ec.
    - destruct (crashes_not_raised _ _ Ec) as [Hr _]. rewrite Hr in *.
      cbn [List.length filter]. lia.
    - rewrite IH, Hb. destruct (raised w (p, st)); cbn [List.length]; lia. }
  assert (Hwarn : forall (stat0 : string -> fsnode) args,
             filter is_failed_to_process (snd (collectImagePaths stat0 args)) = []).
  { intros stat0 args. unfold collectImagePaths.
    rewrite (proj2 (collectImagePaths_loop_spec stat0 args [] [])). cbn [app].
    induction (filter (invalid_argument stat0) args) as [|a l IH]; [reflexivity|exact IH]. }
  unfold main.
  destruct argv as [|argv0 [|arg1 more]]; [reflexivity..|].
  destruct (collectImagePaths (stat w) (arg1 :: more)) as [[|p ps] ws] eqn:E.
  - cbn [final failed_count initial_state cerr]. rewrite filter_app.
    pose proof (Hwarn (stat w) (arg1 :: more)) as Hw. rewrite E in Hw. cbn [snd] in Hw.
    rewrite Hw. reflexivity.
  - pose proof (Hwarn (stat w) (arg1 :: more)) as Hw. rewrite E in Hw. cbn [snd] in Hw.
    destruct (PaddleOCR_throws w) as [what|].
    { cbn [final failed_count initial_state cerr]. rewrite Hw. reflexivity. }
    cbv zeta.
    set (st := batch_loop w (List.length (p :: ps)) 0 (p :: ps) (initial_state ws)).
    assert (Hst : failed_count st
                  = Z.of_nat (List.length (filter is_failed_to_process (cerr st)))).
    { unfold st. rewrite Hloop, batch_loop_failed_count.
      cbn [initial_state failed_count cerr].
      rewrite Hw. cbn [List.length]. lia. }
    destruct (batch_killed w (List.length (p :: ps)) 0 (p :: ps) (initial_state ws));
      [exact Hst|].
    cbn [final].
    destruct (summarize (List.length (p :: ps)) st); [exact Hst|].
    cbn [write_cerr failed_count cerr]. rewrite filter_app, length_app.
    cbn [filter is_failed_to_process List.length]. rewrite Hst. lia.
Qed.
